(** * Synchronisation engine of the to-do service

    A shallow embedding of [SyncService] (outbound event handlers and the
    inbound reconciliation pass), of [SyncConsumer] and of [SyncScheduler],
    together with the properties of the specification that concern them.

    The services are asynchronous TypeScript methods that read and write two
    TypeORM repositories, call an axios client and write to a logger.  They
    are embedded as computations of a state-and-exception monad over a
    [World] that holds the local store, the remote system, the trace of HTTP
    requests, the log and the acknowledgements of the queue channel. *)

From Stdlib Require Import ZArith List String Ascii Bool Lia.
From Stdlib Require Import DecimalString DecimalZ.
Import ListNotations.
Local Open Scope string_scope.
Local Open Scope list_scope.

Set Implicit Arguments.

(** ** JavaScript values used by the service *)

(** [n.toString()] for an integral number, in decimal digits (as the source
    writes a number below 10^21 in absolute value; primary keys and list
    lengths are). *)
Definition toString (n : Z) : string := NilEmpty.string_of_int (Z.to_int n).

(** Truthiness of a [string | null] value: [null] and the empty string are
    falsy. *)
Definition truthy (s : option string) : bool :=
  match s with
  | Some (String _ _) => true
  | _ => false
  end.

(** Rendering of a [string | null] value inside a template literal. *)
Definition show (s : option string) : string :=
  match s with
  | Some x => x
  | None => "null"
  end.

Definition showBool (b : bool) : string := if b then "true" else "false".

(** Rendering of a number that may be [NaN]. *)
Definition showNumber (n : option Z) : string :=
  match n with
  | Some z => toString z
  | None => "NaN"
  end.

(** Strings are held as their UTF-8 bytes.  The white space that [parseInt]
    strips is the one-byte TAB, LF, VT, FF, CR and SP, and the characters
    U+00A0, U+1680, U+2000 to U+200A, U+2028, U+2029, U+202F, U+205F, U+3000
    and U+FEFF, which take two or three bytes. *)
Definition is_space (c : ascii) : bool :=
  match nat_of_ascii c with
  | 9%nat | 10%nat | 11%nat | 12%nat | 13%nat | 32%nat => true
  | _ => false
  end.

(** First byte of a white space character of several bytes. *)
Definition is_space_lead (c : ascii) : bool :=
  match nat_of_ascii c with
  | 194%nat | 225%nat | 226%nat | 227%nat | 239%nat => true
  | _ => false
  end.

(** U+00A0 *)
Definition is_space2 (c1 c2 : ascii) : bool :=
  (nat_of_ascii c1 =? 194)%nat && (nat_of_ascii c2 =? 160)%nat.

Definition is_space3 (c1 c2 c3 : ascii) : bool :=
  let n1 := nat_of_ascii c1 in
  let n2 := nat_of_ascii c2 in
  let n3 := nat_of_ascii c3 in
  ((n1 =? 225) && (n2 =? 154) && (n3 =? 128))%nat            (* U+1680 *)
  || ((n1 =? 226) && (n2 =? 128)
      && (((128 <=? n3) && (n3 <=? 138))                     (* U+2000-200A *)
          || (n3 =? 168) || (n3 =? 169)                      (* U+2028, U+2029 *)
          || (n3 =? 175)))%nat                               (* U+202F *)
  || ((n1 =? 226) && (n2 =? 129) && (n3 =? 159))%nat         (* U+205F *)
  || ((n1 =? 227) && (n2 =? 128) && (n3 =? 128))%nat         (* U+3000 *)
  || ((n1 =? 239) && (n2 =? 187) && (n3 =? 191))%nat.        (* U+FEFF *)

Fixpoint skip_spaces (s : string) : string :=
  match s with
  | String c r =>
      if is_space c then skip_spaces r
      else if is_space_lead c then
        match r with
        | String c2 r2 =>
            if is_space2 c c2 then skip_spaces r2
            else
              match r2 with
              | String c3 r3 =>
                  if is_space3 c c2 c3 then skip_spaces r3 else s
              | EmptyString => s
              end
        | EmptyString => s
        end
      else s
  | EmptyString => s
  end.

Definition digit_of (c : ascii) : option Z :=
  let n := nat_of_ascii c in
  if (48 <=? n)%nat && (n <=? 57)%nat then Some (Z.of_nat (n - 48)) else None.

Fixpoint read_digits (s : string) (acc : option Z) : option Z :=
  match s with
  | String c r =>
      match digit_of c with
      | Some d =>
          read_digits r
            (Some (10 * (match acc with Some a => a | None => 0 end) + d)%Z)
      | None => acc
      end
  | EmptyString => acc
  end.

(** [parseInt(s, 10)]: leading white space is skipped, a sign is accepted,
    the longest prefix of decimal digits is read; [None] stands for [NaN].
    The digits are read as the integer they write.  The source holds the
    result in a double, which is that integer as long as it is below 2^53 in
    absolute value; the result is only compared with primary keys, which are
    below that bound. *)
Definition parseInt (s : string) : option Z :=
  match skip_spaces s with
  | String "-" r => option_map Z.opp (read_digits r None)
  | String "+" r => read_digits r None
  | r => read_digits r None
  end.

(** ** Local store: the two TypeORM repositories *)

Record TodoList := mkTodoList {
  list_id : Z;
  list_external_id : option string;
  list_name : string
}.

(** The [Todo] entity is used by the service through [id], [external_id],
    [title], [completed] and the [todoList] relation, kept as the foreign
    key; the key is [None] for a row that belongs to no list (NULL). *)
Record Todo := mkTodo {
  todo_id : Z;
  todo_external_id : option string;
  title : string;
  completed : bool;
  todoListId : option Z
}.

Record Store := mkStore {
  lists : list TodoList;
  todos : list Todo;
  next_list_id : Z;
  next_todo_id : Z
}.

Definition set_list_external_id (l : TodoList) (e : option string) : TodoList :=
  mkTodoList (list_id l) e (list_name l).

Definition set_list_name (l : TodoList) (n : string) : TodoList :=
  mkTodoList (list_id l) (list_external_id l) n.

Definition set_todo_external_id (t : Todo) (e : option string) : Todo :=
  mkTodo (todo_id t) e (title t) (completed t) (todoListId t).

Definition set_title (t : Todo) (s : string) : Todo :=
  mkTodo (todo_id t) (todo_external_id t) s (completed t) (todoListId t).

Definition set_completed (t : Todo) (b : bool) : Todo :=
  mkTodo (todo_id t) (todo_external_id t) (title t) b (todoListId t).

Definition set_todoListId (t : Todo) (k : option Z) : Todo :=
  mkTodo (todo_id t) (todo_external_id t) (title t) (completed t) k.

Definition lookup_list (id : Z) (s : Store) : option TodoList :=
  find (fun l => (list_id l =? id)%Z) (lists s).

Definition lookup_todo (id : Z) (s : Store) : option Todo :=
  find (fun t => (todo_id t =? id)%Z) (todos s).

Definition belongs_to (id : Z) (t : Todo) : bool :=
  match todoListId t with
  | Some k => (k =? id)%Z
  | None => false
  end.

(** The [todos] relation of a list: the rows whose foreign key is the list. *)
Definition todos_of (id : Z) (s : Store) : list Todo :=
  filter (belongs_to id) (todos s).

(** The [todoList] relation of a todo: the row its foreign key names, if
    there is one. *)
Definition todoList_of (t : Todo) (s : Store) : option TodoList :=
  match todoListId t with
  | Some k => lookup_list k s
  | None => None
  end.

(** [save] of an entity that has an id: the row with that id is replaced,
    or the entity is inserted when there is none. *)
Fixpoint upsert {A : Type} (key : A -> Z) (x : A) (l : list A) : list A :=
  match l with
  | [] => [x]
  | y :: r => if (key y =? key x)%Z then x :: r else y :: upsert key x r
  end.

(** The store in which the row of a list is replaced and nothing else
    changes: what the save of a list leaves when the relation it carries
    holds every todo of the list ([save_loaded_relation] below). *)
Definition store_save_list (l : TodoList) (s : Store) : Store :=
  mkStore (upsert list_id l (lists s)) (todos s) (next_list_id s) (next_todo_id s).

(** [save] of a list entity that carries its [todos] relation.  The relation
    is one-to-many without cascade: the todo objects are not written, but
    the rows whose foreign key is the list and that are not among the
    objects of the relation, compared by id, are taken out of the list,
    their foreign key set to NULL.  (The rows that are among the objects
    keep the list as foreign key.) *)
Definition in_relation (loaded : list Todo) (t : Todo) : bool :=
  existsb (fun u => (todo_id u =? todo_id t)%Z) loaded.

Definition orphaned_by (l : TodoList) (loaded : list Todo) (t : Todo) : bool :=
  belongs_to (list_id l) t && negb (in_relation loaded t).

Definition detach (l : TodoList) (loaded : list Todo) (t : Todo) : Todo :=
  if orphaned_by l loaded t then set_todoListId t None else t.

Definition store_save_list_with (l : TodoList) (loaded : list Todo) (s : Store)
  : Store :=
  mkStore (upsert list_id l (lists s)) (map (detach l loaded) (todos s))
          (next_list_id s) (next_todo_id s).

Definition store_save_todo (t : Todo) (s : Store) : Store :=
  mkStore (lists s) (upsert todo_id t (todos s)) (next_list_id s) (next_todo_id s).

(** [save] of an entity made by [create]: the generated primary key is the
    next value of the table's sequence. *)
Definition store_insert_list (name : string) (e : option string) (s : Store)
  : TodoList * Store :=
  let l := mkTodoList (next_list_id s) e name in
  (l, mkStore (lists s ++ [l]) (todos s) (next_list_id s + 1)%Z (next_todo_id s)).

Definition store_insert_todo (ttl : string) (c : bool) (e : option string)
  (lid : Z) (s : Store) : Todo * Store :=
  let t := mkTodo (next_todo_id s) e ttl c (Some lid) in
  (t, mkStore (lists s) (todos s ++ [t]) (next_list_id s) (next_todo_id s + 1)%Z).

(** ** Remote system: the JSON of the external API and the axios client *)

(** The lists and items of the external API, with the fields the service
    reads.  The service gives them no type; a list or an item of a response
    is taken to carry its [id], [name] or [description], and [completed], as
    the contract of the API has them, while [source_id] may be absent. *)
Record ExternalItem := mkExternalItem {
  item_id : string;
  item_source_id : option string;
  description : string;
  item_completed : bool
}.

(** An absent [items] array is read by the service as an empty one at each
    of its uses ([items || []], [items && ...]), so it is kept as a list. *)
Record ExternalList := mkExternalList {
  ext_id : string;
  source_id : option string;
  ext_name : string;
  items : list ExternalItem
}.

Inductive Method := GET | POST | PATCH | DELETE.

Record ItemBody := mkItemBody {
  ib_source_id : string;
  ib_description : string;
  ib_completed : bool
}.

Inductive Body :=
| NoBody
| CreateListBody (src : string) (name : string) (its : list ItemBody)
| ListPatchBody (name : string)
| ItemPatchBody (descr : string) (compl : bool).

(** A request of the axios instance; the path is kept as its segments, so
    [/todolists/${a}/todoitems/${b}] is [["todolists"; a; "todoitems"; b]]. *)
Record Request := mkRequest {
  method : Method;
  url : list string;
  body : Body
}.

(** The body of a response: one list, the array of the lists, or no body,
    which the client gives as the empty string. *)
Inductive Data :=
| NoData
| ListData (l : ExternalList)
| ListsData (ls : list ExternalList).

Inductive Response :=
| NetworkError
| Reply (status : nat) (data : Data).

(** The remote system behind the client: any state with a way to answer a
    request. *)
Class HttpClient (R : Type) := {
  send : Request -> R -> Response * R
}.

(** ** Errors, log and world *)

Inductive Error :=
| HttpException (status : nat) (message : string)
| AxiosError (status : option nat)
| QueryFailedError
| TypeError.

Definition NOT_FOUND : nat := 404.
Definition INTERNAL_SERVER_ERROR : nat := 500.

Inductive Level := LOG | WARN | ERROR.

Record LogEntry := mkLog {
  level : Level;
  text : string
}.

Record SyncEvent := mkEvent {
  event_type : string;
  payload_id : Z
}.

Definition CREATE_TODO_LIST := "create-todo-list".
Definition UPDATE_TODO_LIST := "update-todo-list".
Definition DELETE_TODO_LIST := "delete-todo-list".
Definition CREATE_TODO_ITEM := "create-todo-item".
Definition UPDATE_TODO_ITEM := "update-todo-item".
Definition DELETE_TODO_ITEM := "delete-todo-item".

(** The world of a run.  [faults] is the number of writes the database still
    accepts before it starts to reject them ([None]: it never does); it is
    how a run that stops in the middle of its persistence steps is
    produced.  [acks] lists the delivery tags acknowledged on the channel. *)
Record World (R : Type) := mkWorld {
  db : Store;
  faults : option nat;
  remote : R;
  requests : list Request;
  log : list LogEntry;
  acks : list nat
}.

Inductive Outcome (A : Type) :=
| Return (a : A)
| Throw (e : Error).

Arguments Throw {A} e.

Section Service.

Context {R : Type} `{HttpClient R}.

Definition M (A : Type) : Type := World R -> Outcome A * World R.

Definition ret {A} (a : A) : M A := fun w => (Return a, w).

Definition throw {A} (e : Error) : M A := fun w => (Throw e, w).

Definition bind {A B} (c : M A) (k : A -> M B) : M B :=
  fun w =>
    match c w with
    | (Return a, w') => k a w'
    | (Throw e, w') => (Throw e, w')
    end.

(** [try { c } catch (error) { h error }] *)
Definition try_catch {A} (c : M A) (h : Error -> M A) : M A :=
  fun w =>
    match c w with
    | (Return a, w') => (Return a, w')
    | (Throw e, w') => h e w'
    end.

Notation "x <- c ;; k" := (bind c (fun x => k))
  (at level 61, c at next level, right associativity).
Notation "c ;;; k" := (bind c (fun _ => k))
  (at level 61, right associativity).

Fixpoint for_each {A} (l : list A) (f : A -> M unit) : M unit :=
  match l with
  | [] => ret tt
  | x :: r => f x ;;; for_each r f
  end.

Definition logger (lv : Level) (s : string) : M unit :=
  fun w => (Return tt,
            mkWorld (db w) (faults w) (remote w) (requests w)
                    (log w ++ [mkLog lv s]) (acks w)).

(** A read of the store. *)
Definition query {A} (f : Store -> A) : M A := fun w => (Return (f (db w)), w).

(** A write of the store: one persistence step, rejected once the database
    has started to fail. *)
Definition persist {A} (f : Store -> A * Store) : M A :=
  fun w =>
    match faults w with
    | Some O => (Throw QueryFailedError, w)
    | Some (S n) =>
        let (a, s) := f (db w) in
        (Return a, mkWorld s (Some n) (remote w) (requests w) (log w) (acks w))
    | None =>
        let (a, s) := f (db w) in
        (Return a, mkWorld s None (remote w) (requests w) (log w) (acks w))
    end.

(** A call of the axios instance: it resolves with the body on a 2xx status
    and rejects otherwise. *)
Definition http (m : Method) (u : list string) (b : Body) : M Data :=
  fun w =>
    let req := mkRequest m u b in
    let (resp, r') := send req (remote w) in
    let w' := mkWorld (db w) (faults w) r' (requests w ++ [req]) (log w) (acks w) in
    match resp with
    | NetworkError => (Throw (AxiosError None), w')
    | Reply st d =>
        if (200 <=? st)%nat && (st <? 300)%nat then (Return d, w')
        else (Throw (AxiosError (Some st)), w')
    end.

Definition channel_ack (tag : nat) : M unit :=
  fun w => (Return tt,
            mkWorld (db w) (faults w) (remote w) (requests w) (log w)
                    (acks w ++ [tag])).

(** *** Repository calls *)

(** [todoListRepository.findOne({ where: { id }, relations: ['todos'] })] *)
Definition findOneListWithTodos (id : Z) : M (option (TodoList * list Todo)) :=
  query (fun s =>
    option_map (fun l => (l, todos_of (list_id l) s)) (lookup_list id s)).

(** [todoListRepository.findOne({ where: { id } })] *)
Definition findOneList (id : Z) : M (option TodoList) :=
  query (lookup_list id).

(** [todoRepository.findOne({ where: { id }, relations: ['todoList'] })] *)
Definition findOneTodoWithList (id : Z) : M (option (Todo * option TodoList)) :=
  query (fun s =>
    option_map (fun t => (t, todoList_of t s)) (lookup_todo id s)).

(** [todoRepository.findOne({ where: { id } })] *)
Definition findOneTodo (id : Z) : M (option Todo) :=
  query (lookup_todo id).

(** [todoListRepository.find({ relations: ['todos'] })] *)
Definition findLists : M (list (TodoList * list Todo)) :=
  query (fun s => map (fun l => (l, todos_of (list_id l) s)) (lists s)).

(** [response.data] of the snapshot request, used as the array of the
    remote lists.  A body that is not an array has no [filter] method: the
    pass writes its first line to the log, with the [length] it reads from
    the body ([0] of an empty body, [undefined] of an object), reads the
    local lists and fails with a TypeError at the first filter. *)
Definition expect_lists (d : Data) : M (list ExternalList) :=
  match d with
  | ListsData ls => ret ls
  | other =>
      logger LOG ("Fetched "
                  ++ match other with
                     | NoData => "0"
                     | _ => "undefined"
                     end
                  ++ " todo lists from external API") ;;;
      findLists ;;;
      throw TypeError
  end.

(** [todoListRepository.save(list)] for a list entity read with its [todos]
    relation: the entity is the row and the array of its todo objects. *)
Definition saveList (l : TodoList) (todos : list Todo) : M unit :=
  persist (fun s => (tt, store_save_list_with l todos s)).

Definition saveTodo (t : Todo) : M unit :=
  persist (fun s => (tt, store_save_todo t s)).

Definition saveNewList (name : string) (e : option string) : M TodoList :=
  persist (store_insert_list name e).

Definition saveNewTodo (ttl : string) (c : bool) (e : option string) (lid : Z)
  : M Todo :=
  persist (store_insert_todo ttl c e lid).

(** [todoRepository.save(array)]: the rows of the array are inserted in one
    transaction, hence in one persistence step. *)
Definition store_insert_items (its : list ExternalItem) (lid : Z) (s : Store)
  : unit * Store :=
  (tt, fold_left
         (fun st item =>
            snd (store_insert_todo (description item) (item_completed item)
                   (Some (item_id item)) lid st))
         its s).

Definition saveNewTodos (its : list ExternalItem) (lid : Z) : M unit :=
  persist (store_insert_items its lid).

(** *** Outbound handlers *)

Definition source_matches (t : Todo) (externalItem : ExternalItem) : bool :=
  match item_source_id externalItem with
  | Some s => String.eqb (toString (todo_id t)) s
  | None => false
  end.

(** The creation response is used through [response.data.id] and
    [response.data.items].  A body that is not a list object has neither:
    the list is saved with an undefined [external_id], which leaves its row
    as it is, the loop over the items is skipped, and the handler returns
    after its log line. *)
Definition createTodoList (id : Z) : M unit :=
  r <- findOneListWithTodos id ;;
  match r with
  | None =>
      throw (HttpException NOT_FOUND
               ("TodoList with id " ++ toString id ++ " not found"))
  | Some (todoList, todos) =>
      if truthy (list_external_id todoList) then
        logger LOG ("TodoList " ++ toString id
                    ++ " already synced with external_id "
                    ++ show (list_external_id todoList))
      else
        let requestBody :=
          CreateListBody (toString (list_id todoList)) (list_name todoList)
            (map (fun todo =>
                    mkItemBody (toString (todo_id todo)) (title todo)
                               (completed todo))
                 todos) in
        try_catch
          (data <- http POST ["todolists"] requestBody ;;
           match data with
           | ListData externalTodoList =>
               saveList (set_list_external_id todoList
                           (Some (ext_id externalTodoList))) todos ;;;
               for_each (items externalTodoList)
                 (fun externalItem =>
                    match find (fun t => source_matches t externalItem) todos with
                    | Some localTodo =>
                        saveTodo (set_todo_external_id localTodo
                                    (Some (item_id externalItem)))
                    | None => ret tt
                    end) ;;;
               logger LOG ("Successfully synced TodoList " ++ toString id
                           ++ " with external_id " ++ ext_id externalTodoList)
           | _ =>
               saveList todoList todos ;;;
               logger LOG ("Successfully synced TodoList " ++ toString id
                           ++ " with external_id undefined")
           end)
          (fun error =>
             logger ERROR ("Failed to create TodoList " ++ toString id
                           ++ " on external API:") ;;;
             throw error)
  end.

Definition updateTodoList (id : Z) : M unit :=
  r <- findOneList id ;;
  match r with
  | None =>
      throw (HttpException NOT_FOUND
               ("TodoList with id " ++ toString id ++ " not found"))
  | Some todoList =>
      if negb (truthy (list_external_id todoList)) then
        logger LOG ("TodoList " ++ toString id
                    ++ " not synced yet, creating instead of updating") ;;;
        createTodoList id
      else
        try_catch
          (http PATCH ["todolists"; show (list_external_id todoList)]
                (ListPatchBody (list_name todoList)) ;;;
           logger LOG ("Successfully updated TodoList " ++ toString id
                       ++ " (external_id: " ++ show (list_external_id todoList)
                       ++ ")"))
          (fun error =>
             logger ERROR ("Failed to update TodoList " ++ toString id
                           ++ " on external API:") ;;;
             throw error)
  end.

Definition is_404 (e : Error) : bool :=
  match e with
  | AxiosError (Some 404%nat) => true
  | _ => false
  end.

Definition deleteTodoList (id : Z) : M unit :=
  r <- findOneList id ;;
  match r with
  | None => ret tt
  | Some todoList =>
      if negb (truthy (list_external_id todoList)) then
        logger LOG ("TodoList " ++ toString id
                    ++ " was never synced, skipping external deletion")
      else
        try_catch
          (http DELETE ["todolists"; show (list_external_id todoList)] NoBody ;;;
           logger LOG ("Successfully deleted TodoList " ++ toString id
                       ++ " (external_id: " ++ show (list_external_id todoList)
                       ++ ")"))
          (fun error =>
             if is_404 error then
               logger LOG ("TodoList " ++ toString id
                           ++ " already deleted on external API")
             else
               logger ERROR ("Failed to delete TodoList " ++ toString id
                             ++ " on external API:") ;;;
               throw error)
  end.

Definition cannot_sync_individually (id : Z) : string :=
  "Todo " ++ toString id
  ++ " cannot be synced individually. External API only supports creating items when creating the todo list. The item exists locally but won't be synced to external API.".

Definition createTodoItem (id : Z) : M unit :=
  r <- findOneTodoWithList id ;;
  match r with
  | None | Some (_, None) =>
      throw (HttpException NOT_FOUND
               ("Todo with id " ++ toString id ++ " not found"))
  | Some (todo, Some todoList) =>
      if truthy (todo_external_id todo) then
        logger LOG ("Todo " ++ toString id
                    ++ " already synced with external_id "
                    ++ show (todo_external_id todo))
      else
        let warn := logger WARN (cannot_sync_individually id) in
        if negb (truthy (list_external_id todoList)) then
          logger LOG ("TodoList " ++ toString (list_id todoList)
                      ++ " not synced yet, syncing it first") ;;;
          createTodoList (list_id todoList) ;;;
          updatedTodo <- findOneTodo id ;;
          if truthy (match updatedTodo with
                     | Some t => todo_external_id t
                     | None => None
                     end)
          then logger LOG ("Todo " ++ toString id
                           ++ " synced as part of TodoList sync")
          else warn
        else warn
  end.

Definition updateTodoItem (id : Z) : M unit :=
  r <- findOneTodoWithList id ;;
  match r with
  | None | Some (_, None) =>
      throw (HttpException NOT_FOUND
               ("Todo with id " ++ toString id ++ " not found"))
  | Some (todo, Some todoList) =>
      if negb (truthy (todo_external_id todo)) then
        logger LOG ("Todo " ++ toString id
                    ++ " not synced yet, creating instead of updating") ;;;
        createTodoItem id
      else
        ids <-
          (if negb (truthy (list_external_id todoList)) then
             logger LOG ("TodoList " ++ toString (list_id todoList)
                         ++ " not synced yet, syncing it first") ;;;
             createTodoList (list_id todoList) ;;;
             updated <- findOneTodoWithList id ;;
             match updated with
             | Some (updatedTodo, updatedList) =>
                 if negb (truthy (todo_external_id updatedTodo)) then
                   throw (HttpException INTERNAL_SERVER_ERROR
                            ("Failed to sync Todo " ++ toString id))
                 else
                   match updatedList with
                   | Some l =>
                       ret (list_external_id l, todo_external_id updatedTodo)
                   | None => throw TypeError
                   end
             | None =>
                 throw (HttpException INTERNAL_SERVER_ERROR
                          ("Failed to sync Todo " ++ toString id))
             end
           else ret (list_external_id todoList, todo_external_id todo)) ;;
        let '(listExternalId, todoExternalId) := ids in
        try_catch
          (http PATCH ["todolists"; show listExternalId;
                       "todoitems"; show todoExternalId]
                (ItemPatchBody (title todo) (completed todo)) ;;;
           logger LOG ("Successfully updated Todo " ++ toString id
                       ++ " (external_id: " ++ show todoExternalId ++ ")"))
          (fun error =>
             logger ERROR ("Failed to update Todo " ++ toString id
                           ++ " on external API:") ;;;
             throw error)
  end.

Definition deleteTodoItem (id : Z) : M unit :=
  r <- findOneTodoWithList id ;;
  match r with
  | None => ret tt
  | Some (todo, todoList) =>
      if negb (truthy (todo_external_id todo)) then
        logger LOG ("Todo " ++ toString id
                    ++ " was never synced, skipping external deletion")
      else
        let listExternalId :=
          match todoList with
          | Some l => list_external_id l
          | None => None
          end in
        if negb (truthy listExternalId) then
          logger LOG ("TodoList "
                      ++ match todoList with
                         | Some l => toString (list_id l)
                         | None => "undefined"
                         end
                      ++ " not synced, skipping external deletion")
        else
          try_catch
            (http DELETE ["todolists"; show listExternalId;
                          "todoitems"; show (todo_external_id todo)] NoBody ;;;
             logger LOG ("Successfully deleted Todo " ++ toString id
                         ++ " (external_id: " ++ show (todo_external_id todo)
                         ++ ")"))
            (fun error =>
               if is_404 error then
                 logger LOG ("Todo " ++ toString id
                             ++ " already deleted on external API")
               else
                 logger ERROR ("Failed to delete Todo " ++ toString id
                               ++ " on external API:") ;;;
                 throw error)
  end.

(** The [switch] of [handleSyncEvent], on the string of the event type. *)
Definition dispatch (event : SyncEvent) : M unit :=
  let ty := event_type event in
  let id := payload_id event in
  if String.eqb ty CREATE_TODO_LIST then createTodoList id
  else if String.eqb ty UPDATE_TODO_LIST then updateTodoList id
  else if String.eqb ty DELETE_TODO_LIST then deleteTodoList id
  else if String.eqb ty CREATE_TODO_ITEM then createTodoItem id
  else if String.eqb ty UPDATE_TODO_ITEM then updateTodoItem id
  else if String.eqb ty DELETE_TODO_ITEM then deleteTodoItem id
  else logger WARN ("Unknown sync event type: " ++ ty).

Definition handleSyncEvent (event : SyncEvent) : M unit :=
  logger LOG ("Processing sync event: " ++ event_type event) ;;;
  try_catch (dispatch event)
    (fun error =>
       logger ERROR ("Error processing sync event " ++ event_type event ++ ":") ;;;
       throw error).

(** *** Inbound reconciliation *)

(** [map.get(k)] on a [Map] built from an array of entries: the entry found
    is the last one of the array with that key.  The result is the object
    itself, given by its position in the array, since the reconciler mutates
    the objects it finds. *)
Fixpoint last_match {A} (p : A -> bool) (l : list A) : option (nat * A) :=
  match l with
  | [] => None
  | x :: r =>
      match last_match p r with
      | Some (i, y) => Some (S i, y)
      | None => if p x then Some (O, x) else None
      end
  end.

Fixpoint replace_nth {A} (n : nat) (x : A) (l : list A) : list A :=
  match l, n with
  | [], _ => []
  | _ :: r, O => x :: r
  | y :: r, S m => y :: replace_nth m x r
  end.

(** Key test of [localTodosByExternalId]: the todos with a truthy
    [external_id], keyed by it. *)
Definition has_external_id (id : string) (t : Todo) : bool :=
  truthy (todo_external_id t)
  && match todo_external_id t with
     | Some e => String.eqb e id
     | None => false
     end.

(** [localTodoList.external_id !== externalTodoList.id] *)
Definition differs (e : option string) (id : string) : bool :=
  match e with
  | Some x => negb (String.eqb x id)
  | None => true
  end.

(** The body of the loop over the items of one remote list.  [localTodos]
    is the array of the loaded todo objects; an updated todo is mutated in
    place, so the array is returned with the object replaced. *)
Definition reconcile_item (localTodoList : TodoList) (localTodos : list Todo)
  (externalItem : ExternalItem) : M (list Todo) :=
  if negb (truthy (Some (item_id externalItem))) then ret localTodos
  else
    match last_match (has_external_id (item_id externalItem)) localTodos with
    | None =>
        logger LOG ("Creating todo item locally from external API (id: "
                    ++ item_id externalItem ++ ", description: "
                    ++ description externalItem ++ ") in todo list "
                    ++ toString (list_id localTodoList)) ;;;
        newTodo <- saveNewTodo (description externalItem)
                     (item_completed externalItem)
                     (Some (item_id externalItem))
                     (list_id localTodoList) ;;
        logger LOG ("Successfully created todo item "
                    ++ toString (todo_id newTodo) ++ " in todo list "
                    ++ toString (list_id localTodoList)) ;;;
        ret localTodos
    | Some (j, localTodo) =>
        let titleNeedsUpdate :=
          negb (String.eqb (title localTodo) (description externalItem)) in
        let completedNeedsUpdate :=
          negb (Bool.eqb (completed localTodo) (item_completed externalItem)) in
        if titleNeedsUpdate || completedNeedsUpdate then
          logger LOG ("Updating todo item " ++ toString (todo_id localTodo)
                      ++ " in todo list " ++ toString (list_id localTodoList)
                      ++ ": title=" ++ showBool titleNeedsUpdate
                      ++ ", completed=" ++ showBool completedNeedsUpdate) ;;;
          let t1 :=
            if titleNeedsUpdate
            then set_title localTodo (description externalItem)
            else localTodo in
          let t2 :=
            if completedNeedsUpdate
            then set_completed t1 (item_completed externalItem)
            else t1 in
          saveTodo t2 ;;;
          ret (replace_nth j t2 localTodos)
        else ret localTodos
    end.

Fixpoint reconcile_items (localTodoList : TodoList)
  (externalItems : list ExternalItem) (localTodos : list Todo)
  : M (list Todo) :=
  match externalItems with
  | [] => ret localTodos
  | externalItem :: rest =>
      localTodos' <- reconcile_item localTodoList localTodos externalItem ;;
      reconcile_items localTodoList rest localTodos'
  end.

(** The loop that reports the local todos absent from the remote list. *)
Definition report_missing (localTodoList : TodoList)
  (externalItems : list ExternalItem) (localTodos : list Todo) : M unit :=
  for_each localTodos
    (fun localTodo =>
       if negb (truthy (todo_external_id localTodo)) then ret tt
       else if existsb
                 (fun item =>
                    match todo_external_id localTodo with
                    | Some e => String.eqb (item_id item) e
                    | None => false
                    end)
                 externalItems
       then ret tt
       else logger LOG ("Todo item " ++ toString (todo_id localTodo)
                        ++ " in todo list " ++ toString (list_id localTodoList)
                        ++ " exists locally with external_id "
                        ++ show (todo_external_id localTodo)
                        ++ " but not found in external API")).

(** A value between double quotes, as the two log lines of a changed list
    write the old and the new value. *)
Definition quoted (s : string) : string :=
  String "034"%char (s ++ String "034"%char EmptyString).

(** The body of the loop over the remote lists that carry a [source_id],
    for a remote list whose local list was found. *)
Definition reconcile_list (externalTodoList : ExternalList)
  (localTodoList : TodoList) (localTodos : list Todo)
  : M (TodoList * list Todo) :=
  let nameDiffers :=
    negb (String.eqb (list_name localTodoList) (ext_name externalTodoList)) in
  (if nameDiffers then
     logger LOG ("Updating todo list " ++ toString (list_id localTodoList)
                 ++ " name: " ++ quoted (list_name localTodoList) ++ " -> "
                 ++ quoted (ext_name externalTodoList))
   else ret tt) ;;;
  let l1 :=
    if nameDiffers
    then set_list_name localTodoList (ext_name externalTodoList)
    else localTodoList in
  let idDiffers := differs (list_external_id l1) (ext_id externalTodoList) in
  (if idDiffers then
     logger LOG ("Updating todo list " ++ toString (list_id l1)
                 ++ " external_id: " ++ quoted (show (list_external_id l1))
                 ++ " -> " ++ quoted (ext_id externalTodoList))
   else ret tt) ;;;
  let l2 :=
    if idDiffers
    then set_list_external_id l1 (Some (ext_id externalTodoList))
    else l1 in
  let todoListNeedsUpdate := nameDiffers || idDiffers in
  localTodos' <- reconcile_items l2 (items externalTodoList) localTodos ;;
  report_missing l2 (items externalTodoList) localTodos' ;;;
  (if todoListNeedsUpdate then
     saveList l2 localTodos' ;;;
     logger LOG ("Successfully updated todo list " ++ toString (list_id l2))
   else
     logger LOG ("Todo list " ++ toString (list_id l2)
                 ++ " is in sync with external API")) ;;;
  ret (l2, localTodos').

(** [parseInt(externalTodoList.source_id, 10)] *)
Definition localId_of (externalTodoList : ExternalList) : option Z :=
  match source_id externalTodoList with
  | Some s => parseInt s
  | None => None
  end.

(** [localTodoListsMap.get(localId)] *)
Definition map_get (localId : option Z)
  (localTodoLists : list (TodoList * list Todo))
  : option (nat * (TodoList * list Todo)) :=
  match localId with
  | Some k => last_match (fun p => (list_id (fst p) =? k)%Z) localTodoLists
  | None => None
  end.

(** The body of the loop over the remote lists that carry a [source_id].
    [localTodoLists] is the array read at the start of the pass, whose
    objects [localTodoListsMap] refers to; it is returned with the object
    of the reconciled list replaced. *)
Definition reconcile_entry (localTodoLists : list (TodoList * list Todo))
  (externalTodoList : ExternalList) : M (list (TodoList * list Todo)) :=
  let localId := localId_of externalTodoList in
  match map_get localId localTodoLists with
  | None =>
      logger LOG ("Local todo list with id " ++ showNumber localId
                  ++ " not found, deleting from external API (external_id: "
                  ++ ext_id externalTodoList ++ ")") ;;;
      try_catch
        (http DELETE ["todolists"; ext_id externalTodoList] NoBody ;;;
         logger LOG ("Successfully deleted todo list from external API (external_id: "
                     ++ ext_id externalTodoList ++ ", source_id: "
                     ++ show (source_id externalTodoList) ++ ")"))
        (fun error =>
           logger ERROR ("Failed to delete todo list from external API (external_id: "
                         ++ ext_id externalTodoList ++ "):")) ;;;
      ret localTodoLists
  | Some (i, (localTodoList, localTodos)) =>
      updated <- reconcile_list externalTodoList localTodoList localTodos ;;
      ret (replace_nth i updated localTodoLists)
  end.

Fixpoint reconcile_lists (externalTodoLists : list ExternalList)
  (localTodoLists : list (TodoList * list Todo)) : M unit :=
  match externalTodoLists with
  | [] => ret tt
  | externalTodoList :: rest =>
      localTodoLists' <- reconcile_entry localTodoLists externalTodoList ;;
      reconcile_lists rest localTodoLists'
  end.

(** The body of the loop over the remote lists without a [source_id]. *)
Definition import_list (externalTodoList : ExternalList) : M unit :=
  logger LOG ("Creating todo list locally from external API (id: "
              ++ ext_id externalTodoList ++ ", name: "
              ++ ext_name externalTodoList ++ ")") ;;;
  savedTodoList <- saveNewList (ext_name externalTodoList)
                     (Some (ext_id externalTodoList)) ;;
  match items externalTodoList with
  | [] => ret tt
  | _ :: _ =>
      saveNewTodos (items externalTodoList) (list_id savedTodoList) ;;;
      logger LOG ("Created "
                  ++ toString (Z.of_nat (List.length (items externalTodoList)))
                  ++ " todo items for todo list "
                  ++ toString (list_id savedTodoList))
  end ;;;
  logger LOG ("Successfully created todo list "
              ++ toString (list_id savedTodoList) ++ " from external API").

(** The pass once the snapshot has been fetched. *)
Definition merge_snapshot (externalTodoLists : list ExternalList) : M unit :=
  logger LOG ("Fetched " ++ toString (Z.of_nat (List.length externalTodoLists))
              ++ " todo lists from external API") ;;;
  localTodoLists <- findLists ;;
  let externalTodoListsWithoutSourceId :=
    filter (fun l => negb (truthy (source_id l))) externalTodoLists in
  let externalTodoListsWithSourceId :=
    filter (fun l => truthy (source_id l)) externalTodoLists in
  logger LOG ("Found "
              ++ toString (Z.of_nat (List.length externalTodoListsWithoutSourceId))
              ++ " external todo lists without source_id and "
              ++ toString (Z.of_nat (List.length externalTodoListsWithSourceId))
              ++ " with source_id") ;;;
  for_each externalTodoListsWithoutSourceId import_list ;;;
  reconcile_lists externalTodoListsWithSourceId localTodoLists ;;;
  logger LOG "Completed sync comparison from external API".

Definition syncFromExternal : M unit :=
  logger LOG "Starting sync from external API..." ;;;
  try_catch
    (data <- http GET ["todolists"] NoBody ;;
     externalTodoLists <- expect_lists data ;;
     merge_snapshot externalTodoLists)
    (fun error =>
       logger ERROR "Error syncing from external API:" ;;;
       throw error).

(** *** Consumer and scheduler *)

(** [SyncConsumer.handleSyncEvent]; [originalMsg] is the delivery tag of the
    message. *)
Definition consume (event : SyncEvent) (originalMsg : nat) : M unit :=
  try_catch
    (handleSyncEvent event ;;;
     channel_ack originalMsg)
    (fun error =>
       logger ERROR ("Error processing sync event " ++ event_type event ++ ":") ;;;
       channel_ack originalMsg).

(** [SyncScheduler.handleSyncFromExternal] *)
Definition handleSyncFromExternal : M unit :=
  logger LOG "Running scheduled sync from external API..." ;;;
  try_catch syncFromExternal
    (fun error => logger ERROR "Error in scheduled sync from external API:").

(** *** A mutation site *)

(** [TodosService.create]: the todo is saved under its list and the
    creation event is emitted on the queue; the event is the result of the
    computation, to be delivered to the consumer. *)
Definition TodosService_create (ttl : string) (todoListId : Z) : M SyncEvent :=
  todoList <- query (lookup_list todoListId) ;;
  match todoList with
  | None =>
      throw (HttpException NOT_FOUND
               ("TodoList with id " ++ toString todoListId ++ " not found"))
  | Some l =>
      savedTodo <- saveNewTodo ttl false None (list_id l) ;;
      ret (mkEvent CREATE_TODO_ITEM (todo_id savedTodo))
  end.

End Service.

Notation "x <- c ;; k" := (bind c (fun x => k))
  (at level 61, c at next level, right associativity).
Notation "c ;;; k" := (bind c (fun _ => k))
  (at level 61, right associativity).

(** ** The remote system of the specification *)

Module Remote.

(** Modelled from the spec: the remote system itself is not part of the
    sources; this is the list/item resource model of section 6 (creation of
    a list bundled with its items, updates of the mutable fields, deletions
    answering 404 for an absent record, the full snapshot), with identifiers
    drawn from a counter. *)
Record State := mkState {
  rlists : list ExternalList;
  next_id : Z
}.

Definition gen_id (n : Z) : string := "ext-" ++ toString n.

Fixpoint number_items (n : Z) (its : list ItemBody) : list ExternalItem :=
  match its with
  | [] => []
  | it :: r =>
      mkExternalItem (gen_id n) (Some (ib_source_id it)) (ib_description it)
                     (ib_completed it)
      :: number_items (n + 1) r
  end.

Definition has_list (e : string) (st : State) : bool :=
  existsb (fun l => String.eqb (ext_id l) e) (rlists st).

Definition has_item (e i : string) (st : State) : bool :=
  existsb (fun l => String.eqb (ext_id l) e
                    && existsb (fun it => String.eqb (item_id it) i) (items l))
          (rlists st).

Definition patch_list (e name : string) (l : ExternalList) : ExternalList :=
  if String.eqb (ext_id l) e
  then mkExternalList (ext_id l) (source_id l) name (items l)
  else l.

Definition patch_item (i descr : string) (compl : bool) (it : ExternalItem)
  : ExternalItem :=
  if String.eqb (item_id it) i
  then mkExternalItem (item_id it) (item_source_id it) descr compl
  else it.

Definition on_items (e : string) (f : list ExternalItem -> list ExternalItem)
  (l : ExternalList) : ExternalList :=
  if String.eqb (ext_id l) e
  then mkExternalList (ext_id l) (source_id l) (ext_name l) (f (items l))
  else l.

Definition not_found (st : State) : Response * State := (Reply 404 NoData, st).

(** Modelled from the spec: the six endpoints of section 6, under the paths
    the client uses. *)
Definition serve (req : Request) (st : State) : Response * State :=
  match method req, url req, body req with
  | POST, ["todolists"], CreateListBody src name its =>
      let l := mkExternalList (gen_id (next_id st)) (Some src) name
                 (number_items (next_id st + 1) its) in
      (Reply 201 (ListData l),
       mkState (rlists st ++ [l])
               (next_id st + 1 + Z.of_nat (List.length its)))
  | PATCH, ["todolists"; e], ListPatchBody name =>
      if has_list e st
      then (Reply 200 NoData,
            mkState (map (patch_list e name) (rlists st)) (next_id st))
      else not_found st
  | DELETE, ["todolists"; e], _ =>
      if has_list e st
      then (Reply 204 NoData,
            mkState (filter (fun l => negb (String.eqb (ext_id l) e)) (rlists st))
                    (next_id st))
      else not_found st
  | PATCH, ["todolists"; e; "todoitems"; i], ItemPatchBody descr compl =>
      if has_item e i st
      then (Reply 200 NoData,
            mkState (map (on_items e (map (patch_item i descr compl))) (rlists st))
                    (next_id st))
      else not_found st
  | DELETE, ["todolists"; e; "todoitems"; i], _ =>
      if has_item e i st
      then (Reply 204 NoData,
            mkState (map (on_items e
                            (filter (fun it => negb (String.eqb (item_id it) i))))
                         (rlists st))
                    (next_id st))
      else not_found st
  | GET, ["todolists"], _ => (Reply 200 (ListsData (rlists st)), st)
  | _, _, _ => not_found st
  end.

#[global] Instance client : HttpClient State := {| send := serve |}.

Definition world (s : Store) (st : State) : World State :=
  mkWorld s None st [] [] [].

End Remote.

(** ** Reasoning about runs *)

Section Frames.

Context {R : Type} `{HttpClient R}.

(** A computation guarantees a relation between the world it starts from and
    the world it leaves, whether it returns or throws. *)
Definition guarantees {A} (P : World R -> World R -> Prop) (c : M A) : Prop :=
  forall w, P w (snd (c w)).

Variable P : World R -> World R -> Prop.
Hypothesis P_refl : forall w, P w w.
Hypothesis P_trans : forall a b c, P a b -> P b c -> P a c.

Lemma guarantees_ret A (a : A) : guarantees P (ret a).
Proof. intros w. apply P_refl. Qed.

Lemma guarantees_throw A (e : Error) : guarantees P (@throw R A e).
Proof. intros w. apply P_refl. Qed.

Lemma guarantees_bind A B (c : M A) (k : A -> M B) :
  guarantees P c -> (forall a, guarantees P (k a)) -> guarantees P (bind c k).
Proof.
  intros Hc Hk w. unfold bind.
  specialize (Hc w). destruct (c w) as [[a|e] w1]; cbn in *.
  - eapply P_trans; [exact Hc | apply Hk].
  - exact Hc.
Qed.

Lemma guarantees_try_catch A (c : M A) (h : Error -> M A) :
  guarantees P c -> (forall e, guarantees P (h e)) ->
  guarantees P (try_catch c h).
Proof.
  intros Hc Hh w. unfold try_catch.
  specialize (Hc w). destruct (c w) as [[a|e] w1]; cbn in *.
  - exact Hc.
  - eapply P_trans; [exact Hc | apply Hh].
Qed.

Lemma guarantees_for_each A (l : list A) (f : A -> M unit) :
  (forall x, In x l -> guarantees P (f x)) -> guarantees P (for_each l f).
Proof.
  induction l as [|x r IH]; intros Hf; cbn.
  - apply guarantees_ret.
  - apply guarantees_bind.
    + apply Hf. now left.
    + intros _. apply IH. intros y Hy. apply Hf. now right.
Qed.

Lemma guarantees_query A (f : Store -> A) : guarantees P (query f).
Proof. intros w. apply P_refl. Qed.

End Frames.

(** One step of the structural decomposition of a computation. *)
Ltac frame_step refl trans :=
  first
    [ apply (guarantees_ret _ refl)
    | apply (guarantees_throw _ refl)
    | apply (guarantees_query _ refl)
    | apply (guarantees_bind trans); [ | intros ? ]
    | apply (guarantees_try_catch trans); [ | intros ? ]
    | apply (guarantees_for_each refl trans); intros ? ?; cbv beta
    | match goal with
      | |- guarantees _ (let _ := _ in _) => cbv zeta
      | |- guarantees _ (match ?x with _ => _ end) => destruct x
      end ].

Section Acknowledgement.

Context {R : Type} `{HttpClient R}.

(** The channel is touched only by [channel_ack]. *)
Definition same_acks (w w' : World R) : Prop := acks w' = acks w.

Lemma same_acks_refl w : same_acks w w.
Proof. reflexivity. Qed.

Lemma same_acks_trans a b c : same_acks a b -> same_acks b c -> same_acks a c.
Proof. unfold same_acks. congruence. Qed.

Lemma same_acks_logger lv s : guarantees same_acks (logger lv s).
Proof. intros w. reflexivity. Qed.

Lemma same_acks_persist A (f : Store -> A * Store) :
  guarantees same_acks (persist f).
Proof.
  intros w. unfold persist, same_acks.
  destruct (faults w) as [[|n]|]; cbn; try reflexivity;
    destruct (f (db w)); reflexivity.
Qed.

Lemma same_acks_http m u b : guarantees same_acks (http m u b).
Proof.
  intros w. unfold http, same_acks.
  destruct (send _ _) as [[|st d] r']; cbn; try reflexivity.
  destruct (_ && _); reflexivity.
Qed.

Ltac acks_with known :=
  repeat first
    [ known
    | apply same_acks_logger
    | apply same_acks_persist
    | apply same_acks_http
    | frame_step same_acks_refl same_acks_trans ].

Lemma same_acks_createTodoList id : guarantees same_acks (createTodoList id).
Proof.
  unfold createTodoList, findOneListWithTodos, saveList, saveTodo.
  acks_with fail.
Qed.

Lemma same_acks_createTodoItem id : guarantees same_acks (createTodoItem id).
Proof.
  unfold createTodoItem, findOneTodoWithList, findOneTodo.
  acks_with ltac:(apply same_acks_createTodoList).
Qed.

Lemma same_acks_dispatch ev : guarantees same_acks (dispatch ev).
Proof.
  unfold dispatch, updateTodoList, deleteTodoList, updateTodoItem,
    deleteTodoItem, findOneList, findOneTodoWithList.
  acks_with ltac:(first [ apply same_acks_createTodoList
                         | apply same_acks_createTodoItem ]).
Qed.

Lemma same_acks_handleSyncEvent ev : guarantees same_acks (handleSyncEvent ev).
Proof. unfold handleSyncEvent. acks_with ltac:(apply same_acks_dispatch). Qed.

End Acknowledgement.

Section ConsumerProperties.

Context {R : Type} `{HttpClient R}.

Definition event_types : list string :=
  [CREATE_TODO_LIST; UPDATE_TODO_LIST; DELETE_TODO_LIST;
   CREATE_TODO_ITEM; UPDATE_TODO_ITEM; DELETE_TODO_ITEM].

(** The world after some lines were written to the log and nothing else
    happened. *)
Definition logged (w : World R) (entries : list LogEntry) : World R :=
  mkWorld (db w) (faults w) (remote w) (requests w) (log w ++ entries) (acks w).

Definition acked (w : World R) (tag : nat) : World R :=
  mkWorld (db w) (faults w) (remote w) (requests w) (log w) (acks w ++ [tag]).

(** C9. Every delivered message is acknowledged exactly once, after the
    handler has run: [consume] always returns normally, adds the delivery
    tag once to the acknowledgements, leaves the store, the remote system
    and the request trace as the handler left them, and, when the handler
    threw, adds one error line to the log instead of propagating the
    error. *)
Theorem consume_acknowledges_once (ev : SyncEvent) (tag : nat) (w : World R) :
  let handled := handleSyncEvent ev w in
  let consumed := consume ev tag w in
  fst consumed = Return tt
  /\ acks (snd consumed) = acks w ++ [tag]
  /\ acks (snd handled) = acks w
  /\ match fst handled with
     | Return _ => snd consumed = acked (snd handled) tag
     | Throw _ =>
         snd consumed =
         acked (logged (snd handled)
                  [mkLog ERROR ("Error processing sync event "
                                ++ event_type ev ++ ":")])
               tag
     end.
Proof.
  cbv zeta.
  pose proof (same_acks_handleSyncEvent ev w) as Hacks.
  unfold same_acks in Hacks.
  unfold consume, try_catch, bind.
  destruct (handleSyncEvent ev w) as [[[]|e] w1];
    cbn [fst snd acks logger channel_ack bind] in *;
    (split; [reflexivity | split; [now rewrite Hacks | split; [exact Hacks | reflexivity]]]).
Qed.

Lemma dispatch_unknown (ev : SyncEvent) :
  ~ In (event_type ev) event_types ->
  dispatch ev = logger WARN ("Unknown sync event type: " ++ event_type ev).
Proof.
  intros Hn. unfold dispatch.
  repeat match goal with
  | |- context [String.eqb (event_type ev) ?c] =>
      destruct (String.eqb_spec (event_type ev) c) as [E|_];
      [ exfalso; apply Hn; rewrite E; unfold event_types; cbn; tauto | ]
  end.
  reflexivity.
Qed.

(** C10. An event whose type is none of the six kinds makes [handleSyncEvent]
    write the processing line and one warning to the log and return
    normally: the store, the remote system and the request trace are
    untouched and no error is raised, so the consumer acknowledges the
    message as it does a successful one. *)
Theorem unknown_event_is_skipped (ev : SyncEvent) (tag : nat) (w : World R) :
  ~ In (event_type ev) event_types ->
  let entries :=
    [mkLog LOG ("Processing sync event: " ++ event_type ev);
     mkLog WARN ("Unknown sync event type: " ++ event_type ev)] in
  handleSyncEvent ev w = (Return tt, logged w entries)
  /\ consume ev tag w = (Return tt, acked (logged w entries) tag).
Proof.
  intros Hn entries.
  assert (Hh : handleSyncEvent ev w = (Return tt, logged w entries)).
  { unfold handleSyncEvent. rewrite (dispatch_unknown _ Hn).
    unfold bind, try_catch, logger, logged, entries. cbn [fst snd log db faults remote requests acks].
    rewrite <- app_assoc. reflexivity. }
  split; [exact Hh|].
  unfold consume, try_catch, bind at 1. rewrite Hh. reflexivity.
Qed.

End ConsumerProperties.

(** ** Rows and keys of the local store *)

Section Keys.

Variable A : Type.
Variable key : A -> Z.

Definition by_key (k : Z) (l : list A) : option A :=
  find (fun y => (key y =? k)%Z) l.

Lemma by_key_upsert (x : A) (l : list A) (k : Z) :
  by_key k (upsert key x l) =
  if (key x =? k)%Z then Some x else by_key k l.
Proof.
  unfold by_key. induction l as [|y r IH]; cbn.
  - destruct (key x =? k)%Z; reflexivity.
  - destruct (key y =? key x)%Z eqn:E; cbn.
    + apply Z.eqb_eq in E. rewrite E.
      destruct (key x =? k)%Z; reflexivity.
    + rewrite IH. destruct (key y =? k)%Z eqn:E1; [|reflexivity].
      destruct (key x =? k)%Z eqn:E2; [|reflexivity].
      apply Z.eqb_eq in E1, E2. apply Z.eqb_neq in E. congruence.
Qed.

Lemma upsert_same (x : A) (l : list A) :
  by_key (key x) l = Some x -> upsert key x l = l.
Proof.
  unfold by_key. induction l as [|y r IH]; cbn; [discriminate|].
  destruct (key y =? key x)%Z; [congruence|].
  intros Hf. now rewrite IH.
Qed.

Lemma keys_upsert (x : A) (l : list A) :
  In (key x) (map key l) -> map key (upsert key x l) = map key l.
Proof.
  induction l as [|y r IH]; cbn; [tauto|].
  intros Hin. destruct (key y =? key x)%Z eqn:E; cbn.
  - apply Z.eqb_eq in E. now rewrite E.
  - f_equal. apply IH. destruct Hin as [Hin|Hin]; [|exact Hin].
    apply Z.eqb_neq in E. congruence.
Qed.

Lemma by_key_app (k : Z) (l r : list A) :
  by_key k (l ++ r) =
  match by_key k l with
  | Some y => Some y
  | None => by_key k r
  end.
Proof.
  unfold by_key. induction l as [|y l IH]; cbn; [reflexivity|].
  destruct (key y =? k)%Z; [reflexivity | exact IH].
Qed.

Lemma by_key_key (k : Z) (l : list A) (x : A) :
  by_key k l = Some x -> key x = k /\ In x l.
Proof.
  unfold by_key. intros Hf. apply find_some in Hf.
  destruct Hf as [Hin Hk]. apply Z.eqb_eq in Hk. now split.
Qed.

Lemma by_key_in_keys (k : Z) (l : list A) (x : A) :
  by_key k l = Some x -> In k (map key l).
Proof.
  intros Hf. apply by_key_key in Hf. destruct Hf as [<- Hin].
  now apply in_map.
Qed.

Lemma by_key_none (k : Z) (l : list A) :
  by_key k l = None <-> ~ In k (map key l).
Proof.
  unfold by_key. induction l as [|y r IH]; cbn; [tauto|].
  destruct (key y =? k)%Z eqn:E.
  - apply Z.eqb_eq in E. split; [discriminate | intros Hn; exfalso; tauto].
  - apply Z.eqb_neq in E. rewrite IH. tauto.
Qed.

Lemma by_key_unique (l : list A) (x : A) :
  NoDup (map key l) -> In x l -> by_key (key x) l = Some x.
Proof.
  unfold by_key. induction l as [|y r IH]; cbn; [tauto|].
  intros Hnd [->|Hin].
  - now rewrite Z.eqb_refl.
  - inversion Hnd as [|? ? Hny Hnr]; subst.
    destruct (key y =? key x)%Z eqn:E.
    + apply Z.eqb_eq in E. exfalso. apply Hny. rewrite E. now apply in_map.
    + now apply IH.
Qed.

End Keys.

Lemma lookup_list_by_key id s : lookup_list id s = by_key list_id id (lists s).
Proof. reflexivity. Qed.

Lemma lookup_todo_by_key id s : lookup_todo id s = by_key todo_id id (todos s).
Proof. reflexivity. Qed.

(** Primary keys: the ids of a table are pairwise distinct and were drawn
    from its sequence. *)
Definition wf_store (s : Store) : Prop :=
  NoDup (map list_id (lists s))
  /\ NoDup (map todo_id (todos s))
  /\ (forall l, In l (lists s) -> (list_id l < next_list_id s)%Z)
  /\ (forall t, In t (todos s) -> (todo_id t < next_todo_id s)%Z).

Definition is_set (e : option string) : Prop := e <> None.

(** ** Triples over the local store *)

Section Triples.

Context {R : Type} `{HttpClient R}.

(** [striple S c Q E]: from a world whose store satisfies [S], the run of
    [c] leaves a store that satisfies [Q a] when it returns [a] and [E] when
    it throws. *)
Definition striple {A} (S : Store -> Prop) (c : M A)
  (Q : A -> Store -> Prop) (E : Store -> Prop) : Prop :=
  forall w : World R, S (db w) ->
    match c w with
    | (Return a, w') => Q a (db w')
    | (Throw _, w') => E (db w')
    end.

Lemma striple_conseq A (S S' : Store -> Prop) (c : M A)
  (Q Q' : A -> Store -> Prop) (E E' : Store -> Prop) :
  striple S' c Q' E' ->
  (forall s, S s -> S' s) ->
  (forall a s, Q' a s -> Q a s) ->
  (forall s, E' s -> E s) ->
  striple S c Q E.
Proof.
  intros Hc HS HQ HE w Hw. specialize (Hc w (HS _ Hw)).
  destruct (c w) as [[a|e] w']; auto.
Qed.

Lemma striple_ret A (a : A) (S : Store -> Prop) Q E :
  (forall s, S s -> Q a s) -> striple S (ret a) Q E.
Proof. intros HQ w Hw. cbn. auto. Qed.

Lemma striple_throw A (e : Error) (S : Store -> Prop) (Q : A -> Store -> Prop) E :
  (forall s, S s -> E s) -> striple S (throw e) Q E.
Proof. intros HE w Hw. cbn. auto. Qed.

Lemma striple_bind A B (c : M A) (k : A -> M B) S Q Q' E :
  striple S c Q E -> (forall a, striple (Q a) (k a) Q' E) ->
  striple S (bind c k) Q' E.
Proof.
  intros Hc Hk w Hw. unfold bind. specialize (Hc w Hw).
  destruct (c w) as [[a|e] w1]; [|exact Hc].
  apply (Hk a w1 Hc).
Qed.

Lemma striple_try_catch A (c : M A) (h : Error -> M A) S Q E1 E :
  striple S c Q E1 -> (forall e, striple E1 (h e) Q E) ->
  striple S (try_catch c h) Q E.
Proof.
  intros Hc Hh w Hw. unfold try_catch. specialize (Hc w Hw).
  destruct (c w) as [[a|e] w1]; [exact Hc|].
  apply (Hh e w1 Hc).
Qed.

Lemma striple_for_each A (l : list A) (f : A -> M unit) (I : Store -> Prop) E :
  (forall x, In x l -> striple I (f x) (fun _ => I) E) ->
  striple I (for_each l f) (fun _ => I) E.
Proof.
  induction l as [|x r IH]; intros Hf; cbn [for_each].
  - apply striple_ret. auto.
  - eapply striple_bind.
    + apply Hf. now left.
    + intros []. apply IH. intros y Hy. apply Hf. now right.
Qed.

Lemma striple_logger lv m (S : Store -> Prop) E :
  striple S (logger lv m) (fun _ => S) E.
Proof. intros w Hw. exact Hw. Qed.

Lemma striple_http m u b (S : Store -> Prop) :
  striple S (http m u b) (fun _ => S) S.
Proof.
  intros w Hw. unfold http.
  destruct (send _ _) as [[|st d] r']; cbn; [exact Hw|].
  destruct (_ && _); exact Hw.
Qed.

Lemma striple_query A (f : Store -> A) (S : Store -> Prop) E :
  striple S (query f) (fun a s => S s /\ a = f s) E.
Proof. intros w Hw. cbn. auto. Qed.

Lemma striple_persist A (f : Store -> A * Store) (S : Store -> Prop) :
  striple S (persist f)
    (fun a s' => exists s, S s /\ a = fst (f s) /\ s' = snd (f s)) S.
Proof.
  intros w Hw. unfold persist.
  destruct (faults w) as [[|n]|]; cbn; [exact Hw| |];
    destruct (f (db w)) as [a s'] eqn:E; cbn;
    exists (db w); rewrite E; auto.
Qed.

End Triples.

(** ** What an outbound handler may do to the store *)

(** A list row keeps its id and name; its [external_id] is kept, or the
    list had none (null or empty) and receives one. *)
Definition list_step (l l' : TodoList) : Prop :=
  list_id l' = list_id l
  /\ list_name l' = list_name l
  /\ (list_external_id l' = list_external_id l
      \/ (truthy (list_external_id l) = false /\ is_set (list_external_id l'))).

(** A todo row keeps everything but its [external_id], which is kept, or
    set to an identifier while its list, until then without one, has
    received one. *)
Definition todo_step (s s' : Store) (t t' : Todo) : Prop :=
  todo_id t' = todo_id t
  /\ title t' = title t
  /\ completed t' = completed t
  /\ todoListId t' = todoListId t
  /\ (todo_external_id t' = todo_external_id t
      \/ (is_set (todo_external_id t')
          /\ exists l l',
               todoList_of t s = Some l
               /\ truthy (list_external_id l) = false
               /\ todoList_of t s' = Some l'
               /\ is_set (list_external_id l'))).

Definition outbound (s s' : Store) : Prop :=
  map list_id (lists s') = map list_id (lists s)
  /\ map todo_id (todos s') = map todo_id (todos s)
  /\ next_list_id s' = next_list_id s
  /\ next_todo_id s' = next_todo_id s
  /\ (forall k l, lookup_list k s = Some l ->
        exists l', lookup_list k s' = Some l' /\ list_step l l')
  /\ (forall j t, lookup_todo j s = Some t ->
        exists t', lookup_todo j s' = Some t' /\ todo_step s s' t t').

Lemma list_step_refl l : list_step l l.
Proof. unfold list_step. auto. Qed.

Lemma list_step_trans a b c : list_step a b -> list_step b c -> list_step a c.
Proof.
  unfold list_step, is_set.
  intros (I1 & N1 & E1) (I2 & N2 & E2).
  repeat split; try congruence.
  destruct E1 as [E1|[F1 S1]], E2 as [E2|[F2 S2]].
  - left. congruence.
  - right. split; [congruence | assumption].
  - right. split; [assumption | congruence].
  - right. split; assumption.
Qed.

Lemma list_step_set a b :
  list_step a b -> is_set (list_external_id a) -> is_set (list_external_id b).
Proof.
  unfold list_step, is_set. intros (_ & _ & [E|[_ S]]) Ha; congruence.
Qed.

Lemma list_step_falsy a b :
  list_step a b -> truthy (list_external_id b) = false ->
  truthy (list_external_id a) = false.
Proof.
  unfold list_step. intros (_ & _ & [E|[F _]]) Hb; congruence.
Qed.

Lemma outbound_refl s : outbound s s.
Proof.
  unfold outbound. repeat split; try reflexivity.
  - intros k l Hl. exists l. split; [exact Hl | apply list_step_refl].
  - intros j t Ht. exists t. split; [exact Ht|].
    unfold todo_step. auto 6.
Qed.

Lemma outbound_lookup_list_back s s' k l' :
  outbound s s' -> lookup_list k s' = Some l' ->
  exists l, lookup_list k s = Some l /\ list_step l l'.
Proof.
  intros (Hk & _ & _ & _ & Hl & _) Hf.
  destruct (lookup_list k s) as [l|] eqn:E.
  - destruct (Hl _ _ E) as (l2 & Hl2 & Hs). exists l. split; [reflexivity|].
    congruence.
  - exfalso. rewrite lookup_list_by_key in E, Hf.
    apply by_key_none in E. apply by_key_in_keys in Hf. rewrite Hk in Hf. tauto.
Qed.

Lemma outbound_trans a b c : outbound a b -> outbound b c -> outbound a c.
Proof.
  intros Hab Hbc.
  pose proof Hab as (K1 & J1 & NL1 & NT1 & L1 & T1).
  pose proof Hbc as (K2 & J2 & NL2 & NT2 & L2 & T2).
  unfold outbound. repeat split; try congruence.
  - intros k l Hl. destruct (L1 _ _ Hl) as (l1 & Hl1 & S1).
    destruct (L2 _ _ Hl1) as (l2 & Hl2 & S2).
    exists l2. split; [exact Hl2 | eapply list_step_trans; eauto].
  - intros j t Ht. destruct (T1 _ _ Ht) as (t1 & Ht1 & S1).
    destruct (T2 _ _ Ht1) as (t2 & Ht2 & S2).
    exists t2. split; [exact Ht2|].
    destruct S1 as (A1 & B1 & C1 & D1 & X1).
    destruct S2 as (A2 & B2 & C2 & D2 & X2).
    unfold todo_step. repeat split; try congruence.
    destruct X1 as [X1|(Y1 & la & lb & Hla & Fla & Hlb & Slb)].
    + destruct X2 as [X2|(Y2 & lb & lc & Hlb & Flb & Hlc & Slc)].
      * left. congruence.
      * right. split; [exact Y2|].
        unfold todoList_of in *. rewrite D1 in Hlb, Hlc.
        destruct (todoListId t) as [kt|]; [|discriminate].
        destruct (outbound_lookup_list_back _ Hab Hlb) as (la & Hla & Sab).
        exists la, lc. repeat split; auto.
        eapply list_step_falsy; eauto.
    + unfold todoList_of in *.
      destruct (todoListId t) as [kt|]; [|discriminate].
      destruct (L2 _ _ Hlb) as (lc & Hlc & Sbc).
      right. split.
      * destruct X2 as [X2|[Y2 _]]; [unfold is_set in *; congruence | exact Y2].
      * exists la, lc. repeat split; auto.
        eapply list_step_set; eauto.
Qed.

Lemma todo_step_same_lists s s1 s2 t t' :
  lists s2 = lists s1 -> todo_step s s1 t t' -> todo_step s s2 t t'.
Proof.
  intros Hl (A1 & B1 & C1 & D1 & X).
  unfold todo_step. repeat split; auto.
  destruct X as [X|(Y & l & l' & H1 & H2 & H3 & H4)]; [now left|].
  right. split; [exact Y|]. exists l, l'. repeat split; auto.
  unfold todoList_of, lookup_list in *. now rewrite Hl.
Qed.

Lemma belongs_to_spec k t : belongs_to k t = true <-> todoListId t = Some k.
Proof.
  unfold belongs_to. destruct (todoListId t) as [j|].
  - rewrite Z.eqb_eq. split; congruence.
  - split; discriminate.
Qed.


Lemma todoList_of_some t s l :
  todoList_of t s = Some l ->
  exists k, todoListId t = Some k /\ lookup_list k s = Some l.
Proof.
  unfold todoList_of. destruct (todoListId t) as [k|]; [|discriminate].
  intros Hl. now exists k.
Qed.

Lemma todoList_of_row t s l :
  todoList_of t s = Some l ->
  todoListId t = Some (list_id l)
  /\ lookup_list (list_id l) s = Some l
  /\ belongs_to (list_id l) t = true.
Proof.
  intros Hl. destruct (@todoList_of_some _ _ _ Hl) as (k & Hk & Hlk).
  pose proof (by_key_key _ _ _ Hlk) as [Hid _]. subst k.
  split; [exact Hk|]. split; [exact Hlk|]. now apply belongs_to_spec.
Qed.

Lemma todos_of_in k s t :
  In t (todos_of k s) -> In t (todos s) /\ todoListId t = Some k.
Proof.
  unfold todos_of. intros Hin. apply filter_In in Hin.
  destruct Hin as [Hin Hk]. apply belongs_to_spec in Hk. now split.
Qed.

Lemma todos_of_intro k s t :
  In t (todos s) -> todoListId t = Some k -> In t (todos_of k s).
Proof.
  intros Hin Hk. unfold todos_of. apply filter_In. split; [exact Hin|].
  now apply belongs_to_spec.
Qed.

(** *** Saving a list with its relation *)

Lemma in_relation_spec loaded t :
  in_relation loaded t = true <-> In (todo_id t) (map todo_id loaded).
Proof.
  unfold in_relation. rewrite existsb_exists, in_map_iff. split.
  - intros (u & Hin & E). apply Z.eqb_eq in E. now exists u.
  - intros (u & E & Hin). exists u. split; [exact Hin | now apply Z.eqb_eq].
Qed.

Lemma detach_id l loaded t : todo_id (detach l loaded t) = todo_id t.
Proof. unfold detach. now destruct (orphaned_by l loaded t). Qed.

Lemma detach_external_id l loaded t :
  todo_external_id (detach l loaded t) = todo_external_id t.
Proof. unfold detach. now destruct (orphaned_by l loaded t). Qed.

Lemma detach_kept l loaded t :
  (todoListId t = Some (list_id l) -> In (todo_id t) (map todo_id loaded)) ->
  detach l loaded t = t.
Proof.
  intros Hin. unfold detach, orphaned_by.
  destruct (belongs_to (list_id l) t) eqn:Hb; [|reflexivity].
  apply belongs_to_spec in Hb. apply Hin, in_relation_spec in Hb.
  now rewrite Hb.
Qed.

Lemma detach_cases l loaded t :
  detach l loaded t = t
  \/ (todoListId t = Some (list_id l)
      /\ ~ In (todo_id t) (map todo_id loaded)
      /\ detach l loaded t = set_todoListId t None).
Proof.
  unfold detach, orphaned_by.
  destruct (belongs_to (list_id l) t) eqn:Hb; [|now left].
  destruct (in_relation loaded t) eqn:Hr; [now left|].
  right. apply belongs_to_spec in Hb. split; [exact Hb|]. split; [|reflexivity].
  intros Hin. apply in_relation_spec in Hin. congruence.
Qed.

Lemma map_detach_ids l loaded ts :
  map todo_id (map (detach l loaded) ts) = map todo_id ts.
Proof.
  rewrite map_map. apply map_ext. intros t. apply detach_id.
Qed.

Lemma by_key_map_detach l loaded j ts :
  by_key todo_id j (map (detach l loaded) ts)
  = option_map (detach l loaded) (by_key todo_id j ts).
Proof.
  unfold by_key. induction ts as [|t r IH]; cbn; [reflexivity|].
  rewrite detach_id. destruct (todo_id t =? j)%Z; [reflexivity | exact IH].
Qed.

Lemma lookup_todo_save_list_with l loaded j s :
  lookup_todo j (store_save_list_with l loaded s)
  = option_map (detach l loaded) (lookup_todo j s).
Proof. apply by_key_map_detach. Qed.

Lemma lookup_list_save_list_with l loaded k s :
  lookup_list k (store_save_list_with l loaded s)
  = if (list_id l =? k)%Z then Some l else lookup_list k s.
Proof.
  unfold store_save_list_with. rewrite !lookup_list_by_key. cbn [lists].
  apply by_key_upsert.
Qed.

(** When the relation the entity carries is the current one, no row is
    taken out of the list: the save replaces the list row and nothing
    else. *)
Lemma map_detach_kept l loaded ts :
  (forall t, In t ts -> todoListId t = Some (list_id l) ->
             In (todo_id t) (map todo_id loaded)) ->
  map (detach l loaded) ts = ts.
Proof.
  intros Hin. induction ts as [|t r IH]; cbn; [reflexivity|].
  rewrite detach_kept by (apply Hin; now left).
  f_equal. apply IH. intros u Hu. apply Hin. now right.
Qed.

(** Saved as it was read, with the relation it was read with, the list
    leaves the store as it is. *)
Lemma save_unchanged l s :
  lookup_list (list_id l) s = Some l ->
  store_save_list_with l (todos_of (list_id l) s) s = s.
Proof.
  intros Hl. unfold store_save_list_with.
  rewrite (@upsert_same _ list_id l (lists s) Hl).
  rewrite map_detach_kept.
  - now destruct s.
  - intros t Hin Hk. apply in_map. now apply todos_of_intro.
Qed.

Lemma save_loaded_relation l l' s :
  list_id l' = list_id l ->
  store_save_list_with l' (todos_of (list_id l) s) s = store_save_list l' s.
Proof.
  intros Hid. unfold store_save_list_with, store_save_list. f_equal.
  apply map_detach_kept. intros t Hin Hk. rewrite Hid in Hk.
  apply in_map. now apply todos_of_intro.
Qed.

(** Saving the list with the identifier of the creation response. *)
Lemma outbound_save_list s id l e :
  lookup_list id s = Some l ->
  truthy (list_external_id l) = false ->
  let s' := store_save_list (set_list_external_id l (Some e)) s in
  outbound s s'
  /\ lookup_list id s' = Some (set_list_external_id l (Some e)).
Proof.
  intros Hl Hf s'.
  pose proof (by_key_key _ _ _ Hl) as [Hid Hin].
  assert (Hlk : forall k, lookup_list k s' =
                          if (list_id l =? k)%Z
                          then Some (set_list_external_id l (Some e))
                          else lookup_list k s).
  { intros k. unfold s', store_save_list, lookup_list. cbn [lists].
    change (find (fun l0 => (list_id l0 =? k)%Z)) with (by_key list_id k).
    rewrite by_key_upsert. reflexivity. }
  split.
  - unfold outbound. repeat split; try reflexivity.
    + unfold s', store_save_list. cbn [lists].
      apply keys_upsert. cbn. now apply in_map.
    + intros k l0 Hl0. rewrite Hlk.
      destruct (list_id l =? k)%Z eqn:E.
      * apply Z.eqb_eq in E. subst k. rewrite Hid in Hl0.
        assert (l0 = l) by congruence. subst l0.
        eexists. split; [reflexivity|].
        unfold list_step, is_set. cbn. repeat split; auto.
        right. split; [exact Hf | discriminate].
      * exists l0. split; [exact Hl0 | apply list_step_refl].
    + intros j t Ht. exists t. split; [exact Ht|].
      unfold todo_step. auto 6.
  - rewrite Hlk, Hid, Z.eqb_refl. reflexivity.
Qed.

(** Saving an echoed todo of that list with the identifier of the
    response. *)
Lemma outbound_save_todo s0 s l localTodo e :
  NoDup (map todo_id (todos s0)) ->
  lookup_list (list_id l) s0 = Some l ->
  truthy (list_external_id l) = false ->
  In localTodo (todos_of (list_id l) s0) ->
  outbound s0 s ->
  (exists l', lookup_list (list_id l) s = Some l'
              /\ is_set (list_external_id l')) ->
  let s' := store_save_todo (set_todo_external_id localTodo (Some e)) s in
  outbound s0 s'
  /\ (exists l', lookup_list (list_id l) s' = Some l'
                 /\ is_set (list_external_id l')).
Proof.
  intros Hnd Hl Hf Hin Hout (l' & Hl' & Hset) s'.
  apply todos_of_in in Hin. destruct Hin as [Hin Hfk].
  pose proof Hout as (K & J & NL & NT & L & T).
  split; [|exists l'; split; [exact Hl' | exact Hset]].
  unfold outbound. repeat split; auto.
  - unfold s', store_save_todo. cbn [todos]. rewrite <- J.
    apply keys_upsert. cbn. rewrite J. now apply in_map.
  - intros j t Ht. destruct (T _ _ Ht) as (t1 & Ht1 & St1).
    unfold s', store_save_todo. rewrite lookup_todo_by_key. cbn [todos].
    rewrite by_key_upsert. cbn [todo_id set_todo_external_id].
    destruct (todo_id localTodo =? j)%Z eqn:E.
    + apply Z.eqb_eq in E. subst j.
      pose proof (by_key_unique todo_id _ _ Hnd Hin) as Hu.
      rewrite <- lookup_todo_by_key in Hu.
      assert (t = localTodo) by congruence. subst t.
      eexists. split; [reflexivity|].
      unfold todo_step, is_set. cbn. repeat split; auto.
      right. split; [discriminate|].
      exists l, l'. unfold todoList_of. rewrite Hfk. repeat split; auto.
    + exists t1. split; [exact Ht1|].
      eapply todo_step_same_lists; [|exact St1]. reflexivity.
Qed.

Section OutboundGuarantee.

Context {R : Type} `{HttpClient R}.

Lemma striple_extract A (S : Store -> Prop) (P : Prop) (c : @M R A) Q E :
  (P -> striple S c Q E) -> striple (fun s => S s /\ P) c Q E.
Proof. intros Hc w [Hw HP]. now apply Hc. Qed.

(** A computation that cannot write to the store. *)
Definition same_db (w w' : World R) : Prop := db w' = db w.

Definition reads_only {A} (c : @M R A) : Prop := guarantees same_db c.

Lemma same_db_refl w : same_db w w.
Proof. reflexivity. Qed.

Lemma same_db_trans a b c : same_db a b -> same_db b c -> same_db a c.
Proof. unfold same_db. congruence. Qed.

Lemma striple_reads_only A (c : @M R A) (S : Store -> Prop) :
  reads_only c -> striple S c (fun _ => S) S.
Proof.
  intros Hc w Hw. specialize (Hc w). unfold same_db in Hc.
  destruct (c w) as [[a|e] w']; cbn in Hc; now rewrite Hc.
Qed.

(** Fixing the store a computation starts from. *)
Lemma st_pre A (S : Store -> Prop) (c : @M R A) Q E :
  (forall s0, S s0 -> striple (eq s0) c Q E) -> striple S c Q E.
Proof. intros Hc w Hw. now apply (Hc (db w)). Qed.

Lemma st_logger lv m (S : Store -> Prop) (Q : unit -> Store -> Prop) E :
  (forall s, S s -> Q tt s) -> striple (R := R) S (logger lv m) Q E.
Proof. intros HQ w Hw. now apply HQ. Qed.

Lemma st_reads A (c : @M R A) (S : Store -> Prop) (Q : A -> Store -> Prop) E :
  reads_only c ->
  (forall a s, S s -> Q a s) -> (forall s, S s -> E s) ->
  striple S c Q E.
Proof.
  intros Hc HQ HE.
  eapply striple_conseq; [apply (striple_reads_only S Hc) | auto | auto | auto].
Qed.

Lemma reads_only_http m u b : reads_only (http m u b).
Proof.
  intros w. unfold http, same_db.
  destruct (send _ _) as [[|st d] r']; cbn; [reflexivity|].
  destruct (_ && _); reflexivity.
Qed.

Lemma reads_only_logger lv m : reads_only (logger lv m).
Proof. intros w. reflexivity. Qed.

Lemma st_query A (f : Store -> A) (S : Store -> Prop) (Q : A -> Store -> Prop) E :
  (forall s, S s -> Q (f s) s) -> striple (R := R) S (query f) Q E.
Proof. intros HQ w Hw. cbn. auto. Qed.

Lemma st_persist A (f : Store -> A * Store) (S : Store -> Prop)
  (Q : A -> Store -> Prop) (E : Store -> Prop) :
  (forall s, S s -> E s) ->
  (forall s, S s -> Q (fst (f s)) (snd (f s))) ->
  striple (R := R) S (persist f) Q E.
Proof.
  intros HE HQ.
  eapply striple_conseq; [apply (striple_persist f S) | auto | | auto].
  intros a s' (s & Hs & -> & ->). auto.
Qed.

Lemma createTodoList_outbound (s0 : Store) (id : Z) :
  NoDup (map todo_id (todos s0)) ->
  striple (R := R) (eq s0) (createTodoList id)
    (fun _ => outbound s0) (outbound s0).
Proof.
  intros Hnd. unfold createTodoList, findOneListWithTodos.
  eapply striple_bind.
  { apply st_query with
      (Q := fun r s => s0 = s
                       /\ r = option_map (fun l => (l, todos_of (list_id l) s0))
                                (lookup_list id s0)).
    intros s <-. auto. }
  intros r. apply st_pre. intros s [<- ->].
  destruct (lookup_list id s0) as [l|] eqn:Hl; cbn [option_map].
  2:{ apply striple_throw. intros s <-. apply outbound_refl. }
  pose proof (by_key_key _ _ _ Hl) as [Hid _].
  rewrite <- Hid in Hl.
  destruct (truthy (list_external_id l)) eqn:Hf.
  { apply st_logger. intros s <-. apply outbound_refl. }
  set (I := fun s => outbound s0 s
              /\ exists l', lookup_list (list_id l) s = Some l'
                            /\ is_set (list_external_id l')).
  eapply striple_try_catch with (E1 := outbound s0).
  - eapply striple_bind with (Q := fun _ => eq s0).
    { apply st_reads; [apply reads_only_http | auto |].
      intros s <-. apply outbound_refl. }
    intros data.
    assert (Hother : striple (R := R) (eq s0)
              (saveList l (todos_of (list_id l) s0) ;;;
               logger LOG ("Successfully synced TodoList " ++ toString id
                           ++ " with external_id undefined"))
              (fun _ => outbound s0) (outbound s0)).
    { eapply striple_bind with (Q := fun _ => eq s0).
      - apply st_persist.
        + intros s <-. apply outbound_refl.
        + intros s <-. cbn [snd]. now rewrite save_unchanged.
      - intros _. apply st_logger. intros s <-. apply outbound_refl. }
    destruct data as [|externalTodoList|ls]; [exact Hother| |exact Hother].
    eapply striple_bind with (Q := fun _ => I).
    { apply st_persist.
      - intros s <-. apply outbound_refl.
      - intros s <-. cbn [snd].
        rewrite save_loaded_relation by reflexivity.
        destruct (@outbound_save_list s0 (list_id l) l (ext_id externalTodoList) Hl Hf)
          as [Ho Hk].
        split; [exact Ho|]. eexists. split; [exact Hk|]. discriminate. }
    intros _.
    eapply striple_bind with (Q := fun _ => I).
    { apply striple_for_each. intros externalItem _.
      destruct (find _ _) as [localTodo|] eqn:Hfind.
      - apply find_some in Hfind. destruct Hfind as [Hin _].
        apply st_persist.
        + intros s [Ho _]. exact Ho.
        + intros s [Ho Hs]. cbn [snd].
          apply (@outbound_save_todo s0 s l localTodo (item_id externalItem) Hnd Hl Hf Hin Ho Hs).
      - apply striple_ret. auto. }
    intros _. apply st_logger. intros s [Ho _]. exact Ho.
  - intros e. eapply striple_bind with (Q := fun _ => outbound s0).
    + apply st_logger. auto.
    + intros _. apply striple_throw. auto.
Qed.

Ltac ro_tac :=
  unfold reads_only;
  repeat first
    [ apply reads_only_logger
    | apply reads_only_http
    | frame_step same_db_refl same_db_trans ].

Ltac st_ro :=
  apply st_reads;
  [ ro_tac
  | intros; subst; first [ assumption | reflexivity | apply outbound_refl ]
  | intros; subst; first [ assumption | reflexivity | apply outbound_refl ] ].

Lemma createTodoItem_outbound (s0 : Store) (id : Z) :
  NoDup (map todo_id (todos s0)) ->
  striple (R := R) (eq s0) (createTodoItem id)
    (fun _ => outbound s0) (outbound s0).
Proof.
  intros Hnd. unfold createTodoItem, findOneTodoWithList, findOneTodo.
  eapply striple_bind with (Q := fun _ => eq s0); [st_ro|].
  intros [[todo [todoList|]]|]; try solve [st_ro].
  destruct (truthy (todo_external_id todo)); [solve [st_ro]|].
  cbv zeta.
  destruct (negb (truthy (list_external_id todoList))); [|solve [st_ro]].
  eapply striple_bind with (Q := fun _ => eq s0); [st_ro|]. intros _.
  eapply striple_bind with (Q := fun _ => outbound s0);
    [apply createTodoList_outbound; exact Hnd|]. intros _.
  st_ro.
Qed.

Lemma dispatch_outbound (s0 : Store) (ev : SyncEvent) :
  NoDup (map todo_id (todos s0)) ->
  striple (R := R) (eq s0) (dispatch ev)
    (fun _ => outbound s0) (outbound s0).
Proof.
  intros Hnd. unfold dispatch.
  repeat match goal with
  | |- striple _ (if ?b then _ else _) _ _ => destruct b
  end.
  - apply createTodoList_outbound; exact Hnd.
  - unfold updateTodoList, findOneList.
    eapply striple_bind with (Q := fun _ => eq s0); [st_ro|].
    intros [todoList|]; [|solve [st_ro]].
    destruct (negb (truthy (list_external_id todoList))); [|solve [st_ro]].
    eapply striple_bind with (Q := fun _ => eq s0); [st_ro|]. intros _.
    apply createTodoList_outbound; exact Hnd.
  - unfold deleteTodoList, findOneList. st_ro.
  - apply createTodoItem_outbound; exact Hnd.
  - unfold updateTodoItem, findOneTodoWithList.
    eapply striple_bind with (Q := fun _ => eq s0); [st_ro|].
    intros [[todo [todoList|]]|]; try solve [st_ro].
    destruct (negb (truthy (todo_external_id todo))).
    { eapply striple_bind with (Q := fun _ => eq s0); [st_ro|]. intros _.
      apply createTodoItem_outbound; exact Hnd. }
    destruct (negb (truthy (list_external_id todoList))); [|solve [st_ro]].
    eapply striple_bind with (Q := fun _ => outbound s0).
    { eapply striple_bind with (Q := fun _ => eq s0); [st_ro|]. intros _.
      eapply striple_bind with (Q := fun _ => outbound s0);
        [apply createTodoList_outbound; exact Hnd|]. intros _.
      st_ro. }
    intros ids. st_ro.
  - unfold deleteTodoItem, findOneTodoWithList. st_ro.
  - st_ro.
Qed.

Lemma handleSyncEvent_outbound (s0 : Store) (ev : SyncEvent) :
  NoDup (map todo_id (todos s0)) ->
  striple (R := R) (eq s0) (handleSyncEvent ev)
    (fun _ => outbound s0) (outbound s0).
Proof.
  intros Hnd. unfold handleSyncEvent.
  eapply striple_bind with (Q := fun _ => eq s0); [st_ro|]. intros _.
  eapply striple_try_catch with (E1 := outbound s0);
    [apply dispatch_outbound; exact Hnd|].
  intros e. st_ro.
Qed.

(** Whatever its outcome, the handling of an event relates the store before
    and after by [outbound]. *)
Lemma handleSyncEvent_step (ev : SyncEvent) (w : World R) :
  NoDup (map todo_id (todos (db w))) ->
  outbound (db w) (db (snd (handleSyncEvent ev w))).
Proof.
  intros Hnd.
  pose proof (handleSyncEvent_outbound ev Hnd w eq_refl) as Hs.
  destruct (handleSyncEvent ev w) as [[a|e] w']; exact Hs.
Qed.

End OutboundGuarantee.

(** ** Requests issued by the outbound synchroniser *)

(** The creation of a list bundled with its items. *)
Definition bundled_creation (req : Request) : Prop :=
  method req = POST
  /\ url req = ["todolists"]
  /\ exists src name its, body req = CreateListBody src name its.

(** A request that creates nothing, or creates a list with its items. *)
Definition no_item_creation (req : Request) : Prop :=
  method req = POST -> bundled_creation req.

Section Deliveries.

Context {R : Type} `{HttpClient R}.

(** A schedule of the consumer: the messages handled one after the other,
    each to completion before the next is taken.  The transport is not part
    of the sources and may let the handlers of several messages overlap at
    their awaits; [deliver] is the sequential schedule only, used to state
    what holds after any number of handlings. *)
Definition deliver (msgs : list (SyncEvent * nat)) : @M R unit :=
  for_each msgs (fun m => consume (fst m) (snd m)).

Definition issues_only (ok : Request -> Prop) (w w' : World R) : Prop :=
  exists new, requests w' = requests w ++ new /\ Forall ok new.

Lemma issues_only_refl ok w : issues_only ok w w.
Proof. exists []. split; [now rewrite app_nil_r | constructor]. Qed.

Lemma issues_only_trans ok a b c :
  issues_only ok a b -> issues_only ok b c -> issues_only ok a c.
Proof.
  intros (n1 & E1 & F1) (n2 & E2 & F2). exists (n1 ++ n2). split.
  - rewrite E2, E1. now rewrite app_assoc.
  - apply Forall_app. now split.
Qed.

Lemma issues_only_logger ok lv s : guarantees (issues_only ok) (logger lv s).
Proof.
  intros w. exists []. cbn. split; [now rewrite app_nil_r | constructor].
Qed.

Lemma issues_only_ack ok tag : guarantees (issues_only ok) (channel_ack tag).
Proof.
  intros w. exists []. cbn. split; [now rewrite app_nil_r | constructor].
Qed.

Lemma issues_only_persist ok A (f : Store -> A * Store) :
  guarantees (issues_only ok) (persist f).
Proof.
  intros w. unfold persist.
  destruct (faults w) as [[|n]|]; cbn; try apply issues_only_refl;
    destruct (f (db w)); exists []; cbn; (split; [now rewrite app_nil_r | constructor]).
Qed.

Lemma issues_only_http (ok : Request -> Prop) m u b :
  ok (mkRequest m u b) -> guarantees (issues_only ok) (http m u b).
Proof.
  intros Hok w. unfold http.
  destruct (send _ _) as [[|st d] r']; cbn.
  - exists [mkRequest m u b]. cbn. split; [reflexivity | now constructor].
  - destruct (_ && _); exists [mkRequest m u b]; cbn;
      (split; [reflexivity | now constructor]).
Qed.

Ltac req_with known :=
  repeat first
    [ known
    | apply issues_only_logger
    | apply issues_only_ack
    | apply issues_only_persist
    | apply issues_only_http;
      [ unfold no_item_creation, bundled_creation; cbn;
        first [ discriminate | intros _; repeat split; eauto ] ]
    | frame_step (issues_only_refl no_item_creation)
                 (@issues_only_trans no_item_creation) ].

Lemma createTodoList_requests id :
  guarantees (issues_only no_item_creation) (createTodoList id).
Proof.
  unfold createTodoList, findOneListWithTodos, saveList, saveTodo.
  req_with fail.
Qed.

Lemma createTodoItem_requests id :
  guarantees (issues_only no_item_creation) (createTodoItem id).
Proof.
  unfold createTodoItem, findOneTodoWithList, findOneTodo.
  req_with ltac:(apply createTodoList_requests).
Qed.

Lemma consume_requests ev tag :
  guarantees (issues_only no_item_creation) (consume ev tag).
Proof.
  unfold consume, handleSyncEvent, dispatch, updateTodoList, deleteTodoList,
    updateTodoItem, deleteTodoItem, findOneList, findOneTodoWithList.
  req_with ltac:(first [ apply createTodoList_requests
                       | apply createTodoItem_requests ]).
Qed.

Lemma deliver_requests msgs :
  guarantees (issues_only no_item_creation) (deliver msgs).
Proof.
  unfold deliver. req_with ltac:(apply consume_requests).
Qed.

(** The store relation of the outbound handlers, made a guarantee of any
    delivery from a store with unique todo ids. *)
Definition outbound_from (w w' : World R) : Prop :=
  NoDup (map todo_id (todos (db w))) -> outbound (db w) (db w').

Lemma outbound_from_refl w : outbound_from w w.
Proof. intros _. apply outbound_refl. Qed.

Lemma outbound_from_trans a b c :
  outbound_from a b -> outbound_from b c -> outbound_from a c.
Proof.
  intros Hab Hbc Hnd. specialize (Hab Hnd).
  eapply outbound_trans; [exact Hab|]. apply Hbc.
  destruct Hab as (_ & J & _). now rewrite J.
Qed.

Lemma outbound_from_same_db A (c : @M R A) :
  reads_only c -> guarantees outbound_from c.
Proof.
  intros Hc w _. rewrite (Hc w). apply outbound_refl.
Qed.

Lemma consume_outbound ev tag : guarantees outbound_from (consume ev tag).
Proof.
  unfold consume.
  apply (guarantees_try_catch outbound_from_trans).
  - apply (guarantees_bind outbound_from_trans).
    + intros w Hnd. now apply handleSyncEvent_step.
    + intros _. apply outbound_from_same_db. intros w. reflexivity.
  - intros e. apply outbound_from_same_db.
    unfold reads_only.
    apply (guarantees_bind same_db_trans); [apply reads_only_logger|].
    intros _ w. reflexivity.
Qed.

Lemma deliver_outbound msgs : guarantees outbound_from (deliver msgs).
Proof.
  unfold deliver.
  apply (guarantees_for_each outbound_from_refl outbound_from_trans).
  intros m _. apply consume_outbound.
Qed.

End Deliveries.

Section ItemCreation.

Context {R : Type} `{HttpClient R}.

Lemma todo_eta (t t' : Todo) :
  todo_id t' = todo_id t -> todo_external_id t' = todo_external_id t ->
  title t' = title t -> completed t' = completed t ->
  todoListId t' = todoListId t -> t' = t.
Proof. destruct t, t'; cbn; intros; subst; reflexivity. Qed.

Lemma createTodoItem_synced_list (id : Z) (w : World R) todo l :
  lookup_todo id (db w) = Some todo ->
  todoList_of todo (db w) = Some l ->
  truthy (list_external_id l) = true ->
  truthy (todo_external_id todo) = false ->
  createTodoItem id w =
  (Return tt, logged w [mkLog WARN (cannot_sync_individually id)]).
Proof.
  intros Ht Hl Hlt Htf.
  unfold createTodoItem, bind, findOneTodoWithList, query.
  rewrite Ht. cbn [option_map]. rewrite Hl, Htf, Hlt. reflexivity.
Qed.

(** C7. The outbound synchroniser never issues an isolated item creation:
    whatever messages are delivered, every POST it sends is the creation of
    a list bundled with its items.  In particular the ItemCreated event of
    an item without external id whose list is synced sends no request,
    raises no error and changes nothing but the log, to which it adds one
    warning; and no later delivery gives that item an external id. *)
Theorem no_isolated_item_creation (msgs : list (SyncEvent * nat)) (w : World R) :
  issues_only no_item_creation w (snd (deliver msgs w))
  /\ forall id todo l,
       NoDup (map todo_id (todos (db w))) ->
       lookup_todo id (db w) = Some todo ->
       todoList_of todo (db w) = Some l ->
       truthy (list_external_id l) = true ->
       truthy (todo_external_id todo) = false ->
       let entries :=
         [mkLog LOG ("Processing sync event: " ++ CREATE_TODO_ITEM);
          mkLog WARN (cannot_sync_individually id)] in
       handleSyncEvent (mkEvent CREATE_TODO_ITEM id) w
       = (Return tt, logged w entries)
       /\ lookup_todo id (db (snd (deliver msgs (logged w entries))))
          = Some todo.
Proof.
  split; [apply deliver_requests|].
  intros id todo l Hnd Ht Hl Hlt Htf entries. split.
  - unfold handleSyncEvent, bind at 1, logger at 1, try_catch.
    change (dispatch (mkEvent CREATE_TODO_ITEM id)) with (createTodoItem (R := R) id).
    rewrite (@createTodoItem_synced_list id _ todo l); auto.
    unfold logged, entries. cbn [db faults remote requests log acks].
    now rewrite <- app_assoc.
  - pose proof (deliver_outbound msgs (logged w entries) Hnd) as Ho.
    destruct Ho as (_ & _ & _ & _ & L & T).
    destruct (T _ _ Ht) as (t' & Ht' & S).
    cbn [db logged] in *. rewrite Ht'. f_equal.
    destruct S as (A1 & B1 & C1 & D1 & X).
    apply todo_eta; auto.
    destruct X as [X|(_ & l0 & l1 & Hl0 & Hf0 & _)]; [exact X|].
    exfalso. rewrite Hl in Hl0. congruence.
Qed.

End ItemCreation.

(** ** The list-creation flow, run *)

Lemma toString_inj (a b : Z) : toString a = toString b -> a = b.
Proof.
  unfold toString. intros E.
  apply DecimalZ.to_int_inj.
  pose proof (NilEmpty.isi (Z.to_int a)) as Ha.
  pose proof (NilEmpty.isi (Z.to_int b)) as Hb.
  rewrite E in Ha. congruence.
Qed.

Lemma find_append A (p : A -> bool) (l r : list A) :
  find p (l ++ r) = match find p l with Some x => Some x | None => find p r end.
Proof.
  induction l as [|x l IH]; cbn; [reflexivity|].
  destruct (p x); [reflexivity | exact IH].
Qed.

Lemma source_matches_spec t it :
  source_matches t it = true <-> item_source_id it = Some (toString (todo_id t)).
Proof.
  unfold source_matches. destruct (item_source_id it) as [s|].
  - rewrite String.eqb_eq. split; congruence.
  - split; discriminate.
Qed.

(** The effect on the store of one item of the creation response: the todo
    of the list found by its source identifier receives the remote id. *)
Definition echo (localTodos : list Todo) (s : Store) (externalItem : ExternalItem)
  : Store :=
  match find (fun t => source_matches t externalItem) localTodos with
  | Some localTodo =>
      store_save_todo
        (set_todo_external_id localTodo (Some (item_id externalItem))) s
  | None => s
  end.

(** The response item that decides the external id of a todo: the last one
    that carries its source identifier. *)
Definition echoed (t : Todo) (externalItems : list ExternalItem)
  : option ExternalItem :=
  find (fun it => source_matches t it) (rev externalItems).

Lemma echo_lookup s0 k its : forall s j t,
  NoDup (map todo_id (todos s0)) ->
  lookup_todo j s0 = Some t ->
  lookup_todo j (fold_left (echo (todos_of k s0)) its s) =
  match (if belongs_to k t then echoed t its else None) with
  | Some it => Some (set_todo_external_id t (Some (item_id it)))
  | None => lookup_todo j s
  end.
Proof.
  intros s j t Hnd Ht. revert s.
  pose proof (by_key_key _ _ _ Ht) as [Hj Hin]. subst j.
  induction its as [|it r IH]; intros s; cbn [fold_left].
  - unfold echoed. cbn. destruct (belongs_to k t); reflexivity.
  - rewrite IH. unfold echoed. cbn [rev]. rewrite find_append.
    fold (echoed t r).
    destruct (belongs_to k t) eqn:Ek.
    + destruct (echoed t r) as [it'|]; [reflexivity|].
      cbn [find]. unfold echo.
      destruct (source_matches t it) eqn:Em.
      * destruct (find _ (todos_of k s0)) as [t'|] eqn:Ef.
        -- apply find_some in Ef. destruct Ef as [Hin' Hm'].
           apply todos_of_in in Hin'. destruct Hin' as [Hin' _].
           apply source_matches_spec in Em, Hm'.
           assert (Hid : todo_id t' = todo_id t)
             by (apply toString_inj; congruence).
           assert (t' = t).
           { pose proof (by_key_unique todo_id _ _ Hnd Hin') as H1.
             pose proof (by_key_unique todo_id _ _ Hnd Hin) as H2.
             rewrite Hid in H1. congruence. }
           subst t'. unfold store_save_todo. rewrite lookup_todo_by_key.
           cbn [todos]. rewrite by_key_upsert. cbn [todo_id set_todo_external_id].
           now rewrite Z.eqb_refl.
        -- exfalso. eapply find_none in Ef.
           ++ rewrite Em in Ef. discriminate.
           ++ unfold todos_of. apply filter_In. now split.
      * destruct (find _ (todos_of k s0)) as [t'|] eqn:Ef; [|reflexivity].
        apply find_some in Ef. destruct Ef as [Hin' Hm'].
        unfold store_save_todo. rewrite lookup_todo_by_key.
        cbn [todos]. rewrite by_key_upsert. cbn [todo_id set_todo_external_id].
        destruct (todo_id t' =? todo_id t)%Z eqn:E; [|reflexivity].
        exfalso. apply Z.eqb_eq in E.
        unfold source_matches in Em, Hm'. rewrite E in Hm'. congruence.
    + unfold echo.
      destruct (find _ (todos_of k s0)) as [t'|] eqn:Ef; [|reflexivity].
      apply find_some in Ef. destruct Ef as [Hin' Hm'].
      apply todos_of_in in Hin'. destruct Hin' as [Hin' Hk'].
      unfold store_save_todo. rewrite lookup_todo_by_key.
      cbn [todos]. rewrite by_key_upsert. cbn [todo_id set_todo_external_id].
      destruct (todo_id t' =? todo_id t)%Z eqn:E; [|reflexivity].
      exfalso. apply Z.eqb_eq in E.
      assert (t' = t).
      { pose proof (by_key_unique todo_id _ _ Hnd Hin') as H1.
        pose proof (by_key_unique todo_id _ _ Hnd Hin) as H2.
        rewrite E in H1. congruence. }
      subst t'. apply belongs_to_spec in Hk'. congruence.
Qed.

Lemma echo_lists localTodos its : forall s,
  lists (fold_left (echo localTodos) its s) = lists s.
Proof.
  induction its as [|it r IH]; intros s; cbn [fold_left]; [reflexivity|].
  rewrite IH. unfold echo. destruct (find _ _); reflexivity.
Qed.

Section CreationFlow.

Context {R : Type} `{HttpClient R}.

(** The body sent for a list: its local id as source identifier, its name
    and its current todos, each with its local id as source identifier. *)
Definition creation_request (l : TodoList) (s : Store) : Request :=
  mkRequest POST ["todolists"]
    (CreateListBody (toString (list_id l)) (list_name l)
       (map (fun todo =>
               mkItemBody (toString (todo_id todo)) (title todo) (completed todo))
            (todos_of (list_id l) s))).

Definition with_db (w : World R) (s : Store) : World R :=
  mkWorld s (faults w) (remote w) (requests w) (log w) (acks w).

Lemma with_db_same (w : World R) : with_db w (db w) = w.
Proof. destruct w; reflexivity. Qed.

Lemma persist_run A (f : Store -> A * Store) (w : World R) :
  faults w = None ->
  persist f w = (Return (fst (f (db w))), with_db w (snd (f (db w)))).
Proof.
  intros Hf. unfold persist, with_db. rewrite Hf.
  destruct (f (db w)); reflexivity.
Qed.

Lemma echo_loop_run (localTodos : list Todo) (its : list ExternalItem) :
  forall w : World R, faults w = None ->
  for_each its
    (fun externalItem =>
       match find (fun t => source_matches t externalItem) localTodos with
       | Some localTodo =>
           saveTodo (set_todo_external_id localTodo
                       (Some (item_id externalItem)))
       | None => ret tt
       end) w
  = (Return tt, with_db w (fold_left (echo localTodos) its (db w))).
Proof.
  induction its as [|it r IH]; intros w Hf; cbn [for_each fold_left].
  - now rewrite with_db_same.
  - unfold bind. unfold echo at 2.
    destruct (find _ localTodos) as [t|].
    + unfold saveTodo. rewrite persist_run by exact Hf. cbn [fst snd].
      rewrite IH by exact Hf. reflexivity.
    + cbn [ret]. apply IH. exact Hf.
Qed.

Definition same_requests (w w' : World R) : Prop := requests w' = requests w.

Lemma same_requests_refl w : same_requests w w.
Proof. reflexivity. Qed.

Lemma same_requests_trans a b c :
  same_requests a b -> same_requests b c -> same_requests a c.
Proof. unfold same_requests. congruence. Qed.

Lemma same_requests_logger lv s : guarantees same_requests (logger lv s).
Proof. intros w. reflexivity. Qed.

Lemma same_requests_persist A (f : Store -> A * Store) :
  guarantees same_requests (persist f).
Proof.
  intros w. unfold persist, same_requests.
  destruct (faults w) as [[|n]|]; cbn; try reflexivity;
    destruct (f (db w)); reflexivity.
Qed.


Lemma try_catch_bind A B (c : @M R A) (k : A -> M B) (h : Error -> M B) w :
  try_catch (bind c k) h w =
  match c w with
  | (Return a, w1) => try_catch (k a) h w1
  | (Throw e, w1) => h e w1
  end.
Proof. unfold try_catch, bind. destruct (c w) as [[a|e] w1]; reflexivity. Qed.


(** With a database that accepts the writes and a 2xx answer, the flow
    stores the returned list id and the echoed item ids. *)
Lemma createTodoList_run (id : Z) (w : World R) l st el r' :
  faults w = None ->
  lookup_list id (db w) = Some l ->
  truthy (list_external_id l) = false ->
  send (creation_request l (db w)) (remote w) = (Reply st (ListData el), r') ->
  (200 <=? st)%nat && (st <? 300)%nat = true ->
  createTodoList id w =
  (Return tt,
   mkWorld
     (fold_left (echo (todos_of (list_id l) (db w))) (items el)
        (store_save_list (set_list_external_id l (Some (ext_id el))) (db w)))
     None r'
     (requests w ++ [creation_request l (db w)])
     (log w ++ [mkLog LOG ("Successfully synced TodoList " ++ toString id
                           ++ " with external_id " ++ ext_id el)])
     (acks w)).
Proof.
  intros Hfa Hl Hf Hs Hst.
  unfold createTodoList. unfold bind at 1. unfold findOneListWithTodos, query.
  rewrite Hl. cbn [option_map]. rewrite Hf.
  rewrite try_catch_bind. fold (creation_request l (db w)).
  unfold http. fold (creation_request l (db w)). rewrite Hs, Hst.
  unfold try_catch. unfold bind at 1. unfold saveList. rewrite persist_run by exact Hfa.
  cbn [fst snd db]. rewrite save_loaded_relation by reflexivity.
  unfold bind at 1.
  rewrite echo_loop_run by exact Hfa.
  unfold logger, with_db. cbn [db faults remote requests log acks].
  rewrite Hfa. reflexivity.
Qed.

End CreationFlow.

Section ListCreated.

Context {R : Type} `{HttpClient R}.

Definition processing (ev : SyncEvent) : LogEntry :=
  mkLog LOG ("Processing sync event: " ++ event_type ev).

Definition rethrown (ev : SyncEvent) (error : Error) : @M R unit :=
  logger ERROR ("Error processing sync event " ++ event_type ev ++ ":") ;;;
  throw error.

Lemma handleSyncEvent_unfold (ev : SyncEvent) (w : World R) :
  handleSyncEvent ev w
  = try_catch (dispatch ev) (rethrown ev) (logged w [processing ev]).
Proof. reflexivity. Qed.

(** The external id a todo has after the creation response [el] of the list
    [id] was stored. *)
Definition after_echo (id : Z) (el : ExternalList) (t : Todo) : Todo :=
  match (if belongs_to id t then echoed t (items el) else None) with
  | Some it => set_todo_external_id t (Some (item_id it))
  | None => t
  end.


End ListCreated.

(** ** The invariant between items and lists *)

(** An item's external id is non-null only if its owning list's is. *)
Definition item_list_invariant (s : Store) : Prop :=
  forall t, In t (todos s) -> is_set (todo_external_id t) ->
    exists l, todoList_of t s = Some l
              /\ is_set (list_external_id l).

(** The same, of the items that belong to a list: an item with an external
    id that is in a list is in a list with an external id. *)
Definition listed_items_invariant (s : Store) : Prop :=
  forall t k, In t (todos s) -> is_set (todo_external_id t) ->
    todoListId t = Some k ->
    exists l, lookup_list k s = Some l /\ is_set (list_external_id l).


Section DependentSync.

Context {R : Type} `{HttpClient R}.

(** What [createTodoItem] does after the list-creation flow has returned. *)
Definition after_list_sync (id : Z) : @M R unit :=
  updatedTodo <- findOneTodo id ;;
  if truthy (match updatedTodo with
             | Some t => todo_external_id t
             | None => None
             end)
  then logger LOG ("Todo " ++ toString id ++ " synced as part of TodoList sync")
  else logger WARN (cannot_sync_individually id).

Lemma after_list_sync_run id (w : World R) :
  exists entries, after_list_sync id w = (Return tt, logged w entries).
Proof.
  unfold after_list_sync, bind, findOneTodo, query.
  destruct (truthy _); eexists; reflexivity.
Qed.

Lemma createTodoItem_unsynced_list (id : Z) (w : World R) todo l :
  lookup_todo id (db w) = Some todo ->
  todoList_of todo (db w) = Some l ->
  truthy (todo_external_id todo) = false ->
  truthy (list_external_id l) = false ->
  createTodoItem id w =
  bind (createTodoList (list_id l)) (fun _ => after_list_sync id)
       (logged w [mkLog LOG ("TodoList " ++ toString (list_id l)
                             ++ " not synced yet, syncing it first")]).
Proof.
  intros Ht Hl Htf Hlf.
  unfold createTodoItem. unfold bind at 1. unfold findOneTodoWithList, query.
  rewrite Ht. cbn [option_map]. rewrite Hl, Htf, Hlf. reflexivity.
Qed.

Lemma updateTodoItem_unsynced (id : Z) (w : World R) todo l :
  lookup_todo id (db w) = Some todo ->
  todoList_of todo (db w) = Some l ->
  truthy (todo_external_id todo) = false ->
  updateTodoItem id w =
  createTodoItem id
    (logged w [mkLog LOG ("Todo " ++ toString id
                          ++ " not synced yet, creating instead of updating")]).
Proof.
  intros Ht Hl Htf.
  unfold updateTodoItem. unfold bind at 1. unfold findOneTodoWithList, query.
  rewrite Ht. cbn [option_map]. rewrite Hl, Htf. reflexivity.
Qed.



End DependentSync.

(** ** Concrete runs against the remote system of the specification *)

Module Scenario.

(** A store with no rows and a remote system that holds one list created on
    the remote side, hence without source identifier. *)
Definition emptyStore : Store := mkStore [] [] 1 1.

Definition inbox : ExternalList :=
  mkExternalList "ext-1" None "Inbox"
    [mkExternalItem "ext-2" None "milk" false].

Definition remoteOnly : World Remote.State :=
  Remote.world emptyStore (Remote.mkState [inbox] 3).

Definition once : World Remote.State := snd (syncFromExternal remoteOnly).

Definition twice : World Remote.State := snd (syncFromExternal once).

(** A local list never pushed, whose remote counterpart exists with one
    item; the database accepts one more write. *)
Definition groceries : Store :=
  mkStore [mkTodoList 1 None "Groceries"] [] 2 1.

Definition pushedElsewhere : Remote.State :=
  Remote.mkState
    [mkExternalList "ext-1" (Some "1") "Groceries"
       [mkExternalItem "ext-2" None "milk" false]] 3.

Definition failingAfterOneWrite : World Remote.State :=
  mkWorld groceries (Some 1%nat) pushedElsewhere [] [] [].

Definition interrupted : World Remote.State :=
  snd (syncFromExternal failingAfterOneWrite).

(** The same store once the database accepts writes again. *)
Definition recovered : World Remote.State :=
  mkWorld (db interrupted) None (remote interrupted) [] [] [].

(** The same list and remote system with a database that accepts every
    write, and the pass run on them. *)
Definition neverPushed : World Remote.State :=
  Remote.world groceries pushedElsewhere.

Definition adopted : World Remote.State := snd (syncFromExternal neverPushed).


Definition renamedRemotely : World Remote.State :=
  Remote.world
    (mkStore [mkTodoList 1 (Some "ext-1") "Groceries"] [] 2 1)
    (Remote.mkState
       [mkExternalList "ext-1" (Some "1") "Food"
          [mkExternalItem "ext-2" None "milk" false]] 3).

(** A synced list with a synced item, to which an item is added locally. *)
Definition syncedList : Store :=
  mkStore [mkTodoList 1 (Some "ext-1") "Groceries"]
          [mkTodo 1 (Some "ext-2") "milk" false (Some 1%Z);
           mkTodo 2 None "eggs" false (Some 1%Z)] 2 3.

Definition syncedRemote : Remote.State :=
  Remote.mkState
    [mkExternalList "ext-1" (Some "1") "Groceries"
       [mkExternalItem "ext-2" (Some "1") "milk" false]] 3.

Definition itemAdded : World Remote.State :=
  Remote.world syncedList syncedRemote.

(** The creation of an item through the mutation site, the delivery of its
    event and one reconciliation pass. *)
Definition created : Outcome SyncEvent * World Remote.State :=
  TodosService_create "eggs" 1
    (Remote.world
       (mkStore [mkTodoList 1 (Some "ext-1") "Groceries"]
                [mkTodo 1 (Some "ext-2") "milk" false (Some 1%Z)] 2 2)
       syncedRemote).



(** A list created locally with no item, and a remote system that holds
    nothing yet. *)
Definition emptyList : World Remote.State :=
  Remote.world (mkStore [mkTodoList 1 None "Groceries"] [] 2 1)
               (Remote.mkState [] 1).

(** An item created before its list was synced. *)
Definition dependent : World Remote.State :=
  Remote.world
    (mkStore [mkTodoList 1 None "Groceries"] [mkTodo 10 None "milk" false (Some 1%Z)] 2 11)
    (Remote.mkState [] 1).

End Scenario.


(** ** What a reconciliation pass may do to the store *)

(** A list row keeps its id; its [external_id] is kept, or becomes the id
    of a remote list of the snapshot whose source identifier names the
    list.  A todo row keeps its id, its list and its [external_id]. *)
Definition inbound (snapshot : list ExternalList) (s s' : Store) : Prop :=
  (forall k l, lookup_list k s = Some l ->
     exists l', lookup_list k s' = Some l'
       /\ list_id l' = list_id l
       /\ (list_external_id l' = list_external_id l
           \/ exists el, In el snapshot
                /\ localId_of el = Some k
                /\ list_external_id l' = Some (ext_id el)))
  /\ (forall j t, lookup_todo j s = Some t ->
     exists t', lookup_todo j s' = Some t'
       /\ todo_id t' = todo_id t
       /\ todoListId t' = todoListId t
       /\ todo_external_id t' = todo_external_id t).

Lemma inbound_refl snapshot s : inbound snapshot s s.
Proof.
  split.
  - intros k l Hl. exists l. auto.
  - intros j t Ht. exists t. auto.
Qed.

Lemma inbound_trans snapshot a b c :
  inbound snapshot a b -> inbound snapshot b c -> inbound snapshot a c.
Proof.
  intros [L1 T1] [L2 T2]. split.
  - intros k l Hl. destruct (L1 _ _ Hl) as (l1 & Hl1 & I1 & E1).
    destruct (L2 _ _ Hl1) as (l2 & Hl2 & I2 & E2).
    exists l2. split; [exact Hl2|]. split; [congruence|].
    destruct E2 as [E2|E2]; [|right; exact E2].
    destruct E1 as [E1|(el & A & B & C)]; [left; congruence|].
    right. exists el. repeat split; auto. congruence.
  - intros j t Ht. destruct (T1 _ _ Ht) as (t1 & Ht1 & A1 & B1 & C1).
    destruct (T2 _ _ Ht1) as (t2 & Ht2 & A2 & B2 & C2).
    exists t2. repeat split; congruence.
Qed.

Lemma in_upsert A (key : A -> Z) (x y : A) (l : list A) :
  In y (upsert key x l) -> y = x \/ In y l.
Proof.
  induction l as [|z r IH]; cbn.
  - intros [<-|[]]. now left.
  - destruct (key z =? key x)%Z.
    + intros [<-|Hin]; [now left | right; now right].
    + intros [<-|Hin]; [right; now left|].
      destruct (IH Hin) as [->|Hr]; [now left | right; now right].
Qed.

(** The rows made by [todoRepository.save(array)]. *)
Fixpoint new_rows (n : Z) (its : list ExternalItem) (lid : Z) : list Todo :=
  match its with
  | [] => []
  | item :: r =>
      mkTodo n (Some (item_id item)) (description item) (item_completed item)
             (Some lid)
      :: new_rows (n + 1) r lid
  end.

Lemma store_insert_items_spec its lid : forall s,
  snd (store_insert_items its lid s) =
  mkStore (lists s) (todos s ++ new_rows (next_todo_id s) its lid)
          (next_list_id s) (next_todo_id s + Z.of_nat (List.length its)).
Proof.
  unfold store_insert_items. cbn [snd].
  induction its as [|item r IH]; intros s; cbn [fold_left new_rows List.length].
  - rewrite app_nil_r, Z.add_0_r. now destruct s.
  - rewrite IH. cbn [store_insert_todo snd lists todos next_list_id next_todo_id].
    rewrite <- app_assoc. cbn [app]. f_equal. lia.
Qed.

Lemma new_rows_ids n its lid t :
  In t (new_rows n its lid) ->
  (n <= todo_id t < n + Z.of_nat (List.length its))%Z
  /\ todoListId t = Some lid /\ is_set (todo_external_id t).
Proof.
  revert n. induction its as [|item r IH]; intros n; cbn [new_rows List.length].
  - intros [].
  - intros [<-|Hin].
    + cbn. unfold is_set. repeat split; try lia. discriminate.
    + destruct (IH _ Hin) as (Hr & Hl & Hs). repeat split; auto; lia.
Qed.

Lemma new_rows_nodup n its lid : NoDup (map todo_id (new_rows n its lid)).
Proof.
  revert n. induction its as [|item r IH]; intros n; cbn [new_rows map].
  - constructor.
  - constructor; [|apply IH].
    intros Hin. apply in_map_iff in Hin. destruct Hin as (t & Ht & Hin).
    apply new_rows_ids in Hin. cbn in Ht. lia.
Qed.

(** *** Primary keys are kept *)

Lemma nodup_append (l : list Z) (r : list Z) :
  NoDup l -> NoDup r -> (forall x, In x l -> In x r -> False) -> NoDup (l ++ r).
Proof.
  induction l as [|x l IH]; cbn; intros Hl Hr Hd; [exact Hr|].
  inversion Hl as [|? ? Hx Hl']; subst. constructor.
  - rewrite in_app_iff. intros [Hi|Hi]; [tauto | eapply Hd; [now left | exact Hi]].
  - apply IH; auto. intros y Hy1 Hy2. eapply Hd; [right; exact Hy1 | exact Hy2].
Qed.

Lemma wf_insert_list name e s :
  wf_store s -> wf_store (snd (store_insert_list name e s)).
Proof.
  intros (NL & NT & BL & BT). unfold wf_store, store_insert_list.
  cbn [snd lists todos next_list_id next_todo_id].
  repeat split; auto.
  - rewrite map_app. apply nodup_append; auto.
    + cbn. constructor; [intros [] | constructor].
    + intros x Hx [<-|[]]. apply in_map_iff in Hx.
      destruct Hx as (l & Hl & Hin). specialize (BL _ Hin). cbn in Hl. lia.
  - intros l Hin. apply in_app_iff in Hin. destruct Hin as [Hin|[<-|[]]].
    + specialize (BL _ Hin). lia.
    + cbn. lia.
Qed.

Lemma wf_insert_items its lid s :
  wf_store s -> wf_store (snd (store_insert_items its lid s)).
Proof.
  intros (NL & NT & BL & BT). rewrite store_insert_items_spec.
  unfold wf_store. cbn [lists todos next_list_id next_todo_id].
  repeat split; auto.
  - rewrite map_app. apply nodup_append; auto.
    + apply new_rows_nodup.
    + intros x Hx Hy. apply in_map_iff in Hx, Hy.
      destruct Hx as (t & Ht & Hin). destruct Hy as (t' & Ht' & Hin').
      specialize (BT _ Hin). apply new_rows_ids in Hin'. lia.
  - intros t Hin. apply in_app_iff in Hin. destruct Hin as [Hin|Hin].
    + specialize (BT _ Hin). lia.
    + apply new_rows_ids in Hin. lia.
Qed.

Lemma store_insert_todo_as_items ttl c e lid s :
  snd (store_insert_todo ttl c (Some e) lid s)
  = snd (store_insert_items [mkExternalItem e None ttl c] lid s).
Proof. reflexivity. Qed.

Lemma wf_insert_todo ttl c e lid s :
  wf_store s -> wf_store (snd (store_insert_todo ttl c (Some e) lid s)).
Proof. rewrite store_insert_todo_as_items. apply wf_insert_items. Qed.

Lemma wf_save_todo t s :
  wf_store s -> In (todo_id t) (map todo_id (todos s)) ->
  wf_store (store_save_todo t s).
Proof.
  intros (NL & NT & BL & BT) Hin. unfold wf_store, store_save_todo.
  cbn [lists todos next_list_id next_todo_id].
  rewrite (keys_upsert todo_id _ _ Hin). repeat split; auto.
  intros x Hx. apply in_upsert in Hx. destruct Hx as [->|Hx]; [|auto].
  apply in_map_iff in Hin. destruct Hin as (y & Hy & Hin).
  specialize (BT _ Hin). lia.
Qed.

Lemma wf_save_list l s :
  wf_store s -> In (list_id l) (map list_id (lists s)) ->
  wf_store (store_save_list l s).
Proof.
  intros (NL & NT & BL & BT) Hin. unfold wf_store, store_save_list.
  cbn [lists todos next_list_id next_todo_id].
  rewrite (keys_upsert list_id _ _ Hin). repeat split; auto.
  intros x Hx. apply in_upsert in Hx. destruct Hx as [->|Hx]; [|auto].
  apply in_map_iff in Hin. destruct Hin as (y & Hy & Hin).
  specialize (BL _ Hin). lia.
Qed.

(** *** Each write of the pass is an [inbound] step *)

Lemma lookup_todo_appended j s rows :
  forall t, lookup_todo j s = Some t ->
  by_key todo_id j (todos s ++ rows) = Some t.
Proof.
  intros t Ht. rewrite by_key_app. rewrite <- lookup_todo_by_key, Ht. reflexivity.
Qed.

Lemma inbound_insert_list snapshot name e s :
  inbound snapshot s (snd (store_insert_list name e s)).
Proof.
  split.
  - intros k l Hl. exists l. split; [|auto].
    unfold store_insert_list. cbn [snd]. rewrite lookup_list_by_key. cbn [lists].
    rewrite by_key_app. rewrite <- lookup_list_by_key, Hl. reflexivity.
  - intros j t Ht. exists t. auto.
Qed.

Lemma inbound_insert_items snapshot its lid s :
  inbound snapshot s (snd (store_insert_items its lid s)).
Proof.
  rewrite store_insert_items_spec. split.
  - intros k l Hl. exists l. auto.
  - intros j t Ht. exists t. split; [|auto].
    rewrite lookup_todo_by_key. cbn [todos]. now apply lookup_todo_appended.
Qed.

Lemma inbound_insert_todo snapshot ttl c e lid s :
  inbound snapshot s (snd (store_insert_todo ttl c (Some e) lid s)).
Proof. rewrite store_insert_todo_as_items. apply inbound_insert_items. Qed.

Lemma inbound_save_todo snapshot t2 row s :
  lookup_todo (todo_id t2) s = Some row ->
  todoListId t2 = todoListId row ->
  todo_external_id t2 = todo_external_id row ->
  inbound snapshot s (store_save_todo t2 s).
Proof.
  intros Hrow Hl He. split.
  - intros k l Hl0. exists l. auto.
  - intros j t Ht. unfold store_save_todo. rewrite lookup_todo_by_key.
    cbn [todos]. rewrite by_key_upsert.
    destruct (todo_id t2 =? j)%Z eqn:E.
    + apply Z.eqb_eq in E. subst j.
      assert (t = row) by congruence. subst t.
      pose proof (by_key_key _ _ _ Hrow) as [Hid _].
      exists t2. repeat split; congruence.
    + exists t. auto.
Qed.

Lemma inbound_save_list snapshot l2 loaded el s0 s :
  In el snapshot ->
  localId_of el = Some (list_id l2) ->
  list_external_id l2 = Some (ext_id el) ->
  (forall t, In t (todos s0) -> todoListId t = Some (list_id l2) ->
             In (todo_id t) (map todo_id loaded)) ->
  inbound snapshot s0 s ->
  inbound snapshot s0 (store_save_list_with l2 loaded s).
Proof.
  intros Hin Hloc He Hcov [L T]. split.
  - intros k l Hl. destruct (L _ _ Hl) as (l' & Hl' & Hid' & E).
    rewrite lookup_list_save_list_with.
    destruct (list_id l2 =? k)%Z eqn:Ek.
    + apply Z.eqb_eq in Ek. subst k.
      pose proof (by_key_key _ _ _ Hl) as [Hid _].
      exists l2. split; [reflexivity|]. split; [congruence|].
      right. exists el. auto.
    + exists l'. auto.
  - intros j t Ht. destruct (T _ _ Ht) as (t' & Ht' & Ti & Tl & Te).
    rewrite lookup_todo_save_list_with, Ht'. cbn [option_map].
    rewrite detach_kept.
    + exists t'. auto.
    + intros Hk. rewrite Ti. apply Hcov.
      * pose proof (by_key_key _ _ _ Ht) as [_ Hin0]. exact Hin0.
      * congruence.
Qed.

(** *** The objects in memory and the rows of the store *)

Definition Mem : Type := list (TodoList * list Todo).

(** Every list object in memory has a row, which has an external id when
    the object has one; every todo object in memory belongs to its list
    object and has a row with the same list and the same external id. *)
Definition weakly_agrees (mem : Mem) (s : Store) : Prop :=
  forall l ts, In (l, ts) mem ->
    (exists row, lookup_list (list_id l) s = Some row
                 /\ (is_set (list_external_id l) -> is_set (list_external_id row)))
    /\ forall t, In t ts ->
         todoListId t = Some (list_id l)
         /\ exists row, lookup_todo (todo_id t) s = Some row
                        /\ todo_external_id row = todo_external_id t
                        /\ todoListId row = todoListId t.

(** The todo objects of a list object in memory are, as to their ids, the
    todos of that list in the store [s0] the pass started from. *)
Definition loaded_from (s0 : Store) (mem : Mem) : Prop :=
  forall l ts, In (l, ts) mem ->
    map todo_id ts = map todo_id (todos_of (list_id l) s0).

Lemma loaded_from_initial s0 :
  loaded_from s0 (map (fun l => (l, todos_of (list_id l) s0)) (lists s0)).
Proof.
  intros l ts Hin. apply in_map_iff in Hin.
  destruct Hin as (l0 & E & _). now inversion E.
Qed.

Lemma loaded_from_mem s0 mem mem' :
  (forall x, In x mem' -> In x mem) -> loaded_from s0 mem -> loaded_from s0 mem'.
Proof. intros Hincl F l ts Hin. apply F. now apply Hincl. Qed.

Lemma loaded_from_covers s0 mem l ts t :
  loaded_from s0 mem -> In (l, ts) mem ->
  In t (todos s0) -> todoListId t = Some (list_id l) ->
  In (todo_id t) (map todo_id ts).
Proof.
  intros F Hin Ht Hk. rewrite (F _ _ Hin). apply in_map.
  now apply todos_of_intro.
Qed.

Lemma loaded_from_same_list s0 mem l ts l' ts' :
  loaded_from s0 mem -> In (l, ts) mem -> In (l', ts') mem ->
  list_id l' = list_id l -> map todo_id ts' = map todo_id ts.
Proof.
  intros F Hin Hin' E. rewrite (F _ _ Hin), (F _ _ Hin'). now rewrite E.
Qed.

Lemma weakly_agrees_inbound snapshot mem s s' :
  weakly_agrees mem s -> inbound snapshot s s' -> weakly_agrees mem s'.
Proof.
  intros Hw [L T] l ts Hin. destruct (Hw l ts Hin) as [(row & Hrow & Hset) Hts].
  split.
  - destruct (L _ _ Hrow) as (row' & Hrow' & _ & E).
    exists row'. split; [exact Hrow'|]. intros Hs. specialize (Hset Hs).
    destruct E as [E|(el & _ & _ & E)]; unfold is_set in *; congruence.
  - intros t Ht. destruct (Hts t Ht) as (Hl & r & Hr & He & Hk).
    split; [exact Hl|].
    destruct (T _ _ Hr) as (r' & Hr' & _ & Hk' & He').
    exists r'. repeat split; congruence.
Qed.

Lemma weakly_agrees_initial s :
  wf_store s ->
  weakly_agrees (map (fun l => (l, todos_of (list_id l) s)) (lists s)) s.
Proof.
  intros (NL & NT & _ & _) l ts Hin. apply in_map_iff in Hin.
  destruct Hin as (l0 & E & Hin). inversion E; subst. split.
  - exists l. split; [|auto].
    rewrite lookup_list_by_key. now apply by_key_unique.
  - intros t Ht. apply todos_of_in in Ht. destruct Ht as [Ht Hk].
    split; [exact Hk|]. exists t. split; [|auto].
    rewrite lookup_todo_by_key. now apply by_key_unique.
Qed.

(** The save of a list object with its todo objects takes no row of a todo
    object in memory out of its list. *)
Lemma weakly_agrees_save_list s0 mem l l2 ts' s :
  list_id l2 = list_id l ->
  is_set (list_external_id l2) ->
  loaded_from s0 ((l, ts') :: mem) ->
  weakly_agrees ((l, ts') :: mem) s ->
  weakly_agrees ((l2, ts') :: mem) (store_save_list_with l2 ts' s).
Proof.
  intros F1 Hset F A.
  assert (Hrows : forall l' ts0 t, In (l', ts0) ((l, ts') :: mem) -> In t ts0 ->
            todoListId t = Some (list_id l')
            /\ exists row, lookup_todo (todo_id t) (store_save_list_with l2 ts' s)
                           = Some row
                           /\ todo_external_id row = todo_external_id t
                           /\ todoListId row = todoListId t).
  { intros l' ts0 t Hin Ht.
    destruct (A l' ts0 Hin) as [_ Hts].
    destruct (Hts t Ht) as (Hl & r & Hr & He & Hk).
    split; [exact Hl|]. exists r. split; [|auto].
    rewrite lookup_todo_save_list_with, Hr. cbn [option_map].
    rewrite detach_kept; [reflexivity|].
    intros Hr2. pose proof (by_key_key _ _ _ Hr) as [Hid _]. rewrite Hid.
    assert (E : list_id l' = list_id l) by congruence.
    rewrite <- (@loaded_from_same_list s0 _ l ts' l' ts0 F (or_introl eq_refl) Hin E).
    now apply in_map. }
  intros l' ts0 [E|Hin].
  - inversion E; subst l' ts0. split.
    + exists l2. split; [|auto].
      now rewrite lookup_list_save_list_with, Z.eqb_refl.
    + intros t Ht. rewrite F1. apply (Hrows l ts' t); [now left | exact Ht].
  - split.
    + destruct (A l' ts0 (or_intror Hin)) as [(row & Hrow & Hs) _].
      rewrite lookup_list_save_list_with.
      destruct (list_id l2 =? list_id l')%Z.
      * exists l2. auto.
      * exists row. auto.
    + intros t Ht. apply (Hrows l' ts0 t); [now right | exact Ht].
Qed.

Lemma in_replace_nth A (n : nat) (x y : A) (l : list A) :
  In y (replace_nth n x l) -> y = x \/ In y l.
Proof.
  revert n. induction l as [|z r IH]; intros n; destruct n as [|m]; cbn;
    try tauto.
  - intros [<-|Hin]; [now left | right; now right].
  - intros [<-|Hin]; [right; now left|].
    destruct (IH _ Hin) as [->|Hr]; [now left | right; now right].
Qed.

Lemma last_match_some A (p : A -> bool) (l : list A) i x :
  last_match p l = Some (i, x) -> In x l /\ p x = true.
Proof.
  revert i. induction l as [|y r IH]; intros i; cbn; [discriminate|].
  destruct (last_match p r) as [[j z]|] eqn:E.
  - intros [= <- <-]. destruct (IH _ eq_refl) as [Hin Hp]. split; [now right | exact Hp].
  - destruct (p y) eqn:Hp; [|discriminate].
    intros [= <- <-]. split; [now left | exact Hp].
Qed.

Lemma last_match_none A (p : A -> bool) (l : list A) :
  last_match p l = None -> forall x, In x l -> p x = false.
Proof.
  induction l as [|y r IH]; cbn; [tauto|].
  destruct (last_match p r) as [[j z]|]; [discriminate|].
  destruct (p y) eqn:Hp; [discriminate|].
  intros _ x [<-|Hin]; [exact Hp | now apply IH].
Qed.

Lemma last_match_nth A (p : A -> bool) (l : list A) i x :
  last_match p l = Some (i, x) -> nth_error l i = Some x.
Proof.
  revert i. induction l as [|y r IH]; intros i; cbn; [discriminate|].
  destruct (last_match p r) as [[j z]|] eqn:E.
  - intros [= <- <-]. cbn. now apply IH.
  - destruct (p y); [|discriminate]. intros [= <- <-]. reflexivity.
Qed.

Lemma map_replace_nth A B (f : A -> B) (l : list A) i x y :
  nth_error l i = Some x -> f y = f x ->
  map f (replace_nth i y l) = map f l.
Proof.
  revert i. induction l as [|z r IH]; intros i; destruct i as [|m]; cbn;
    try discriminate.
  - intros [= ->] E. now rewrite E.
  - intros Hn E. f_equal. now apply IH.
Qed.

(** *** The item/list invariant along the pass *)

Definition owner_set (s : Store) (k : Z) : Prop :=
  exists l, lookup_list k s = Some l /\ is_set (list_external_id l).

(** The invariant of the items that belong to a list, but for the todos of
    the lists in [K]. *)
Definition invariant_but (K : Z -> Prop) (s : Store) : Prop :=
  forall t k, In t (todos s) -> is_set (todo_external_id t) ->
    todoListId t = Some k -> K k \/ owner_set s k.

Definition nowhere (k : Z) : Prop := False.

Lemma invariant_but_nowhere s :
  invariant_but nowhere s <-> listed_items_invariant s.
Proof.
  unfold invariant_but, listed_items_invariant, owner_set, nowhere. split.
  - intros Hi t k Hin Hs Hk. destruct (Hi t k Hin Hs Hk) as [[]|Ho]. exact Ho.
  - intros Hi t k Hin Hs Hk. right. now apply (Hi t k).
Qed.

Lemma invariant_but_weaken (K K' : Z -> Prop) s :
  (forall k, K k -> K' k) -> invariant_but K s -> invariant_but K' s.
Proof.
  intros HK Hi t k Hin Hs Hk.
  destruct (Hi t k Hin Hs Hk) as [Hkk|Ho]; [left; auto | now right].
Qed.

Lemma owner_set_inbound snapshot s s' k :
  inbound snapshot s s' -> owner_set s k -> owner_set s' k.
Proof.
  intros [L _] (l & Hl & Hs). destruct (L _ _ Hl) as (l' & Hl' & _ & E).
  exists l'. split; [exact Hl'|].
  destruct E as [E|(el & _ & _ & E)]; unfold is_set in *; congruence.
Qed.

Lemma invariant_insert_list K name e s :
  invariant_but K s -> invariant_but K (snd (store_insert_list name e s)).
Proof.
  intros Hi t k Hin Hs Hk. cbn in Hin.
  destruct (Hi t k Hin Hs Hk) as [Hkk|Ho]; [now left|].
  right. eapply owner_set_inbound; [apply (inbound_insert_list [])|exact Ho].
Qed.

Lemma invariant_insert_items (K : Z -> Prop) its lid s :
  K lid \/ owner_set s lid ->
  invariant_but K s -> invariant_but K (snd (store_insert_items its lid s)).
Proof.
  intros Hlid Hi t k Hin Hs Hk.
  pose proof (inbound_insert_items [] its lid s) as Hstep.
  rewrite store_insert_items_spec in Hin, Hstep |- *. cbn [todos] in Hin.
  apply in_app_iff in Hin. destruct Hin as [Hin|Hin].
  - destruct (Hi t k Hin Hs Hk) as [Hkk|Ho]; [now left|].
    right. eapply owner_set_inbound; [exact Hstep | exact Ho].
  - apply new_rows_ids in Hin. destruct Hin as (_ & Hl & _).
    assert (k = lid) by congruence. subst k.
    destruct Hlid as [Hkk|Ho]; [now left|].
    right. eapply owner_set_inbound; [exact Hstep | exact Ho].
Qed.

Lemma invariant_insert_todo (K : Z -> Prop) ttl c e lid s :
  K lid -> invariant_but K s ->
  invariant_but K (snd (store_insert_todo ttl c (Some e) lid s)).
Proof.
  intros Hk. rewrite store_insert_todo_as_items.
  apply invariant_insert_items. now left.
Qed.

Lemma invariant_save_todo K t2 row s :
  lookup_todo (todo_id t2) s = Some row ->
  todoListId t2 = todoListId row ->
  todo_external_id t2 = todo_external_id row ->
  invariant_but K s -> invariant_but K (store_save_todo t2 s).
Proof.
  intros Hrow Hl He Hi t k Hin Hs Hk.
  unfold store_save_todo in Hin. cbn [todos] in Hin.
  apply in_upsert in Hin.
  assert (Hsame : forall x, owner_set s x -> owner_set (store_save_todo t2 s) x)
    by (intros x Hx; exact Hx).
  destruct Hin as [->|Hin].
  - pose proof (by_key_key _ _ _ Hrow) as [_ Hrin].
    rewrite He in Hs. rewrite Hl in Hk.
    destruct (Hi row k Hrin Hs Hk) as [Hkk|Ho]; [now left | right; auto].
  - destruct (Hi t k Hin Hs Hk) as [Hkk|Ho]; [now left | right; auto].
Qed.

(** Saving the list closes the invariant for its todos: those it leaves in
    the list are in a list with an external id, the others are in none. *)
Lemma invariant_save_list l2 loaded s :
  is_set (list_external_id l2) ->
  invariant_but (eq (list_id l2)) s ->
  invariant_but nowhere (store_save_list_with l2 loaded s).
Proof.
  intros Hset Hi t' k Hin Hs Hk. right.
  cbn [todos store_save_list_with] in Hin. apply in_map_iff in Hin.
  destruct Hin as (t & E & Hin).
  destruct (detach_cases l2 loaded t) as [D|(_ & _ & D)]; rewrite D in E; subst t'.
  2:{ cbn in Hk. discriminate. }
  unfold owner_set. rewrite lookup_list_save_list_with.
  destruct (list_id l2 =? k)%Z eqn:Ek.
  - exists l2. auto.
  - destruct (Hi t k Hin Hs Hk) as [Hkk|Ho].
    + apply Z.eqb_neq in Ek. congruence.
    + exact Ho.
Qed.

Lemma invariant_closed k row s :
  lookup_list k s = Some row -> is_set (list_external_id row) ->
  invariant_but (eq k) s -> invariant_but nowhere s.
Proof.
  intros Hrow Hset Hi t j Hin Hs Hj. right.
  destruct (Hi t j Hin Hs Hj) as [E|Ho]; [|exact Ho].
  exists row. rewrite <- E. auto.
Qed.

(** ** The reconciliation pass, step by step *)

Lemma differs_false e id : differs e id = false -> e = Some id.
Proof.
  unfold differs. destruct e as [x|]; [|discriminate].
  intros Hd. apply negb_false_iff in Hd. apply String.eqb_eq in Hd. now subst.
Qed.

Section PassGuarantee.

Context {R : Type} `{HttpClient R}.

Variable snapshot : list ExternalList.
Variable s0 : Store.

Ltac reads_tac :=
  unfold reads_only;
  repeat first
    [ apply reads_only_logger
    | apply reads_only_http
    | frame_step (@same_db_refl R) (@same_db_trans R) ].

(** What holds of the store between two steps of a pass started from [s0]
    on [snapshot], with the objects [mem] in memory. *)
Definition pass_inv (mem : Mem) (K : Z -> Prop) (s : Store) : Prop :=
  wf_store s
  /\ inbound snapshot s0 s
  /\ weakly_agrees mem s
  /\ (listed_items_invariant s0 -> invariant_but K s)
  /\ loaded_from s0 mem.

Lemma pass_inv_step mem K s s' :
  pass_inv mem K s ->
  wf_store s' ->
  inbound snapshot s s' ->
  (invariant_but K s -> invariant_but K s') ->
  pass_inv mem K s'.
Proof.
  intros (W & I & A & V & F) W' I' V'.
  refine (conj W' (conj _ (conj _ (conj _ F)))); auto.
  - eapply inbound_trans; eauto.
  - eapply weakly_agrees_inbound; eauto.
Qed.

Lemma weakly_agrees_todo mem s l ts t :
  weakly_agrees mem s -> In (l, ts) mem -> In t ts ->
  todoListId t = Some (list_id l)
  /\ exists row, lookup_todo (todo_id t) s = Some row
                 /\ todo_external_id row = todo_external_id t
                 /\ todoListId row = todoListId t.
Proof. intros Hw Hin Ht. destruct (Hw _ _ Hin) as [_ Hts]. now apply Hts. Qed.

Lemma reconcile_item_pass mem l l2 localTodos externalItem :
  list_id l2 = list_id l ->
  striple (R := R)
    (pass_inv ((l, localTodos) :: mem) (eq (list_id l)))
    (reconcile_item l2 localTodos externalItem)
    (fun ts' => pass_inv ((l, ts') :: mem) (eq (list_id l)))
    (inbound snapshot s0).
Proof.
  intros Hid. unfold reconcile_item.
  destruct (negb (truthy (Some (item_id externalItem)))).
  { apply striple_ret. auto. }
  destruct (last_match _ localTodos) as [[j localTodo]|] eqn:Hm.
  - pose proof (last_match_nth _ _ Hm) as Hnth.
    apply last_match_some in Hm. destruct Hm as [Hin _].
    set (t1 := if negb (title localTodo =? description externalItem)%string
               then set_title localTodo (description externalItem)
               else localTodo).
    set (t2 := if negb (Bool.eqb (completed localTodo) (item_completed externalItem))
               then set_completed t1 (item_completed externalItem)
               else t1).
    assert (Ht2 : todo_id t2 = todo_id localTodo
                  /\ todoListId t2 = todoListId localTodo
                  /\ todo_external_id t2 = todo_external_id localTodo).
    { unfold t2, t1.
      destruct (negb (title localTodo =? description externalItem)%string),
               (negb (Bool.eqb (completed localTodo) (item_completed externalItem)));
        cbn; auto. }
    destruct Ht2 as (Ti & Tl & Te).
    cbv zeta. fold t1. fold t2.
    destruct (_ || _).
    + eapply striple_bind with (Q := fun _ => pass_inv ((l, localTodos) :: mem) (eq (list_id l))).
      { apply st_logger. auto. }
      intros _.
      eapply striple_bind with (Q := fun _ => pass_inv ((l, replace_nth j t2 localTodos) :: mem) (eq (list_id l))).
      * unfold saveTodo. apply st_persist.
        { intros s (_ & I & _). exact I. }
        intros s HP. cbn [fst snd].
        pose proof HP as (W & I & A & V & F).
        destruct (@weakly_agrees_todo _ _ l localTodos localTodo A
                    (or_introl eq_refl) Hin)
          as (Hl & row & Hrow & He & Hk).
        rewrite <- Ti in Hrow.
        assert (Hstep : inbound snapshot s (store_save_todo t2 s))
          by (eapply inbound_save_todo; eauto; congruence).
        assert (HP' : pass_inv ((l, localTodos) :: mem) (eq (list_id l))
                        (store_save_todo t2 s)).
        { eapply pass_inv_step; eauto.
          - apply wf_save_todo; [exact W|]. eapply by_key_in_keys.
            rewrite <- lookup_todo_by_key. exact Hrow.
          - eapply invariant_save_todo; eauto; congruence. }
        destruct HP' as (W' & I' & A' & V' & F').
        refine (conj W' (conj I' (conj _ (conj V' _)))).
        -- intros l' ts' Hin'. destruct Hin' as [E|Hin'].
           ++ inversion E; subst l' ts'.
              destruct (A' l localTodos (or_introl eq_refl)) as [Hlist Htodos].
              split; [exact Hlist|]. intros t Ht.
              apply in_replace_nth in Ht. destruct Ht as [->|Ht]; [|now apply Htodos].
              split; [congruence|]. exists t2. split; [|auto].
              unfold store_save_todo. rewrite lookup_todo_by_key. cbn [todos].
              rewrite by_key_upsert, Z.eqb_refl. reflexivity.
           ++ apply A'. now right.
        -- intros l' ts' [E|Hin'].
           ++ inversion E; subst l' ts'.
              rewrite (@map_replace_nth _ _ todo_id _ _ _ _ Hnth Ti).
              apply F'. now left.
           ++ apply F'. now right.
      * intros _. apply striple_ret. auto.
    + apply striple_ret. auto.
  - eapply striple_bind with (Q := fun _ => pass_inv ((l, localTodos) :: mem) (eq (list_id l))).
    { apply st_logger. auto. }
    intros _.
    eapply striple_bind with (Q := fun _ => pass_inv ((l, localTodos) :: mem) (eq (list_id l))).
    + unfold saveNewTodo. apply st_persist.
      { intros s (_ & I & _). exact I. }
      intros s HP. eapply pass_inv_step; [exact HP| | |].
      * apply wf_insert_todo. now destruct HP.
      * apply inbound_insert_todo.
      * apply invariant_insert_todo. congruence.
    + intros newTodo.
      eapply striple_bind with (Q := fun _ => pass_inv ((l, localTodos) :: mem) (eq (list_id l))).
      { apply st_logger. auto. }
      intros _. apply striple_ret. auto.
Qed.

Lemma reconcile_items_pass mem l l2 externalItems : forall localTodos,
  list_id l2 = list_id l ->
  striple (R := R)
    (pass_inv ((l, localTodos) :: mem) (eq (list_id l)))
    (reconcile_items l2 externalItems localTodos)
    (fun ts' => pass_inv ((l, ts') :: mem) (eq (list_id l)))
    (inbound snapshot s0).
Proof.
  induction externalItems as [|it rest IH]; intros localTodos Hid;
    cbn [reconcile_items].
  - apply striple_ret. auto.
  - eapply striple_bind; [apply reconcile_item_pass; exact Hid|].
    intros ts'. apply IH. exact Hid.
Qed.

Lemma reads_only_report_missing l its ts :
  reads_only (R := R) (report_missing l its ts).
Proof. unfold report_missing. reads_tac. Qed.

Lemma reconcile_list_pass mem el l ts :
  In el snapshot -> localId_of el = Some (list_id l) -> In (l, ts) mem ->
  striple (R := R) (pass_inv mem nowhere) (reconcile_list el l ts)
    (fun updated => pass_inv (updated :: mem) nowhere)
    (inbound snapshot s0).
Proof.
  intros Hel Hloc Hin. unfold reconcile_list. cbv zeta.
  set (nameDiffers := negb (list_name l =? ext_name el)%string).
  set (l1 := if nameDiffers then set_list_name l (ext_name el) else l).
  set (idDiffers := differs (list_external_id l1) (ext_id el)).
  set (l2 := if idDiffers then set_list_external_id l1 (Some (ext_id el)) else l1).
  assert (F1 : list_id l2 = list_id l).
  { unfold l2, l1. destruct idDiffers, nameDiffers; reflexivity. }
  assert (F2 : list_external_id l2 = Some (ext_id el)).
  { unfold l2. destruct idDiffers eqn:Hd; [reflexivity|].
    now apply differs_false. }
  assert (F3 : nameDiffers || idDiffers = false -> l2 = l).
  { unfold l2, l1. destruct nameDiffers, idDiffers; cbn; congruence. }
  assert (Hpre : forall s, pass_inv mem nowhere s ->
                           pass_inv ((l, ts) :: mem) (eq (list_id l)) s).
  { intros s (W & I & A & V & F). refine (conj W (conj I (conj _ (conj _ _)))).
    - intros l' ts' [E|Hin']; [inversion E; subst; now apply A | now apply A].
    - intros Hi. eapply invariant_but_weaken; [|apply V; exact Hi].
      intros k [].
    - intros l' ts' [E|Hin']; [inversion E; subst; now apply F | now apply F]. }
  eapply striple_bind with (Q := fun _ => pass_inv mem nowhere).
  { destruct nameDiffers; [apply st_logger | apply striple_ret]; auto. }
  intros _.
  eapply striple_bind with (Q := fun _ => pass_inv mem nowhere).
  { destruct idDiffers; [apply st_logger | apply striple_ret]; auto. }
  intros _.
  eapply striple_bind.
  { eapply striple_conseq;
      [apply (@reconcile_items_pass mem l l2 (items el) ts F1)
      | exact Hpre | intros a s Hq; exact Hq | auto]. }
  intros ts'. cbn beta.
  eapply striple_bind
    with (Q := fun _ => pass_inv ((l, ts') :: mem) (eq (list_id l))).
  { apply st_reads; [apply reads_only_report_missing | auto |].
    intros s (_ & I & _). exact I. }
  intros _.
  assert (Hshape : forall s, pass_inv ((l, ts') :: mem) (eq (list_id l)) s ->
                             loaded_from s0 ((l2, ts') :: mem)).
  { intros s (_ & _ & _ & _ & F) l' ts0 [E|Hin'].
    - inversion E; subst l' ts0. rewrite F1. apply F. now left.
    - apply F. now right. }
  eapply striple_bind with (Q := fun _ => pass_inv ((l2, ts') :: mem) nowhere).
  2:{ intros _. apply striple_ret. auto. }
  destruct (nameDiffers || idDiffers) eqn:Hneed.
  - eapply striple_bind with (Q := fun _ => pass_inv ((l2, ts') :: mem) nowhere).
    2:{ intros _. apply st_logger. auto. }
    unfold saveList. apply st_persist.
    { intros s (_ & I & _). exact I. }
    intros s HP. pose proof (Hshape s HP) as F'.
    destruct HP as (W & I & A & V & F). cbn [fst snd].
    destruct (A l ts' (or_introl eq_refl)) as [(row & Hrow & _) Hts].
    assert (Hset : is_set (list_external_id l2))
      by (unfold is_set; rewrite F2; discriminate).
    refine (conj _ (conj _ (conj _ (conj _ F')))).
    + destruct W as (NL & NT & BL & BT).
      assert (Hkey : In (list_id l2) (map list_id (lists s))).
      { rewrite F1. eapply by_key_in_keys. rewrite <- lookup_list_by_key.
        exact Hrow. }
      unfold wf_store, store_save_list_with.
      cbn [lists todos next_list_id next_todo_id].
      rewrite (keys_upsert list_id _ _ Hkey), map_detach_ids.
      repeat split; auto.
      * intros x Hx. apply in_upsert in Hx. destruct Hx as [->|Hx]; [|auto].
        apply in_map_iff in Hkey. destruct Hkey as (y & Hy & Hiny).
        specialize (BL _ Hiny). lia.
      * intros x Hx. apply in_map_iff in Hx. destruct Hx as (y & <- & Hiny).
        rewrite detach_id. auto.
    + eapply inbound_save_list; eauto; [congruence|].
      intros t Ht Hk. rewrite F1 in Hk.
      eapply loaded_from_covers; [exact F | now left | exact Ht | exact Hk].
    + eapply weakly_agrees_save_list; eauto.
    + intros Hi. apply invariant_save_list; [exact Hset|].
      rewrite F1. now apply V.
  - apply st_logger. intros s HP. pose proof (Hshape s HP) as F'.
    destruct HP as (W & I & A & V & F).
    rewrite (F3 eq_refl) in *.
    refine (conj W (conj I (conj A (conj _ F)))).
    intros Hi.
    destruct (A l ts' (or_introl eq_refl)) as [(row & Hrow & Hset) _].
    eapply invariant_closed; [exact Hrow | | now apply V].
    apply Hset. unfold is_set. rewrite F2. discriminate.
Qed.

Lemma pass_inv_mem mem mem' K s :
  (forall x, In x mem' -> In x mem) -> pass_inv mem K s -> pass_inv mem' K s.
Proof.
  intros Hincl (W & I & A & V & F).
  refine (conj W (conj I (conj _ (conj V _)))).
  - intros l ts Hin. apply A. now apply Hincl.
  - eapply loaded_from_mem; eauto.
Qed.

Lemma map_get_some localId mem i l ts :
  map_get localId mem = Some (i, (l, ts)) ->
  In (l, ts) mem /\ localId = Some (list_id l).
Proof.
  unfold map_get. destruct localId as [k|]; [|discriminate].
  intros Hm. apply last_match_some in Hm. destruct Hm as [Hin Hk].
  cbn in Hk. apply Z.eqb_eq in Hk. split; [exact Hin | congruence].
Qed.

Lemma reconcile_entry_pass mem el :
  In el snapshot ->
  striple (R := R) (pass_inv mem nowhere) (reconcile_entry mem el)
    (fun mem' => pass_inv mem' nowhere) (inbound snapshot s0).
Proof.
  intros Hel. unfold reconcile_entry. cbv zeta.
  destruct (map_get (localId_of el) mem) as [[i [l ts]]|] eqn:Hm.
  - apply map_get_some in Hm. destruct Hm as [Hin Hloc].
    eapply striple_bind; [apply (@reconcile_list_pass mem el l ts Hel Hloc Hin)|].
    intros updated. apply striple_ret. intros s HP.
    eapply pass_inv_mem; [|exact HP].
    intros x Hx. apply in_replace_nth in Hx.
    destruct Hx as [->|Hx]; [now left | now right].
  - eapply striple_bind with (Q := fun _ => pass_inv mem nowhere).
    { apply st_logger. auto. }
    intros _.
    eapply striple_bind with (Q := fun _ => pass_inv mem nowhere).
    { apply st_reads; [reads_tac | auto |]. intros s (_ & I & _). exact I. }
    intros _. apply striple_ret. auto.
Qed.

Lemma reconcile_lists_pass externalTodoLists : forall mem,
  (forall el, In el externalTodoLists -> In el snapshot) ->
  striple (R := R) (pass_inv mem nowhere)
    (reconcile_lists externalTodoLists mem)
    (fun _ s => exists mem', pass_inv mem' nowhere s) (inbound snapshot s0).
Proof.
  induction externalTodoLists as [|el rest IH]; intros mem Hsub;
    cbn [reconcile_lists].
  - apply striple_ret. intros s HP. now exists mem.
  - eapply striple_bind.
    + apply reconcile_entry_pass. apply Hsub. now left.
    + intros mem'. apply IH. intros el' Hin. apply Hsub. now right.
Qed.

Lemma lookup_inserted_list name e s :
  wf_store s ->
  lookup_list (next_list_id s) (snd (store_insert_list name e s))
  = Some (mkTodoList (next_list_id s) e name).
Proof.
  intros (_ & _ & BL & _). unfold store_insert_list. cbn [snd].
  rewrite lookup_list_by_key. cbn [lists]. rewrite by_key_app.
  assert (Hn : by_key list_id (next_list_id s) (lists s) = None).
  { apply by_key_none. intros Hin. apply in_map_iff in Hin.
    destruct Hin as (l & Hl & Hin). specialize (BL _ Hin). lia. }
  rewrite Hn. unfold by_key. cbn. now rewrite Z.eqb_refl.
Qed.

Lemma import_list_pass mem el :
  striple (R := R) (pass_inv mem nowhere) (import_list el)
    (fun _ => pass_inv mem nowhere) (inbound snapshot s0).
Proof.
  unfold import_list.
  eapply striple_bind with (Q := fun _ => pass_inv mem nowhere).
  { apply st_logger. auto. }
  intros _.
  eapply striple_bind
    with (Q := fun saved s =>
                 pass_inv mem nowhere s
                 /\ lookup_list (list_id saved) s = Some saved
                 /\ is_set (list_external_id saved)).
  { unfold saveNewList. apply st_persist.
    { intros s (_ & I & _). exact I. }
    intros s HP. split; [|split].
    - eapply pass_inv_step; [exact HP| | |].
      + apply wf_insert_list. now destruct HP.
      + apply inbound_insert_list.
      + apply invariant_insert_list.
    - cbn [fst store_insert_list list_id]. apply lookup_inserted_list.
      now destruct HP.
    - cbn. unfold is_set. discriminate. }
  intros saved.
  eapply striple_bind with (Q := fun _ => pass_inv mem nowhere).
  - destruct (items el) as [|item rest] eqn:Hits.
    + apply striple_ret. intros s [HP _]. exact HP.
    + eapply striple_bind with (Q := fun _ => pass_inv mem nowhere).
      * unfold saveNewTodos. apply st_persist.
        { intros s ((_ & I & _) & _). exact I. }
        intros s (HP & Hl & Hs). cbn [fst].
        eapply pass_inv_step; [exact HP| | |].
        -- apply wf_insert_items. now destruct HP.
        -- apply inbound_insert_items.
        -- apply invariant_insert_items. right. exists saved. auto.
      * intros _. apply st_logger. auto.
  - intros _. apply st_logger. auto.
Qed.

Lemma merge_snapshot_pass :
  wf_store s0 ->
  striple (R := R) (eq s0) (merge_snapshot snapshot)
    (fun _ s => wf_store s
                /\ inbound snapshot s0 s
                /\ (listed_items_invariant s0 -> listed_items_invariant s))
    (inbound snapshot s0).
Proof.
  intros Hwf. unfold merge_snapshot, findLists.
  eapply striple_bind with (Q := fun _ => eq s0).
  { apply st_logger. auto. }
  intros _.
  eapply striple_bind.
  { apply st_query with
      (Q := fun localTodoLists s =>
              s0 = s
              /\ localTodoLists
                 = map (fun l => (l, todos_of (list_id l) s0)) (lists s0)).
    intros s <-. auto. }
  intros mem. apply st_pre. intros s [<- ->]. cbv zeta.
  set (mem := map (fun l => (l, todos_of (list_id l) s0)) (lists s0)).
  assert (Hinit : pass_inv mem nowhere s0).
  { refine (conj Hwf (conj (inbound_refl _ _) (conj _ (conj _ _)))).
    - now apply weakly_agrees_initial.
    - intros Hi. now apply invariant_but_nowhere.
    - apply loaded_from_initial. }
  eapply striple_bind with (Q := fun _ => pass_inv mem nowhere).
  { apply st_logger. intros s <-. exact Hinit. }
  intros _.
  eapply striple_bind with (Q := fun _ => pass_inv mem nowhere).
  { apply striple_for_each. intros el _. apply import_list_pass. }
  intros _.
  eapply striple_bind.
  { apply reconcile_lists_pass. intros el Hin. apply filter_In in Hin. tauto. }
  intros []. apply st_logger. intros s (mem' & W & I & _ & V & _).
  refine (conj W (conj I _)). intros Hi. apply invariant_but_nowhere. auto.
Qed.

End PassGuarantee.

(** ** Decidable forms of the store predicates *)

Fixpoint distinct (l : list Z) : bool :=
  match l with
  | [] => true
  | x :: r => negb (existsb (Z.eqb x) r) && distinct r
  end.

Lemma distinct_NoDup l : distinct l = true -> NoDup l.
Proof.
  induction l as [|x r IH]; cbn; intros Hd; [constructor|].
  apply andb_true_iff in Hd. destruct Hd as [Hx Hr].
  constructor; [|now apply IH].
  intros Hin. apply negb_true_iff in Hx.
  assert (existsb (Z.eqb x) r = true); [|congruence].
  apply existsb_exists. exists x. split; [exact Hin | apply Z.eqb_refl].
Qed.

Definition wf_storeb (s : Store) : bool :=
  distinct (map list_id (lists s))
  && distinct (map todo_id (todos s))
  && forallb (fun l => (list_id l <? next_list_id s)%Z) (lists s)
  && forallb (fun t => (todo_id t <? next_todo_id s)%Z) (todos s).

Lemma wf_storeb_sound s : wf_storeb s = true -> wf_store s.
Proof.
  unfold wf_storeb, wf_store. intros Hb.
  repeat (apply andb_true_iff in Hb; destruct Hb as [Hb ?]).
  repeat split.
  - now apply distinct_NoDup.
  - now apply distinct_NoDup.
  - intros l Hin. apply Z.ltb_lt.
    match goal with F : forallb _ (lists s) = true |- _ =>
      rewrite forallb_forall in F; now apply F end.
  - intros t Hin. apply Z.ltb_lt.
    match goal with F : forallb _ (todos s) = true |- _ =>
      rewrite forallb_forall in F; now apply F end.
Qed.

Definition is_setb (e : option string) : bool :=
  match e with
  | Some _ => true
  | None => false
  end.

Lemma is_setb_spec e : is_setb e = true <-> is_set e.
Proof. unfold is_set. destruct e; cbn; split; congruence. Qed.

Definition item_list_invariantb (s : Store) : bool :=
  forallb
    (fun t =>
       negb (is_setb (todo_external_id t))
       || match todoList_of t s with
          | Some l => is_setb (list_external_id l)
          | None => false
          end)
    (todos s).

Definition listed_items_invariantb (s : Store) : bool :=
  forallb
    (fun t =>
       negb (is_setb (todo_external_id t))
       || match todoListId t with
          | Some k =>
              match lookup_list k s with
              | Some l => is_setb (list_external_id l)
              | None => false
              end
          | None => true
          end)
    (todos s).

Lemma listed_items_invariantb_spec s :
  listed_items_invariantb s = true <-> listed_items_invariant s.
Proof.
  unfold listed_items_invariantb, listed_items_invariant. rewrite forallb_forall.
  split.
  - intros Hb t k Hin Hs Hk. specialize (Hb t Hin).
    apply is_setb_spec in Hs. rewrite Hs, Hk in Hb. cbn in Hb.
    destruct (lookup_list k s) as [l|]; [|discriminate].
    exists l. split; [reflexivity | now apply is_setb_spec].
  - intros Hi t Hin. destruct (is_setb (todo_external_id t)) eqn:E; [|reflexivity].
    cbn. apply is_setb_spec in E.
    destruct (todoListId t) as [k|] eqn:Hk; [|reflexivity].
    destruct (Hi t k Hin E Hk) as (l & -> & Hs).
    now apply is_setb_spec.
Qed.

Lemma item_list_invariantb_spec s :
  item_list_invariantb s = true <-> item_list_invariant s.
Proof.
  unfold item_list_invariantb, item_list_invariant. rewrite forallb_forall.
  split.
  - intros Hb t Hin Hs. specialize (Hb t Hin).
    apply is_setb_spec in Hs. rewrite Hs in Hb. cbn in Hb.
    destruct (todoList_of t s) as [l|]; [|discriminate].
    exists l. split; [reflexivity | now apply is_setb_spec].
  - intros Hi t Hin. destruct (is_setb (todo_external_id t)) eqn:E; [|reflexivity].
    cbn. apply is_setb_spec in E. destruct (Hi t Hin E) as (l & -> & Hs).
    now apply is_setb_spec.
Qed.

(** ** The invariant and the monotonic identity, over whole operations *)

Section Operations.

Context {R : Type} `{HttpClient R}.

(** The snapshot a pass started in [w] works on: the lists of a 2xx answer
    to its request, none when the request fails. *)
Definition fetched (w : World R) : list ExternalList :=
  match fst (send (mkRequest GET ["todolists"] NoBody) (remote w)) with
  | Reply st (ListsData ls) =>
      if (200 <=? st)%nat && (st <? 300)%nat then ls else []
  | _ => []
  end.

Lemma syncFromExternal_pass (w : World R) :
  wf_store (db w) ->
  inbound (fetched w) (db w) (db (snd (syncFromExternal w)))
  /\ (fst (syncFromExternal w) = Return tt ->
      wf_store (db (snd (syncFromExternal w)))
      /\ (listed_items_invariant (db w) ->
          listed_items_invariant (db (snd (syncFromExternal w))))).
Proof.
  intros Hwf.
  remember (syncFromExternal w) as run eqn:Hrun.
  unfold syncFromExternal in Hrun. unfold bind at 1 in Hrun.
  unfold logger at 1 in Hrun. rewrite try_catch_bind in Hrun.
  unfold fetched. unfold http in Hrun.
  cbn [remote db faults requests log acks] in Hrun.
  destruct (send (mkRequest GET ["todolists"] NoBody) (remote w))
    as [resp r'] eqn:Hs.
  cbn [fst].
  destruct resp as [|st d].
  { subst run. cbn. split; [apply inbound_refl | discriminate]. }
  destruct ((200 <=? st)%nat && (st <? 300)%nat).
  2:{ subst run. cbn. split; [destruct d; apply inbound_refl | discriminate]. }
  rewrite try_catch_bind in Hrun.
  destruct d as [|l|ls]; cbn [expect_lists ret throw] in Hrun;
    try (subst run; cbn; split; [apply inbound_refl | discriminate]).
  match type of Hrun with
  | context [try_catch (merge_snapshot ls) ?h ?w1] =>
      pose proof (@merge_snapshot_pass R _ ls (db w) Hwf w1 eq_refl) as Hm;
      unfold try_catch in Hrun;
      destruct (merge_snapshot ls w1) as [[[]|e] w2]
  end.
  - subst run. cbn [fst snd]. destruct Hm as (W & I & V). auto.
  - subst run. cbn [fst snd bind logger throw db].
    split; [exact Hm | discriminate].
Qed.




(** C4, as amended.  From a store with unique primary keys, no operation
    removes a row or sets an external id back to null.  The handling of an
    event relates the stores by [outbound]: a list keeps a non-empty
    external id, and an item changes its external id only to a non-null
    one while its list, until then without one, receives one, that is in
    the list-creation flow.  A reconciliation pass relates them by
    [inbound]: an item keeps its external id and a list keeps its own or
    receives the id of a list of the snapshot whose source identifier names
    it. *)
Theorem monotonic_identity (w : World R) :
  wf_store (db w) ->
  (forall ev, outbound (db w) (db (snd (handleSyncEvent ev w))))
  /\ inbound (fetched w) (db w) (db (snd (syncFromExternal w)))
  /\ (forall ev k l,
        lookup_list k (db w) = Some l -> is_set (list_external_id l) ->
        exists l', lookup_list k (db (snd (handleSyncEvent ev w))) = Some l'
                   /\ is_set (list_external_id l')
                   /\ (truthy (list_external_id l) = true ->
                       list_external_id l' = list_external_id l))
  /\ (forall ev j t,
        lookup_todo j (db w) = Some t -> is_set (todo_external_id t) ->
        exists t', lookup_todo j (db (snd (handleSyncEvent ev w))) = Some t'
                   /\ is_set (todo_external_id t'))
  /\ (forall k l,
        lookup_list k (db w) = Some l -> is_set (list_external_id l) ->
        exists l', lookup_list k (db (snd (syncFromExternal w))) = Some l'
                   /\ is_set (list_external_id l'))
  /\ (forall j t,
        lookup_todo j (db w) = Some t ->
        exists t', lookup_todo j (db (snd (syncFromExternal w))) = Some t'
                   /\ todo_external_id t' = todo_external_id t).
Proof.
  intros Hwf. pose proof Hwf as (_ & NT & _).
  assert (Hout : forall ev, outbound (db w) (db (snd (handleSyncEvent ev w))))
    by (intros ev; now apply handleSyncEvent_step).
  destruct (syncFromExternal_pass w Hwf) as [Hin _].
  split; [exact Hout|]. split; [exact Hin|].
  split; [|split; [|split]].
  - intros ev k l Hl Hs. destruct (Hout ev) as (_ & _ & _ & _ & L & _).
    destruct (L _ _ Hl) as (l' & Hl' & Hstep). exists l'.
    split; [exact Hl'|]. split; [eapply list_step_set; eauto|].
    intros Ht. destruct Hstep as (_ & _ & [E|[F _]]); congruence.
  - intros ev j t Ht Hs. destruct (Hout ev) as (_ & _ & _ & _ & _ & T).
    destruct (T _ _ Ht) as (t' & Ht' & (_ & _ & _ & _ & X)). exists t'.
    split; [exact Ht'|].
    destruct X as [X|[X _]]; [unfold is_set in *; congruence | exact X].
  - intros k l Hl Hs. destruct Hin as [L _].
    destruct (L _ _ Hl) as (l' & Hl' & _ & E). exists l'.
    split; [exact Hl'|].
    destruct E as [E|(el & _ & _ & E)]; unfold is_set in *; congruence.
  - intros j t Ht. destruct Hin as [_ T].
    destruct (T _ _ Ht) as (t' & Ht' & _ & _ & E). exists t'. auto.
Qed.

End Operations.

(** ** The claims on concrete runs *)

(** The items of a local list and of a remote list, compared by
    (description, completed). *)
Definition local_items (k : Z) (s : Store) : list (string * bool) :=
  map (fun t => (title t, completed t)) (todos_of k s).

Definition remote_items (e : string) (st : Remote.State) : list (string * bool) :=
  flat_map
    (fun l =>
       if String.eqb (ext_id l) e
       then map (fun it => (description it, item_completed it)) (items l)
       else [])
    (Remote.rlists st).


(** C1. Two passes against the same remote snapshot do not leave the store
    that one pass leaves: the remote list without source identifier is
    imported a second time, with its item, under a new local id and the
    same external id. *)
Theorem repeated_pass_duplicates_remote_list :
  fst (syncFromExternal Scenario.remoteOnly) = Return tt
  /\ fst (syncFromExternal Scenario.once) = Return tt
  /\ remote Scenario.once = remote Scenario.remoteOnly
  /\ remote Scenario.twice = remote Scenario.remoteOnly
  /\ lists (db Scenario.once) = [mkTodoList 1 (Some "ext-1") "Inbox"]
  /\ lists (db Scenario.twice)
     = [mkTodoList 1 (Some "ext-1") "Inbox"; mkTodoList 2 (Some "ext-1") "Inbox"]
  /\ todos (db Scenario.twice)
     = [mkTodo 1 (Some "ext-2") "milk" false (Some 1%Z);
        mkTodo 2 (Some "ext-2") "milk" false (Some 2%Z)]
  /\ db Scenario.twice <> db Scenario.once.
Proof. vm_compute. repeat split. discriminate. Qed.



(** Nor does a pass that runs to completion keep the invariant as stated:
    the item it creates for a matched list is taken out of the list by the
    save of the list that follows, since the list object saved carries the
    todos read at the start of the pass.  The item is left with an external
    id and no list; the list has lost the item the pass pulled for it. *)
Lemma completed_pass_detaches_created_item :
  wf_store (db Scenario.neverPushed)
  /\ item_list_invariant (db Scenario.neverPushed)
  /\ fst (syncFromExternal Scenario.neverPushed) = Return tt
  /\ db Scenario.adopted
     = mkStore [mkTodoList 1 (Some "ext-1") "Groceries"]
               [mkTodo 1 (Some "ext-2") "milk" false None] 2 2
  /\ todos_of 1 (db Scenario.adopted) = []
  /\ ~ item_list_invariant (db Scenario.adopted)
  /\ listed_items_invariant (db Scenario.adopted).
Proof.
  split; [apply wf_storeb_sound; vm_compute; reflexivity|].
  split; [apply item_list_invariantb_spec; vm_compute; reflexivity|].
  split; [vm_compute; reflexivity|]. split; [vm_compute; reflexivity|].
  split; [vm_compute; reflexivity|].
  split.
  - intros Hi. apply item_list_invariantb_spec in Hi. vm_compute in Hi.
    discriminate.
  - apply listed_items_invariantb_spec. vm_compute. reflexivity.
Qed.

(** C4 fails as stated: the ListCreated handler run on the store left by
    that interrupted pass replaces the non-null external id of the item by
    the one of the creation response. *)
Lemma handler_reassigns_item_identity :
  lookup_todo 1 (db Scenario.recovered)
  = Some (mkTodo 1 (Some "ext-2") "milk" false (Some 1%Z))
  /\ fst (handleSyncEvent (mkEvent CREATE_TODO_LIST 1) Scenario.recovered)
     = Return tt
  /\ lookup_todo 1
       (db (snd (handleSyncEvent (mkEvent CREATE_TODO_LIST 1) Scenario.recovered)))
     = Some (mkTodo 1 (Some "ext-4") "milk" false (Some 1%Z)).
Proof. vm_compute. repeat split. Qed.


(** *** Instances of the theorems *)

Lemma consume_unknown_event_run :
  ~ In (event_type (mkEvent "refresh-all" 7)) event_types
  /\ consume (mkEvent "refresh-all" 7) 3%nat Scenario.itemAdded
     = (Return tt,
        acked (logged Scenario.itemAdded
                 [mkLog LOG "Processing sync event: refresh-all";
                  mkLog WARN "Unknown sync event type: refresh-all"])
              3%nat).
Proof.
  assert (Hn : ~ In (event_type (mkEvent "refresh-all" 7)) event_types).
  { cbn. intros Hin. repeat (destruct Hin as [Hin|Hin]; [discriminate|]).
    exact Hin. }
  split; [exact Hn|].
  exact (proj2 (unknown_event_is_skipped (mkEvent "refresh-all" 7) 3%nat
                  Scenario.itemAdded Hn)).
Defined.

Lemma item_of_synced_list_run :
  NoDup (map todo_id (todos (db Scenario.itemAdded)))
  /\ lookup_todo 2 (db Scenario.itemAdded) = Some (mkTodo 2 None "eggs" false (Some 1%Z))
  /\ handleSyncEvent (mkEvent CREATE_TODO_ITEM 2) Scenario.itemAdded
     = (Return tt,
        logged Scenario.itemAdded
          [mkLog LOG ("Processing sync event: " ++ CREATE_TODO_ITEM);
           mkLog WARN (cannot_sync_individually 2)]).
Proof.
  assert (Hnd : NoDup (map todo_id (todos (db Scenario.itemAdded))))
    by (apply distinct_NoDup; vm_compute; reflexivity).
  split; [exact Hnd|]. split; [reflexivity|].
  exact (proj1 (proj2 (no_isolated_item_creation [] Scenario.itemAdded)
                  2%Z (mkTodo 2 None "eggs" false (Some 1%Z))
                  (mkTodoList 1 (Some "ext-1") "Groceries")
                  Hnd eq_refl eq_refl eq_refl eq_refl)).
Defined.




Lemma monotonic_identity_run :
  wf_store (db Scenario.itemAdded)
  /\ inbound (fetched Scenario.itemAdded) (db Scenario.itemAdded)
       (db (snd (syncFromExternal Scenario.itemAdded))).
Proof.
  assert (Hw : wf_store (db Scenario.itemAdded))
    by (apply wf_storeb_sound; vm_compute; reflexivity).
  split; [exact Hw|].
  exact (proj1 (proj2 (monotonic_identity Scenario.itemAdded Hw))).
Defined.

(** ** What a pass brings into the local store *)











Lemma has_external_id_spec e t :
  has_external_id e t = true -> todo_external_id t = Some e.
Proof.
  unfold has_external_id. intros Hb. apply andb_true_iff in Hb.
  destruct Hb as [_ Hb]. destruct (todo_external_id t) as [x|]; [|discriminate].
  apply String.eqb_eq in Hb. now subst.
Qed.


Lemma in_upsert_other A (key : A -> Z) (x y : A) (l : list A) :
  In y l -> key y <> key x -> In y (upsert key x l).
Proof.
  induction l as [|z r IH]; cbn; [tauto|].
  intros [->|Hin] Hk.
  - destruct (key y =? key x)%Z eqn:E; [|now left].
    apply Z.eqb_eq in E. congruence.
  - destruct (key z =? key x)%Z; right; auto.
Qed.






(** A source identifier that names a local list is not empty. *)
Lemma localId_truthy el k : localId_of el = Some k -> truthy (source_id el) = true.
Proof.
  unfold localId_of. destruct (source_id el) as [[|c r]|]; cbn;
    [discriminate | reflexivity | discriminate].
Qed.

Section PassMirror.

Context {R : Type} `{HttpClient R}.

Variable s0 : Store.
Variable snapshot : list ExternalList.

Ltac reads_tac :=
  unfold reads_only;
  repeat first
    [ apply reads_only_logger
    | apply reads_only_http
    | frame_step (@same_db_refl R) (@same_db_trans R) ].















End PassMirror.

Section Convergence.

Context {R : Type} `{HttpClient R}.



End Convergence.

(** The inclusion of the remote items in the local ones fails for a list
    that the pass updates: the remote list was renamed, the pass creates the
    remote item under the local list and then saves the list, and the list
    is left without the item. *)
Lemma renamed_list_loses_pulled_item :
  fst (syncFromExternal Scenario.renamedRemotely) = Return tt
  /\ lists (db (snd (syncFromExternal Scenario.renamedRemotely)))
     = [mkTodoList 1 (Some "ext-1") "Food"]
  /\ todos (db (snd (syncFromExternal Scenario.renamedRemotely)))
     = [mkTodo 1 (Some "ext-2") "milk" false None]
  /\ local_items 1 (db (snd (syncFromExternal Scenario.renamedRemotely))) = []
  /\ remote_items "ext-1" (remote (snd (syncFromExternal Scenario.renamedRemotely)))
     = [("milk", false)].
Proof. vm_compute. repeat split. Qed.


(** ** Replaying an event *)

Section Respect.

Context {R : Type} `{HttpClient R}.

(** The state of the two systems, and of the database as to failures: what
    a run depends on, besides the traces it appends to. *)
Definition state_of (w : World R) : Store * option nat * R :=
  (db w, faults w, remote w).

(** Runs from worlds in the same state have the same outcome and end in the
    same state. *)
Definition respects {A} (c : @M R A) : Prop :=
  forall w w', state_of w = state_of w' ->
    fst (c w) = fst (c w') /\ state_of (snd (c w)) = state_of (snd (c w')).

Lemma respects_ret A (a : A) : respects (ret a).
Proof. intros w w' E. cbn. auto. Qed.

Lemma respects_throw A (e : Error) : respects (@throw R A e).
Proof. intros w w' E. cbn. auto. Qed.

Lemma respects_bind A B (c : @M R A) (k : A -> M B) :
  respects c -> (forall a, respects (k a)) -> respects (bind c k).
Proof.
  intros Hc Hk w w' E. unfold bind. destruct (Hc w w' E) as [Ho Hs].
  destruct (c w) as [[a|e] w1], (c w') as [[a'|e'] w1']; cbn in Ho, Hs;
    try discriminate.
  - inversion Ho; subst a'. now apply Hk.
  - inversion Ho; subst e'. cbn. auto.
Qed.

Lemma respects_try_catch A (c : @M R A) (h : Error -> M A) :
  respects c -> (forall e, respects (h e)) -> respects (try_catch c h).
Proof.
  intros Hc Hh w w' E. unfold try_catch. destruct (Hc w w' E) as [Ho Hs].
  destruct (c w) as [[a|e] w1], (c w') as [[a'|e'] w1']; cbn in Ho, Hs;
    try discriminate.
  - cbn. auto.
  - inversion Ho; subst e'. now apply Hh.
Qed.

Lemma respects_for_each A (l : list A) (f : A -> M unit) :
  (forall x, respects (f x)) -> respects (for_each l f).
Proof.
  intros Hf. induction l as [|x r IH]; cbn [for_each].
  - apply respects_ret.
  - apply respects_bind; [apply Hf | intros _; exact IH].
Qed.

Lemma respects_logger lv s : respects (logger lv s).
Proof. intros w w' E. cbn. split; [reflexivity | exact E]. Qed.

Lemma respects_query A (f : Store -> A) : respects (query f).
Proof.
  intros w w' E. unfold query. cbn [fst snd]. split; [|exact E].
  unfold state_of in E. injection E as Ed Ef Er. now rewrite Ed.
Qed.

Lemma respects_persist A (f : Store -> A * Store) : respects (persist f).
Proof.
  intros w w' E. unfold state_of in E. injection E as Ed Ef Er.
  unfold persist, state_of. rewrite <- Ef, <- Ed.
  destruct (faults w) as [[|n]|] eqn:Hf; cbn.
  - split; [reflexivity | congruence].
  - destruct (f (db w)); cbn. split; [reflexivity | congruence].
  - destruct (f (db w)); cbn. split; [reflexivity | congruence].
Qed.

Lemma respects_http m u b : respects (http m u b).
Proof.
  intros w w' E. unfold state_of in E. injection E as Ed Ef Er.
  unfold http, state_of. rewrite <- Er.
  destruct (send _ (remote w)) as [[|st d] r']; cbn.
  - split; [reflexivity | congruence].
  - destruct (_ && _); cbn; (split; [reflexivity | congruence]).
Qed.

Ltac respects_with known :=
  repeat first
    [ known
    | apply respects_ret
    | apply respects_throw
    | apply respects_logger
    | apply respects_query
    | apply respects_persist
    | apply respects_http
    | apply respects_bind; [ | intros ? ]
    | apply respects_try_catch; [ | intros ? ]
    | apply respects_for_each; intros ?; cbv beta
    | match goal with
      | |- respects (let _ := _ in _) => cbv zeta
      | |- respects (match ?x with _ => _ end) => destruct x
      end ].

Lemma respects_createTodoList id : respects (createTodoList id).
Proof.
  unfold createTodoList, findOneListWithTodos, saveList, saveTodo.
  respects_with fail.
Qed.

Lemma respects_createTodoItem id : respects (createTodoItem id).
Proof.
  unfold createTodoItem, findOneTodoWithList, findOneTodo.
  respects_with ltac:(apply respects_createTodoList).
Qed.

Lemma respects_dispatch ev : respects (dispatch ev).
Proof.
  unfold dispatch, updateTodoList, deleteTodoList, updateTodoItem,
    deleteTodoItem, findOneList, findOneTodoWithList.
  respects_with ltac:(first [ apply respects_createTodoList
                            | apply respects_createTodoItem ]).
Qed.

(** Replaying an event through [handleSyncEvent] comes down to replaying
    its handler. *)
Lemma replay_through_handler (ev : SyncEvent) (w : World R) :
  (forall w0, state_of w0 = state_of w ->
     state_of (snd (dispatch ev (snd (dispatch ev w0))))
     = state_of (snd (dispatch ev w0))) ->
  state_of (snd (handleSyncEvent ev (snd (handleSyncEvent ev w))))
  = state_of (snd (handleSyncEvent ev w)).
Proof.
  intros Hidem.
  assert (Hh : forall w1, state_of (snd (handleSyncEvent ev w1))
                          = state_of (snd (dispatch ev (logged w1 [processing ev])))).
  { intros w1. rewrite handleSyncEvent_unfold. unfold try_catch.
    destruct (dispatch ev (logged w1 [processing ev])) as [[a|e] w2];
      reflexivity. }
  rewrite (Hh (snd (handleSyncEvent ev w))), (Hh w).
  set (w0 := logged w [processing ev]).
  assert (E : state_of (logged (snd (handleSyncEvent ev w)) [processing ev])
              = state_of (snd (dispatch ev w0))).
  { change (state_of (logged (snd (handleSyncEvent ev w)) [processing ev]))
      with (state_of (snd (handleSyncEvent ev w))). apply Hh. }
  rewrite (proj2 (@respects_dispatch ev _ _ E)).
  apply Hidem. reflexivity.
Qed.

End Respect.

(** *** Facts on the remote system of the specification *)

Lemma gen_id_inj (a b : Z) : Remote.gen_id a = Remote.gen_id b -> a = b.
Proof.
  unfold Remote.gen_id. cbn. intros E. inversion E. now apply toString_inj.
Qed.

Lemma gen_id_truthy (n : Z) : truthy (Some (Remote.gen_id n)) = true.
Proof. reflexivity. Qed.

Lemma number_items_in n its : forall it,
  In it (Remote.number_items n its) ->
  exists b m, In b its /\ (n <= m)%Z
    /\ it = mkExternalItem (Remote.gen_id m) (Some (ib_source_id b))
              (ib_description b) (ib_completed b).
Proof.
  revert n. induction its as [|b r IH]; intros n it; cbn; [tauto|].
  intros [<-|Hin].
  - exists b, n. repeat split; auto. lia.
  - destruct (IH _ _ Hin) as (b' & m & Hb & Hm & E).
    exists b', m. repeat split; auto. lia.
Qed.

Lemma number_items_nodup n its :
  NoDup (map item_id (Remote.number_items n its)).
Proof.
  revert n. induction its as [|b r IH]; intros n; cbn; constructor; [|apply IH].
  intros Hin. apply in_map_iff in Hin. destruct Hin as (it & Hid & Hin).
  apply number_items_in in Hin. destruct Hin as (b' & m & _ & Hm & ->).
  cbn in Hid. apply gen_id_inj in Hid. lia.
Qed.

Lemma number_items_has n its b :
  In b its ->
  exists it, In it (Remote.number_items n its)
    /\ item_source_id it = Some (ib_source_id b)
    /\ description it = ib_description b
    /\ item_completed it = ib_completed b.
Proof.
  revert n. induction its as [|b' r IH]; intros n; cbn; [tauto|].
  intros [->|Hin].
  - eexists. split; [now left|]. cbn. auto.
  - destruct (IH (n + 1)%Z Hin) as (it & Hit & Hrest).
    exists it. split; [now right | exact Hrest].
Qed.

Lemma nodup_map_inj A B (f : A -> B) (l : list A) x y :
  NoDup (map f l) -> In x l -> In y l -> f x = f y -> x = y.
Proof.
  induction l as [|z r IH]; cbn; [tauto|].
  intros Hnd Hx Hy E. inversion Hnd as [|? ? Hz Hr]; subst.
  destruct Hx as [->|Hx], Hy as [->|Hy]; auto.
  - exfalso. apply Hz. rewrite E. now apply in_map.
  - exfalso. apply Hz. rewrite <- E. now apply in_map.
Qed.

Definition item_body (todo : Todo) : ItemBody :=
  mkItemBody (toString (todo_id todo)) (title todo) (completed todo).

(** The list the remote system makes of a creation request, and its state
    afterwards. *)
Definition pushed (l : TodoList) (s : Store) (st : Remote.State) : ExternalList :=
  mkExternalList (Remote.gen_id (Remote.next_id st))
    (Some (toString (list_id l))) (list_name l)
    (Remote.number_items (Remote.next_id st + 1)
       (map item_body (todos_of (list_id l) s))).

Definition after_push (l : TodoList) (s : Store) (st : Remote.State)
  : Remote.State :=
  Remote.mkState (Remote.rlists st ++ [pushed l s st])
    (Remote.next_id st + 1
     + Z.of_nat (List.length (map item_body (todos_of (list_id l) s)))).

Lemma serve_creation l s st :
  Remote.serve (creation_request l s) st
  = (Reply 201 (ListData (pushed l s st)), after_push l s st).
Proof. reflexivity. Qed.

(** The remote system echoes every todo of the list, with a fresh id. *)
Lemma echoed_pushed l s st t :
  NoDup (map todo_id (todos s)) ->
  In t (todos_of (list_id l) s) ->
  exists it, echoed t (items (pushed l s st)) = Some it
    /\ In it (items (pushed l s st))
    /\ description it = title t
    /\ item_completed it = completed t
    /\ truthy (Some (item_id it)) = true.
Proof.
  intros Hnd Ht. cbn [items pushed].
  set (its := Remote.number_items (Remote.next_id st + 1)
                (map item_body (todos_of (list_id l) s))).
  destruct (number_items_has (Remote.next_id st + 1) _
              (item_body t) (in_map item_body _ _ Ht))
    as (it0 & Hit0 & Hsrc0 & _).
  unfold echoed.
  destruct (find (fun it => source_matches t it) (rev its)) as [it|] eqn:Hf.
  - apply find_some in Hf. destruct Hf as [Hin Hm].
    apply in_rev in Hin. exists it. split; [reflexivity|]. split; [exact Hin|].
    apply source_matches_spec in Hm.
    destruct (number_items_in _ _ _ Hin) as (b & m & Hb & _ & ->).
    apply in_map_iff in Hb. destruct Hb as (t' & <- & Ht').
    cbn in Hm |- *. injection Hm as Hm. apply toString_inj in Hm.
    assert (t' = t).
    { apply todos_of_in in Ht, Ht'. destruct Ht as [Ht _], Ht' as [Ht' _].
      eapply (nodup_map_inj todo_id); eauto. }
    subst t'. auto.
  - exfalso. eapply find_none in Hf; [|apply -> in_rev; exact Hit0].
    unfold source_matches in Hf. rewrite Hsrc0 in Hf. cbn in Hf.
    rewrite String.eqb_refl in Hf. discriminate.
Qed.

(** No list of the remote system has an id that its counter has yet to
    produce. *)
Definition remote_fresh (st : Remote.State) : Prop :=
  forall l m, In l (Remote.rlists st) -> (Remote.next_id st <= m)%Z ->
              ext_id l <> Remote.gen_id m.

Lemma map_id_on A (f : A -> A) (l : list A) :
  (forall x, In x l -> f x = x) -> map f l = l.
Proof.
  induction l as [|x r IH]; cbn; intros Hf; [reflexivity|].
  rewrite Hf by now left. f_equal. apply IH. intros y Hy. apply Hf. now right.
Qed.

Lemma external_list_eta l :
  mkExternalList (ext_id l) (source_id l) (ext_name l) (items l) = l.
Proof. now destruct l. Qed.

Lemma external_item_eta it :
  mkExternalItem (item_id it) (item_source_id it) (description it)
                 (item_completed it) = it.
Proof. now destruct it. Qed.

(** Patching the list just created with the name it was created with
    changes nothing. *)
Lemma serve_patch_pushed_list l s st :
  remote_fresh st ->
  Remote.serve
    (mkRequest PATCH ["todolists"; ext_id (pushed l s st)]
               (ListPatchBody (list_name l)))
    (after_push l s st)
  = (Reply 200 NoData, after_push l s st).
Proof.
  intros Hfr. unfold Remote.serve. cbn [method url body].
  assert (Hhas : Remote.has_list (ext_id (pushed l s st)) (after_push l s st) = true).
  { unfold Remote.has_list, after_push. cbn [Remote.rlists].
    rewrite existsb_app. cbn. rewrite String.eqb_refl. now rewrite orb_true_r. }
  rewrite Hhas. f_equal.
  assert (Hmap : map (Remote.patch_list (ext_id (pushed l s st)) (list_name l))
                   (Remote.rlists (after_push l s st))
                 = Remote.rlists (after_push l s st)).
  { unfold after_push. cbn [Remote.rlists]. rewrite map_app. f_equal.
    - apply map_id_on. intros l0 Hl0. unfold Remote.patch_list.
      destruct (String.eqb_spec (ext_id l0) (ext_id (pushed l s st))) as [E|_];
        [|reflexivity].
      exfalso. eapply Hfr; [exact Hl0| |exact E]. lia.
    - cbn [map]. unfold Remote.patch_list. rewrite String.eqb_refl.
      reflexivity. }
  rewrite Hmap. reflexivity.
Qed.

(** Patching an item of the list just created with the fields it was
    created with changes nothing. *)
Lemma serve_patch_pushed_item l s st it :
  remote_fresh st ->
  In it (items (pushed l s st)) ->
  Remote.serve
    (mkRequest PATCH ["todolists"; ext_id (pushed l s st);
                      "todoitems"; item_id it]
               (ItemPatchBody (description it) (item_completed it)))
    (after_push l s st)
  = (Reply 200 NoData, after_push l s st).
Proof.
  intros Hfr Hit. unfold Remote.serve. cbn [method url body].
  assert (Hhas : Remote.has_item (ext_id (pushed l s st)) (item_id it)
                   (after_push l s st) = true).
  { unfold Remote.has_item, after_push. cbn [Remote.rlists].
    rewrite existsb_app. cbn [existsb]. rewrite String.eqb_refl.
    assert (He : existsb (fun it0 => (item_id it0 =? item_id it)%string)
                   (items (pushed l s st)) = true).
    { apply existsb_exists. exists it. split; [exact Hit | apply String.eqb_refl]. }
    rewrite He. cbn. now rewrite orb_true_r. }
  rewrite Hhas. f_equal.
  assert (Hitems : map (Remote.patch_item (item_id it) (description it)
                          (item_completed it))
                     (items (pushed l s st))
                   = items (pushed l s st)).
  { apply map_id_on. intros it' Hit'. unfold Remote.patch_item.
    destruct (String.eqb_spec (item_id it') (item_id it)) as [E|_];
      [|reflexivity].
    assert (it' = it).
    { eapply (nodup_map_inj item_id); eauto. apply number_items_nodup. }
    subst it'. apply external_item_eta. }
  assert (Hmap : map (Remote.on_items (ext_id (pushed l s st))
                        (map (Remote.patch_item (item_id it) (description it)
                                (item_completed it))))
                   (Remote.rlists (after_push l s st))
                 = Remote.rlists (after_push l s st)).
  { unfold after_push. cbn [Remote.rlists]. rewrite map_app. f_equal.
    - apply map_id_on. intros l0 Hl0. unfold Remote.on_items.
      destruct (String.eqb_spec (ext_id l0) (ext_id (pushed l s st))) as [E|_];
        [|reflexivity].
      exfalso. eapply Hfr; [exact Hl0| |exact E]. lia.
    - cbn [map]. f_equal. unfold Remote.on_items. rewrite String.eqb_refl.
      rewrite Hitems. apply external_list_eta. }
  rewrite Hmap. reflexivity.
Qed.

(** The update and delete requests of the handlers, served twice, leave
    the remote system as served once. *)
Definition served (req : Request) (st : Remote.State) : Remote.State :=
  snd (Remote.serve req st).

Lemma patch_list_id e name l : ext_id (Remote.patch_list e name l) = ext_id l.
Proof. unfold Remote.patch_list. destruct (_ =? _)%string; reflexivity. Qed.

Lemma patch_list_twice e name l :
  Remote.patch_list e name (Remote.patch_list e name l)
  = Remote.patch_list e name l.
Proof.
  unfold Remote.patch_list.
  destruct (String.eqb_spec (ext_id l) e) as [E|E]; cbn.
  - rewrite E, String.eqb_refl. reflexivity.
  - destruct (String.eqb_spec (ext_id l) e); [contradiction | reflexivity].
Qed.

Lemma patch_item_id i d c it : item_id (Remote.patch_item i d c it) = item_id it.
Proof. unfold Remote.patch_item. destruct (_ =? _)%string; reflexivity. Qed.

Lemma patch_item_twice i d c it :
  Remote.patch_item i d c (Remote.patch_item i d c it)
  = Remote.patch_item i d c it.
Proof.
  unfold Remote.patch_item.
  destruct (String.eqb_spec (item_id it) i) as [E|E]; cbn.
  - rewrite E, String.eqb_refl. reflexivity.
  - destruct (String.eqb_spec (item_id it) i); [contradiction | reflexivity].
Qed.

Lemma on_items_id e f l : ext_id (Remote.on_items e f l) = ext_id l.
Proof. unfold Remote.on_items. destruct (_ =? _)%string; reflexivity. Qed.

Lemma on_items_twice e f l :
  (forall its, f (f its) = f its) ->
  Remote.on_items e f (Remote.on_items e f l) = Remote.on_items e f l.
Proof.
  intros Hf. unfold Remote.on_items.
  destruct (String.eqb_spec (ext_id l) e) as [E|E]; cbn.
  - rewrite E, String.eqb_refl, Hf. reflexivity.
  - destruct (String.eqb_spec (ext_id l) e); [contradiction | reflexivity].
Qed.

Lemma map_twice A (f : A -> A) (l : list A) :
  (forall x, f (f x) = f x) -> map f (map f l) = map f l.
Proof. intros Hf. rewrite map_map. apply map_ext. exact Hf. Qed.

Lemma filter_twice A (p : A -> bool) (l : list A) :
  filter p (filter p l) = filter p l.
Proof.
  induction l as [|x r IH]; cbn; [reflexivity|].
  destruct (p x) eqn:E; cbn; [rewrite E; now f_equal | exact IH].
Qed.

Lemma served_patch_list_twice e name st :
  let req := mkRequest PATCH ["todolists"; e] (ListPatchBody name) in
  served req (served req st) = served req st.
Proof.
  cbv zeta. unfold served, Remote.serve. cbn [method url body].
  destruct (Remote.has_list e st) eqn:Hh; cbn [snd Remote.not_found].
  - assert (Hh' : Remote.has_list e
                    (Remote.mkState (map (Remote.patch_list e name) (Remote.rlists st))
                                    (Remote.next_id st)) = true).
    { unfold Remote.has_list in *. cbn [Remote.rlists].
      rewrite existsb_exists in Hh |- *. destruct Hh as (l & Hl & He).
      exists (Remote.patch_list e name l). split; [now apply in_map|].
      now rewrite patch_list_id. }
    rewrite Hh'. cbn [snd Remote.rlists Remote.next_id].
    f_equal. apply map_twice. apply patch_list_twice.
  - now rewrite Hh.
Qed.

Lemma served_delete_list_twice e b st :
  let req := mkRequest DELETE ["todolists"; e] b in
  served req (served req st) = served req st.
Proof.
  cbv zeta. unfold served, Remote.serve. cbn [method url body].
  destruct (Remote.has_list e st) eqn:Hh; cbn [snd Remote.not_found].
  - assert (Hh' : Remote.has_list e
                    (Remote.mkState
                       (filter (fun l => negb (ext_id l =? e)%string) (Remote.rlists st))
                       (Remote.next_id st)) = false).
    { unfold Remote.has_list. cbn [Remote.rlists].
      apply not_true_is_false. intros Hex. apply existsb_exists in Hex.
      destruct Hex as (l & Hl & He). apply filter_In in Hl.
      destruct Hl as [_ Hn]. rewrite He in Hn. discriminate. }
    rewrite Hh'. reflexivity.
  - now rewrite Hh.
Qed.

Lemma has_item_patched e i d c ls n :
  Remote.has_item e i
    (Remote.mkState
       (map (Remote.on_items e (map (Remote.patch_item i d c))) ls) n)
  = Remote.has_item e i (Remote.mkState ls n).
Proof.
  unfold Remote.has_item. cbn [Remote.rlists].
  induction ls as [|l r IH]; cbn [map existsb]; [reflexivity|].
  rewrite IH. f_equal. rewrite on_items_id. f_equal.
  unfold Remote.on_items. destruct (ext_id l =? e)%string; [|reflexivity].
  cbn [items]. induction (items l) as [|it its IHi]; cbn [map existsb];
    [reflexivity|].
  now rewrite IHi, patch_item_id.
Qed.

Lemma served_patch_item_twice e i d c st :
  let req := mkRequest PATCH ["todolists"; e; "todoitems"; i]
               (ItemPatchBody d c) in
  served req (served req st) = served req st.
Proof.
  cbv zeta. unfold served, Remote.serve. cbn [method url body].
  destruct (Remote.has_item e i st) eqn:Hh; cbn [snd Remote.not_found].
  - rewrite has_item_patched.
    assert (Hst : Remote.mkState (Remote.rlists st) (Remote.next_id st) = st)
      by now destruct st.
    rewrite Hst, Hh. cbn [snd Remote.rlists Remote.next_id].
    f_equal. apply map_twice. intros l. apply on_items_twice.
    intros its. apply map_twice. apply patch_item_twice.
  - now rewrite Hh.
Qed.

Lemma served_delete_item_twice e i b st :
  let req := mkRequest DELETE ["todolists"; e; "todoitems"; i] b in
  served req (served req st) = served req st.
Proof.
  cbv zeta. unfold served, Remote.serve. cbn [method url body].
  destruct (Remote.has_item e i st) eqn:Hh; cbn [snd Remote.not_found].
  - assert (Hh' : Remote.has_item e i
                    (Remote.mkState
                       (map (Remote.on_items e
                               (filter (fun it => negb (item_id it =? i)%string)))
                            (Remote.rlists st))
                       (Remote.next_id st)) = false).
    { unfold Remote.has_item. cbn [Remote.rlists].
      apply not_true_is_false. intros Hex. apply existsb_exists in Hex.
      destruct Hex as (l & Hl & He). apply in_map_iff in Hl.
      destruct Hl as (l0 & <- & _). apply andb_true_iff in He.
      destruct He as [He1 He2]. rewrite on_items_id in He1.
      unfold Remote.on_items in He2. rewrite He1 in He2. cbn [items] in He2.
      apply existsb_exists in He2. destruct He2 as (it & Hit & Hi).
      apply filter_In in Hit. destruct Hit as [_ Hn]. rewrite Hi in Hn.
      discriminate. }
    rewrite Hh'. reflexivity.
  - now rewrite Hh.
Qed.

(** *** The effect of a handler on the two systems *)

Section Replay.

Definition State : Type := (Store * Remote.State)%type.

(** A request served by the remote system, the store being left alone. *)
Definition call (req : Request) (x : State) : State :=
  (fst x, served req (snd x)).

(** The list-creation flow carried through: the list is created remotely,
    the returned list id and the echoed item ids are stored. *)
Definition push (l : TodoList) (x : State) : State :=
  (fold_left (echo (todos_of (list_id l) (fst x)))
     (items (pushed l (fst x) (snd x)))
     (store_save_list
        (set_list_external_id l (Some (ext_id (pushed l (fst x) (snd x)))))
        (fst x)),
   after_push l (fst x) (snd x)).

Definition effect_createTodoList (id : Z) (x : State) : State :=
  match lookup_list id (fst x) with
  | Some l => if truthy (list_external_id l) then x else push l x
  | None => x
  end.

Definition effect_updateTodoList (id : Z) (x : State) : State :=
  match lookup_list id (fst x) with
  | Some l =>
      if negb (truthy (list_external_id l)) then effect_createTodoList id x
      else call (mkRequest PATCH ["todolists"; show (list_external_id l)]
                           (ListPatchBody (list_name l))) x
  | None => x
  end.

Definition effect_deleteTodoList (id : Z) (x : State) : State :=
  match lookup_list id (fst x) with
  | Some l =>
      if negb (truthy (list_external_id l)) then x
      else call (mkRequest DELETE ["todolists"; show (list_external_id l)]
                           NoBody) x
  | None => x
  end.

Definition effect_createTodoItem (id : Z) (x : State) : State :=
  match lookup_todo id (fst x) with
  | Some todo =>
      match todoList_of todo (fst x) with
      | Some l =>
          if truthy (todo_external_id todo) then x
          else if negb (truthy (list_external_id l))
               then effect_createTodoList (list_id l) x
               else x
      | None => x
      end
  | None => x
  end.

Definition item_patch (e i : option string) (todo : Todo) : Request :=
  mkRequest PATCH ["todolists"; show e; "todoitems"; show i]
            (ItemPatchBody (title todo) (completed todo)).

Definition effect_updateTodoItem (id : Z) (x : State) : State :=
  match lookup_todo id (fst x) with
  | Some todo =>
      match todoList_of todo (fst x) with
      | Some l =>
          if negb (truthy (todo_external_id todo))
          then effect_createTodoItem id x
          else if negb (truthy (list_external_id l)) then
            let x1 := effect_createTodoList (list_id l) x in
            match lookup_todo id (fst x1) with
            | Some t1 =>
                if negb (truthy (todo_external_id t1)) then x1
                else
                  match todoList_of t1 (fst x1) with
                  | Some l1 =>
                      call (item_patch (list_external_id l1)
                                       (todo_external_id t1) todo) x1
                  | None => x1
                  end
            | None => x1
            end
          else call (item_patch (list_external_id l)
                                (todo_external_id todo) todo) x
      | None => x
      end
  | None => x
  end.

Definition effect_deleteTodoItem (id : Z) (x : State) : State :=
  match lookup_todo id (fst x) with
  | Some todo =>
      if negb (truthy (todo_external_id todo)) then x
      else
        let e := match todoList_of todo (fst x) with
                 | Some l => list_external_id l
                 | None => None
                 end in
        if negb (truthy e) then x
        else call (mkRequest DELETE ["todolists"; show e; "todoitems";
                                     show (todo_external_id todo)] NoBody) x
  | None => x
  end.

Definition effect (ev : SyncEvent) (x : State) : State :=
  let ty := event_type ev in
  let id := payload_id ev in
  if String.eqb ty CREATE_TODO_LIST then effect_createTodoList id x
  else if String.eqb ty UPDATE_TODO_LIST then effect_updateTodoList id x
  else if String.eqb ty DELETE_TODO_LIST then effect_deleteTodoList id x
  else if String.eqb ty CREATE_TODO_ITEM then effect_createTodoItem id x
  else if String.eqb ty UPDATE_TODO_ITEM then effect_updateTodoItem id x
  else if String.eqb ty DELETE_TODO_ITEM then effect_deleteTodoItem id x
  else x.

(** A world in the state [x], with a database that accepts the writes. *)
Definition at_state (x : State) (w : World Remote.State) : Prop :=
  db w = fst x /\ faults w = None /\ remote w = snd x.

Definition same_state (w w' : World Remote.State) : Prop :=
  state_of w' = state_of w.

Lemma same_state_refl w : same_state w w.
Proof. reflexivity. Qed.

Lemma same_state_trans a b c :
  same_state a b -> same_state b c -> same_state a c.
Proof. unfold same_state. congruence. Qed.

Lemma same_state_logger lv s : guarantees same_state (logger lv s).
Proof. intros w. reflexivity. Qed.

Ltac still_with known :=
  repeat first
    [ known
    | apply same_state_logger
    | frame_step same_state_refl same_state_trans ].

Lemma at_state_same x w w' :
  at_state x w -> same_state w w' -> at_state x w'.
Proof.
  unfold at_state, same_state, state_of. intros (Hd & Hf & Hr) E.
  injection E as Ed Ef Er. repeat split; congruence.
Qed.

(** A block [try { await http...; log } catch { log; maybe rethrow }]. *)
Lemma call_block A m u b (k : Data -> M A) (h : Error -> M A) x w :
  (forall d, guarantees same_state (k d)) ->
  (forall e, guarantees same_state (h e)) ->
  at_state x w ->
  at_state (call (mkRequest m u b) x) (snd (try_catch (bind (http m u b) k) h w)).
Proof.
  intros Hk Hh (Hd & Hf & Hr). rewrite try_catch_bind. unfold http.
  change (@send Remote.State Remote.client) with Remote.serve.
  unfold call, served. rewrite <- Hr.
  destruct (Remote.serve (mkRequest m u b) (remote w)) as [resp r'].
  set (w1 := mkWorld (db w) (faults w) r' (requests w ++ [mkRequest m u b])
               (log w) (acks w)).
  assert (H1 : at_state (fst x, r') w1) by (repeat split; auto).
  cbn [snd].
  destruct resp as [|st d].
  - eapply at_state_same; [exact H1 | apply Hh].
  - destruct (_ && _).
    + unfold try_catch. pose proof (Hk d w1) as Hq.
      destruct (k d w1) as [[a|e] w2]; cbn [snd] in *.
      * eapply at_state_same; [exact H1 | exact Hq].
      * eapply at_state_same; [exact H1|].
        eapply same_state_trans; [exact Hq | apply Hh].
    + eapply at_state_same; [exact H1 | apply Hh].
Qed.

Lemma createTodoList_effect id x w :
  at_state x w ->
  at_state (effect_createTodoList id x) (snd (createTodoList id w))
  /\ (forall l, lookup_list id (fst x) = Some l ->
        truthy (list_external_id l) = false ->
        fst (createTodoList id w) = Return tt).
Proof.
  intros Hx. pose proof Hx as (Hd & Hf & Hr). unfold effect_createTodoList.
  rewrite <- Hd.
  destruct (lookup_list id (db w)) as [l|] eqn:Hl.
  - destruct (truthy (list_external_id l)) eqn:Ht.
    + split; [|intros l0 [= <-]; congruence].
      unfold createTodoList, bind, findOneListWithTodos, query.
      rewrite Hl. cbn [option_map]. rewrite Ht.
      eapply at_state_same; [exact Hx | apply same_state_logger].
    + assert (Hrun := @createTodoList_run Remote.State _ id w l 201
                        (pushed l (db w) (remote w))
                        (after_push l (db w) (remote w))
                        Hf Hl Ht (serve_creation l (db w) (remote w)) eq_refl).
      rewrite Hrun. split; [|reflexivity].
      unfold at_state, push. cbn [db faults remote fst snd].
      pose proof (by_key_key _ _ _ Hl) as [Hid _].
      rewrite <- Hd, <- Hr. auto.
  - split; [|intros l0; discriminate].
    unfold createTodoList, bind, findOneListWithTodos, query.
    rewrite Hl. cbn. exact Hx.
Qed.

Lemma at_state_logged x w entries :
  at_state x w -> at_state x (logged w entries).
Proof. intros Hx. exact Hx. Qed.

Lemma updateTodoList_effect id x w :
  at_state x w ->
  at_state (effect_updateTodoList id x) (snd (updateTodoList id w)).
Proof.
  intros Hx. pose proof Hx as (Hd & Hf & Hr). unfold effect_updateTodoList.
  rewrite <- Hd. unfold updateTodoList. unfold bind at 1. unfold findOneList, query.
  destruct (lookup_list id (db w)) as [l|] eqn:Hl; [|exact Hx].
  destruct (negb (truthy (list_external_id l))).
  - unfold bind, logger.
    match goal with
    | |- context [createTodoList id ?w1] =>
        apply (proj1 (@createTodoList_effect id x w1 Hx))
    end.
  - apply call_block; [| |exact Hx].
    + intros d. still_with fail.
    + intros e. still_with fail.
Qed.

Lemma deleteTodoList_effect id x w :
  at_state x w ->
  at_state (effect_deleteTodoList id x) (snd (deleteTodoList id w)).
Proof.
  intros Hx. pose proof Hx as (Hd & Hf & Hr). unfold effect_deleteTodoList.
  rewrite <- Hd. unfold deleteTodoList. unfold bind at 1. unfold findOneList, query.
  destruct (lookup_list id (db w)) as [l|] eqn:Hl; [|exact Hx].
  destruct (negb (truthy (list_external_id l))).
  - exact Hx.
  - apply call_block; [| |exact Hx].
    + intros d. still_with fail.
    + intros e. still_with fail.
Qed.

Lemma after_list_sync_state id (w : World Remote.State) :
  same_state w (snd (after_list_sync id w)).
Proof.
  destruct (after_list_sync_run id w) as [entries ->]. reflexivity.
Qed.

Lemma createTodoItem_effect id x w :
  at_state x w ->
  at_state (effect_createTodoItem id x) (snd (createTodoItem id w)).
Proof.
  intros Hx. pose proof Hx as (Hd & Hf & Hr). unfold effect_createTodoItem.
  rewrite <- Hd.
  destruct (lookup_todo id (db w)) as [todo|] eqn:Ht.
  2:{ unfold createTodoItem, bind, findOneTodoWithList, query. rewrite Ht.
      exact Hx. }
  destruct (todoList_of todo (db w)) as [l|] eqn:Hl.
  2:{ unfold createTodoItem, bind, findOneTodoWithList, query. rewrite Ht.
      cbn [option_map]. rewrite Hl. exact Hx. }
  destruct (truthy (todo_external_id todo)) eqn:Htt.
  { unfold createTodoItem, bind, findOneTodoWithList, query. rewrite Ht.
    cbn [option_map]. rewrite Hl, Htt. exact Hx. }
  destruct (truthy (list_external_id l)) eqn:Hlt; cbn [negb].
  { rewrite (createTodoItem_synced_list _ _ Ht Hl Hlt Htt). exact Hx. }
  rewrite (createTodoItem_unsynced_list _ _ Ht Hl Htt Hlt).
  unfold bind.
  match goal with
  | |- context [createTodoList (list_id l) ?w1] =>
      pose proof (proj1 (@createTodoList_effect (list_id l) x w1 Hx)) as Hc;
      destruct (createTodoList (list_id l) w1) as [[[]|e] w2]
  end; cbn [snd] in *.
  - eapply at_state_same; [exact Hc | apply after_list_sync_state].
  - exact Hc.
Qed.

Lemma updateTodoItem_effect id x w :
  at_state x w ->
  at_state (effect_updateTodoItem id x) (snd (updateTodoItem id w)).
Proof.
  intros Hx. pose proof Hx as (Hd & Hf & Hr). unfold effect_updateTodoItem.
  rewrite <- Hd. unfold updateTodoItem. unfold bind at 1.
  unfold findOneTodoWithList at 1. unfold query at 1.
  destruct (lookup_todo id (db w)) as [todo|] eqn:Ht; cbn [option_map];
    [|exact Hx].
  destruct (todoList_of todo (db w)) as [l|] eqn:Hl; [|exact Hx].
  destruct (negb (truthy (todo_external_id todo))).
  { unfold bind, logger.
    match goal with
    | |- context [createTodoItem id ?w1] =>
        apply (@createTodoItem_effect id x w1 Hx)
    end. }
  destruct (truthy (list_external_id l)) eqn:Hlt; cbn [negb].
  { unfold bind at 1. cbn [ret].
    apply call_block; [| |exact Hx].
    - intros d. still_with fail.
    - intros e. still_with fail. }
  destruct (@todoList_of_row _ _ _ Hl) as (_ & Hlrow & _).
  assert (Hl' : lookup_list (list_id l) (fst x) = Some l)
    by (rewrite <- Hd; exact Hlrow).
  unfold bind at 1. unfold bind at 1. unfold logger at 1. unfold bind at 1.
  match goal with
  | |- context [createTodoList (list_id l) ?w1] =>
      destruct (@createTodoList_effect (list_id l) x w1 Hx) as [Hc Hret];
      specialize (Hret l Hl' Hlt);
      destruct (createTodoList (list_id l) w1) as [[[]|e] w2];
      [|discriminate]
  end.
  cbn [snd] in Hc. set (x1 := effect_createTodoList (list_id l) x) in *.
  cbv zeta. pose proof Hc as (Hd2 & Hf2 & Hr2). rewrite <- Hd2.
  unfold bind at 1. unfold findOneTodoWithList, query.
  destruct (lookup_todo id (db w2)) as [t1|] eqn:Ht1; cbn [option_map];
    [|exact Hc].
  destruct (negb (truthy (todo_external_id t1))); [exact Hc|].
  destruct (todoList_of t1 (db w2)) as [l1|] eqn:Hl1; [|exact Hc].
  cbn [ret]. unfold item_patch.
  apply call_block; [| |exact Hc].
  - intros d. still_with fail.
  - intros e. still_with fail.
Qed.

Lemma deleteTodoItem_effect id x w :
  at_state x w ->
  at_state (effect_deleteTodoItem id x) (snd (deleteTodoItem id w)).
Proof.
  intros Hx. pose proof Hx as (Hd & Hf & Hr). unfold effect_deleteTodoItem.
  rewrite <- Hd. unfold deleteTodoItem. unfold bind at 1.
  unfold findOneTodoWithList, query.
  destruct (lookup_todo id (db w)) as [todo|] eqn:Ht; cbn [option_map];
    [|exact Hx].
  destruct (negb (truthy (todo_external_id todo))); [exact Hx|].
  cbv zeta.
  destruct (negb (truthy match todoList_of todo (db w) with
                         | Some l => list_external_id l
                         | None => None
                         end)); [exact Hx|].
  apply call_block; [| |exact Hx].
  - intros d. still_with fail.
  - intros e. still_with fail.
Qed.

Lemma dispatch_effect ev x w :
  at_state x w -> at_state (effect ev x) (snd (dispatch ev w)).
Proof.
  intros Hx. unfold dispatch, effect. cbv zeta.
  repeat match goal with
  | |- context [String.eqb (event_type ev) ?c] =>
      destruct (String.eqb (event_type ev) c)
  end.
  - now apply (proj1 (createTodoList_effect _ Hx)).
  - now apply updateTodoList_effect.
  - now apply deleteTodoList_effect.
  - now apply createTodoItem_effect.
  - now apply updateTodoItem_effect.
  - now apply deleteTodoItem_effect.
  - exact Hx.
Qed.

(** *** Handling an event twice *)

Lemma push_lookup_list l x k :
  lookup_list k (fst (push l x))
  = if (list_id l =? k)%Z
    then Some (set_list_external_id l
                 (Some (ext_id (pushed l (fst x) (snd x)))))
    else lookup_list k (fst x).
Proof.
  unfold push. cbn [fst]. unfold lookup_list. rewrite echo_lists.
  unfold store_save_list. cbn [lists].
  change (find (fun l0 => (list_id l0 =? k)%Z)) with (by_key list_id k).
  now rewrite by_key_upsert.
Qed.

Lemma push_lookup_todo l x j t :
  NoDup (map todo_id (todos (fst x))) ->
  lookup_todo j (fst x) = Some t ->
  lookup_todo j (fst (push l x))
  = Some (after_echo (list_id l) (pushed l (fst x) (snd x)) t).
Proof.
  intros Hnd Ht. unfold push. cbn [fst].
  rewrite (@echo_lookup (fst x) (list_id l) _ _ j t Hnd Ht).
  unfold after_echo.
  destruct (if belongs_to (list_id l) t then _ else None);
    [reflexivity | exact Ht].
Qed.

Lemma after_echo_pushed l s st t :
  NoDup (map todo_id (todos s)) ->
  In t (todos s) -> todoListId t = Some (list_id l) ->
  exists it,
    after_echo (list_id l) (pushed l s st) t
    = set_todo_external_id t (Some (item_id it))
    /\ In it (items (pushed l s st))
    /\ description it = title t
    /\ item_completed it = completed t
    /\ truthy (Some (item_id it)) = true.
Proof.
  intros Hnd Hin Hk.
  assert (Hof : In t (todos_of (list_id l) s)) by now apply todos_of_intro.
  assert (Hb : belongs_to (list_id l) t = true) by now apply belongs_to_spec.
  destruct (@echoed_pushed l s st t Hnd Hof) as (it & He & Hit & Hd & Hc & Htr).
  exists it. unfold after_echo. rewrite Hb, He. auto.
Qed.

Lemma pushed_truthy l s st : truthy (Some (ext_id (pushed l s st))) = true.
Proof. unfold pushed. cbn [ext_id]. apply gen_id_truthy. Qed.

Lemma call_twice req x :
  served req (served req (snd x)) = served req (snd x) ->
  call req (call req x) = call req x.
Proof. intros E. unfold call. cbn [fst snd]. now rewrite E. Qed.

Lemma effect_createTodoList_pushed id l x :
  lookup_list id (fst x) = Some l ->
  effect_createTodoList id (push l x) = push l x.
Proof.
  intros Hl. pose proof (by_key_key _ _ _ Hl) as [Hid _].
  unfold effect_createTodoList. rewrite push_lookup_list, Hid, Z.eqb_refl.
  reflexivity.
Qed.

Lemma effect_createTodoList_twice id x :
  effect_createTodoList id (effect_createTodoList id x)
  = effect_createTodoList id x.
Proof.
  destruct (lookup_list id (fst x)) as [l|] eqn:Hl.
  - destruct (truthy (list_external_id l)) eqn:Ht.
    + assert (E : effect_createTodoList id x = x)
        by (unfold effect_createTodoList; now rewrite Hl, Ht).
      now rewrite !E.
    + assert (E : effect_createTodoList id x = push l x)
        by (unfold effect_createTodoList; now rewrite Hl, Ht).
      rewrite !E. now apply effect_createTodoList_pushed.
  - assert (E : effect_createTodoList id x = x)
      by (unfold effect_createTodoList; now rewrite Hl).
    now rewrite !E.
Qed.

Lemma effect_updateTodoList_twice id x :
  remote_fresh (snd x) ->
  effect_updateTodoList id (effect_updateTodoList id x)
  = effect_updateTodoList id x.
Proof.
  intros Hfr.
  destruct (lookup_list id (fst x)) as [l|] eqn:Hl.
  2:{ assert (E : effect_updateTodoList id x = x)
        by (unfold effect_updateTodoList; now rewrite Hl).
      now rewrite !E. }
  pose proof (by_key_key _ _ _ Hl) as [Hid _].
  destruct (truthy (list_external_id l)) eqn:Ht.
  - set (req := mkRequest PATCH ["todolists"; show (list_external_id l)]
                          (ListPatchBody (list_name l))).
    assert (E : forall y, fst y = fst x -> effect_updateTodoList id y = call req y).
    { intros y Hy. unfold effect_updateTodoList. now rewrite Hy, Hl, Ht. }
    rewrite (E x eq_refl), (E (call req x) eq_refl).
    apply call_twice. apply served_patch_list_twice.
  - assert (E : effect_updateTodoList id x = push l x).
    { unfold effect_updateTodoList, effect_createTodoList. now rewrite Hl, Ht. }
    rewrite !E.
    unfold effect_updateTodoList. rewrite push_lookup_list, Hid, Z.eqb_refl.
    cbn [list_external_id list_name set_list_external_id].
    rewrite pushed_truthy. cbn [negb show].
    unfold call. unfold push at 1 2. cbn [fst snd]. unfold served.
    rewrite (@serve_patch_pushed_list l (fst x) (snd x) Hfr). reflexivity.
Qed.

Lemma effect_deleteTodoList_twice id x :
  effect_deleteTodoList id (effect_deleteTodoList id x)
  = effect_deleteTodoList id x.
Proof.
  destruct (lookup_list id (fst x)) as [l|] eqn:Hl.
  2:{ assert (E : effect_deleteTodoList id x = x)
        by (unfold effect_deleteTodoList; now rewrite Hl).
      now rewrite !E. }
  destruct (truthy (list_external_id l)) eqn:Ht.
  - set (req := mkRequest DELETE ["todolists"; show (list_external_id l)] NoBody).
    assert (E : forall y, fst y = fst x -> effect_deleteTodoList id y = call req y).
    { intros y Hy. unfold effect_deleteTodoList. now rewrite Hy, Hl, Ht. }
    rewrite (E x eq_refl), (E (call req x) eq_refl).
    apply call_twice. apply served_delete_list_twice.
  - assert (E : effect_deleteTodoList id x = x)
      by (unfold effect_deleteTodoList; now rewrite Hl, Ht).
    now rewrite !E.
Qed.

Lemma after_echo_keeps k el t :
  todoListId (after_echo k el t) = todoListId t
  /\ title (after_echo k el t) = title t
  /\ completed (after_echo k el t) = completed t.
Proof.
  unfold after_echo.
  destruct (if belongs_to k t then echoed t (items el) else None);
    auto.
Qed.

Lemma effect_createTodoItem_pushed id l x todo :
  NoDup (map todo_id (todos (fst x))) ->
  lookup_todo id (fst x) = Some todo ->
  todoList_of todo (fst x) = Some l ->
  effect_createTodoItem id (push l x) = push l x.
Proof.
  intros Hnd Ht Hl. destruct (@todoList_of_row _ _ _ Hl) as (Hfk & Hlrow & _).
  unfold effect_createTodoItem.
  rewrite (@push_lookup_todo l x id todo Hnd Ht).
  unfold todoList_of. rewrite (proj1 (after_echo_keeps _ _ _)), Hfk.
  rewrite push_lookup_list, Z.eqb_refl.
  cbn [list_external_id set_list_external_id]. rewrite pushed_truthy.
  cbn [negb]. destruct (truthy _); reflexivity.
Qed.

Lemma effect_createTodoItem_cases id x :
  effect_createTodoItem id x = x
  \/ exists todo l,
       lookup_todo id (fst x) = Some todo
       /\ todoList_of todo (fst x) = Some l
       /\ effect_createTodoItem id x = push l x.
Proof.
  unfold effect_createTodoItem.
  destruct (lookup_todo id (fst x)) as [todo|] eqn:Ht; [|now left].
  destruct (todoList_of todo (fst x)) as [l|] eqn:Hl; [|now left].
  destruct (truthy (todo_external_id todo)); [now left|].
  destruct (truthy (list_external_id l)) eqn:Hlt; cbn [negb]; [now left|].
  destruct (@todoList_of_row _ _ _ Hl) as (Hfk & Hlrow & _).
  right. exists todo, l. repeat split; auto.
  unfold effect_createTodoList. now rewrite Hlrow, Hlt.
Qed.

Lemma effect_createTodoItem_twice id x :
  NoDup (map todo_id (todos (fst x))) ->
  effect_createTodoItem id (effect_createTodoItem id x)
  = effect_createTodoItem id x.
Proof.
  intros Hnd.
  destruct (effect_createTodoItem_cases id x) as [E|(todo & l & Ht & Hl & E)].
  - now rewrite !E.
  - rewrite !E. now apply (@effect_createTodoItem_pushed id l x todo).
Qed.

Lemma pushed_item_patch l x todo :
  remote_fresh (snd x) ->
  NoDup (map todo_id (todos (fst x))) ->
  lookup_todo (todo_id todo) (fst x) = Some todo ->
  todoListId todo = Some (list_id l) ->
  forall t,
    title t = title todo -> completed t = completed todo ->
    let t1 := after_echo (list_id l) (pushed l (fst x) (snd x)) todo in
    truthy (todo_external_id t1) = true
    /\ call (item_patch (Some (ext_id (pushed l (fst x) (snd x))))
                        (todo_external_id t1) t)
            (push l x)
       = push l x.
Proof.
  intros Hfr Hnd Ht Hk t Htt Htc t1.
  pose proof (by_key_key _ _ _ Ht) as [_ Hin].
  destruct (@after_echo_pushed l (fst x) (snd x) todo Hnd Hin Hk)
    as (it & He & Hit & Hd & Hc & Htr).
  unfold t1. rewrite He. cbn [todo_external_id set_todo_external_id].
  split; [exact Htr|].
  unfold call, item_patch. cbn [show]. rewrite Htt, Htc, <- Hd, <- Hc.
  unfold push at 1 2. cbn [fst snd]. unfold served.
  rewrite (@serve_patch_pushed_item l (fst x) (snd x) it Hfr Hit). reflexivity.
Qed.

Lemma effect_updateTodoItem_pushed id l x todo :
  remote_fresh (snd x) ->
  NoDup (map todo_id (todos (fst x))) ->
  lookup_todo id (fst x) = Some todo ->
  todoList_of todo (fst x) = Some l ->
  effect_updateTodoItem id (push l x) = push l x.
Proof.
  intros Hfr Hnd Ht Hl.
  destruct (@todoList_of_row _ _ _ Hl) as (Hfk & Hlrow & _).
  pose proof (by_key_key _ _ _ Ht) as [Htid _].
  assert (Ht' : lookup_todo (todo_id todo) (fst x) = Some todo)
    by now rewrite Htid.
  destruct (after_echo_keeps (list_id l) (pushed l (fst x) (snd x)) todo)
    as (Hk & Hft & Hfc).
  unfold effect_updateTodoItem.
  rewrite (@push_lookup_todo l x id todo Hnd Ht). unfold todoList_of.
  rewrite Hk, Hfk, push_lookup_list, Z.eqb_refl.
  destruct (@pushed_item_patch l x todo Hfr Hnd Ht' Hfk
              (after_echo (list_id l) (pushed l (fst x) (snd x)) todo)
              Hft Hfc) as [Htr Hcall].
  cbv zeta in Htr, Hcall. rewrite Htr. cbn [negb].
  cbn [list_external_id set_list_external_id]. rewrite pushed_truthy.
  cbn [negb]. exact Hcall.
Qed.

Lemma effect_updateTodoItem_twice id x :
  remote_fresh (snd x) ->
  NoDup (map todo_id (todos (fst x))) ->
  effect_updateTodoItem id (effect_updateTodoItem id x)
  = effect_updateTodoItem id x.
Proof.
  intros Hfr Hnd.
  destruct (lookup_todo id (fst x)) as [todo|] eqn:Ht.
  2:{ assert (E : effect_updateTodoItem id x = x)
        by (unfold effect_updateTodoItem; now rewrite Ht).
      now rewrite !E. }
  destruct (todoList_of todo (fst x)) as [l|] eqn:Hl.
  2:{ assert (E : effect_updateTodoItem id x = x)
        by (unfold effect_updateTodoItem; now rewrite Ht, Hl).
      now rewrite !E. }
  destruct (@todoList_of_row _ _ _ Hl) as (Hfk & Hlrow & _).
  pose proof (by_key_key _ _ _ Ht) as [Htid _].
  assert (Ht' : lookup_todo (todo_id todo) (fst x) = Some todo)
    by now rewrite Htid.
  pose proof (@effect_updateTodoItem_pushed id l x todo Hfr Hnd Ht Hl) as Hpushed.
  destruct (truthy (todo_external_id todo)) eqn:Htt.
  - destruct (truthy (list_external_id l)) eqn:Hlt.
    + set (req := item_patch (list_external_id l) (todo_external_id todo) todo).
      assert (E : forall y, fst y = fst x ->
                            effect_updateTodoItem id y = call req y).
      { intros y Hy. unfold effect_updateTodoItem.
        now rewrite Hy, Ht, Hl, Htt, Hlt. }
      rewrite (E x eq_refl), (E (call req x) eq_refl).
      apply call_twice. apply served_patch_item_twice.
    + assert (E : effect_updateTodoItem id x = push l x).
      { unfold effect_updateTodoItem. rewrite Ht, Hl, Htt, Hlt. cbn [negb].
        cbv zeta. unfold effect_createTodoList. rewrite Hlrow, Hlt.
        rewrite (@push_lookup_todo l x id todo Hnd Ht).
        unfold todoList_of. rewrite (proj1 (after_echo_keeps _ _ _)), Hfk.
        rewrite push_lookup_list, Z.eqb_refl.
        destruct (@pushed_item_patch l x todo Hfr Hnd Ht' Hfk
                    todo eq_refl eq_refl) as [Htr Hcall].
        cbv zeta in Htr, Hcall. rewrite Htr. cbn [negb].
        cbn [list_external_id set_list_external_id]. exact Hcall. }
      now rewrite !E.
  - assert (E : effect_updateTodoItem id x = effect_createTodoItem id x).
    { unfold effect_updateTodoItem. now rewrite Ht, Hl, Htt. }
    rewrite !E.
    destruct (effect_createTodoItem_cases id x)
      as [E1|(todo' & l' & Ht1 & Hl1 & E1)].
    + rewrite !E1. now rewrite E.
    + rewrite !E1. rewrite Ht in Ht1. inversion Ht1; subst todo'.
      rewrite Hl in Hl1. inversion Hl1; subst l'. exact Hpushed.
Qed.

Lemma effect_deleteTodoItem_twice id x :
  effect_deleteTodoItem id (effect_deleteTodoItem id x)
  = effect_deleteTodoItem id x.
Proof.
  destruct (lookup_todo id (fst x)) as [todo|] eqn:Ht.
  2:{ assert (E : effect_deleteTodoItem id x = x)
        by (unfold effect_deleteTodoItem; now rewrite Ht).
      now rewrite !E. }
  destruct (truthy (todo_external_id todo)) eqn:Htt.
  2:{ assert (E : effect_deleteTodoItem id x = x)
        by (unfold effect_deleteTodoItem; now rewrite Ht, Htt).
      now rewrite !E. }
  set (e := match todoList_of todo (fst x) with
            | Some l => list_external_id l
            | None => None
            end).
  destruct (truthy e) eqn:Hlt.
  - set (req := mkRequest DELETE
                  ["todolists"; show e; "todoitems";
                   show (todo_external_id todo)] NoBody).
    assert (E : forall y, fst y = fst x -> effect_deleteTodoItem id y = call req y).
    { intros y Hy. unfold effect_deleteTodoItem. rewrite Hy, Ht, Htt.
      cbv zeta. fold e. now rewrite Hlt. }
    rewrite (E x eq_refl), (E (call req x) eq_refl).
    apply call_twice. apply served_delete_item_twice.
  - assert (E : effect_deleteTodoItem id x = x).
    { unfold effect_deleteTodoItem. rewrite Ht, Htt. cbv zeta. fold e.
      now rewrite Hlt. }
    now rewrite !E.
Qed.

Lemma effect_twice ev x :
  wf_store (fst x) -> remote_fresh (snd x) ->
  effect ev (effect ev x) = effect ev x.
Proof.
  intros (_ & Hnd & _) Hfr. unfold effect. cbv zeta.
  repeat match goal with
  | |- context [String.eqb (event_type ev) ?c] =>
      destruct (String.eqb (event_type ev) c)
  end.
  - apply effect_createTodoList_twice.
  - now apply effect_updateTodoList_twice.
  - apply effect_deleteTodoList_twice.
  - now apply effect_createTodoItem_twice.
  - now apply effect_updateTodoItem_twice.
  - apply effect_deleteTodoItem_twice.
  - reflexivity.
Qed.

(** C8. Event-replay idempotence, against the remote system of the
    specification.  From a store with unique primary keys, a remote system
    whose counter is ahead of its list ids and a database that accepts the
    writes, handling an event a second time, whatever its kind, leaves the
    local store and the remote system as the first handling left them. *)
Theorem event_replay_idempotent (ev : SyncEvent) (w : World Remote.State) :
  faults w = None ->
  wf_store (db w) ->
  remote_fresh (remote w) ->
  let once := snd (handleSyncEvent ev w) in
  let twice := snd (handleSyncEvent ev once) in
  db twice = db once /\ remote twice = remote once.
Proof.
  intros Hf Hwf Hfr once twice.
  assert (E : state_of twice = state_of once).
  { unfold twice, once. apply replay_through_handler.
    intros w0 E0. unfold state_of in E0. injection E0 as Ed Efa Er.
    set (x := (db w, remote w)).
    assert (Hx : at_state x w0) by (repeat split; cbn; congruence).
    pose proof (@dispatch_effect ev _ _ Hx) as H1.
    pose proof (@dispatch_effect ev _ _ H1) as H2.
    rewrite effect_twice in H2 by assumption.
    destruct H1 as (A1 & B1 & C1), H2 as (A2 & B2 & C2).
    unfold state_of. congruence. }
  unfold state_of in E. injection E as Ed _ Er. auto.
Qed.

End Replay.

(** The update event of an item whose list was never pushed, handled twice:
    the second handling finds both synced and patches the remote item with
    the values it already has. *)
Lemma replayed_item_update_run :
  faults Scenario.dependent = None
  /\ wf_store (db Scenario.dependent)
  /\ remote_fresh (remote Scenario.dependent)
  /\ let once := snd (handleSyncEvent (mkEvent UPDATE_TODO_ITEM 10)
                        Scenario.dependent) in
     let twice := snd (handleSyncEvent (mkEvent UPDATE_TODO_ITEM 10) once) in
     db twice = db once /\ remote twice = remote once.
Proof.
  assert (Hw : wf_store (db Scenario.dependent))
    by (apply wf_storeb_sound; vm_compute; reflexivity).
  assert (Hfr : remote_fresh (remote Scenario.dependent))
    by (intros l m []).
  split; [reflexivity|]. split; [exact Hw|]. split; [exact Hfr|].
  exact (@event_replay_idempotent (mkEvent UPDATE_TODO_ITEM 10)
           Scenario.dependent eq_refl Hw Hfr).
Defined.

(** Outside the hypotheses of the replay theorem: when the database rejects
    the write that follows the creation request, the list stays unsynced
    locally and a second handling of the event sends the request again. *)
Lemma replay_after_rejected_write :
  let w := mkWorld (db Scenario.emptyList) (Some 0%nat)
             (remote Scenario.emptyList) [] [] [] in
  let once := snd (handleSyncEvent (mkEvent CREATE_TODO_LIST 1) w) in
  let twice := snd (handleSyncEvent (mkEvent CREATE_TODO_LIST 1) once) in
  db once = db w
  /\ List.length (Remote.rlists (remote once)) = 1%nat
  /\ List.length (Remote.rlists (remote twice)) = 2%nat.
Proof. vm_compute. repeat split. Qed.

(** * Further properties of the services *)

(** ** Outcome of a guarded remote call *)

Section RemoteCalls.

Context {R : Type} `{HttpClient R}.

(** The world once a request was sent and answered. *)
Definition sent (req : Request) (w : World R) : World R :=
  mkWorld (db w) (faults w) (snd (send req (remote w)))
          (requests w ++ [req]) (log w) (acks w).

(** The error with which the axios promise rejects, if it does. *)
Definition rejection (resp : Response) : option Error :=
  match resp with
  | NetworkError => Some (AxiosError None)
  | Reply st _ =>
      if (200 <=? st)%nat && (st <? 300)%nat then None
      else Some (AxiosError (Some st))
  end.

Definition answer (req : Request) (w : World R) : Response :=
  fst (send req (remote w)).

Lemma http_rejected m u b (w : World R) e :
  rejection (answer (mkRequest m u b) w) = Some e ->
  http m u b w = (Throw e, sent (mkRequest m u b) w).
Proof.
  unfold rejection, answer, http, sent.
  destruct (send _ _) as [[|st d] r']; cbn [fst snd].
  - now intros [= <-].
  - destruct (_ && _); [discriminate | now intros [= <-]].
Qed.

Lemma http_accepted m u b (w : World R) :
  rejection (answer (mkRequest m u b) w) = None ->
  exists d, http m u b w = (Return d, sent (mkRequest m u b) w).
Proof.
  unfold rejection, answer, http, sent.
  destruct (send _ _) as [[|st d] r']; cbn [fst snd]; [discriminate|].
  destruct (_ && _); [eauto | discriminate].
Qed.

(** A block [try { await http...; log(s) } catch (error) { h(error) }]. *)
Lemma guarded_call m u b lv s (h : Error -> M unit) (w : World R) :
  try_catch (http m u b ;;; logger lv s) h w
  = match rejection (answer (mkRequest m u b) w) with
    | None => (Return tt, logged (sent (mkRequest m u b) w) [mkLog lv s])
    | Some e => h e (sent (mkRequest m u b) w)
    end.
Proof.
  rewrite try_catch_bind.
  destruct (rejection _) as [e|] eqn:E.
  - now rewrite (http_rejected _ _ _ _ E).
  - destruct (http_accepted _ _ _ _ E) as [d ->]. reflexivity.
Qed.

End RemoteCalls.

(** ** Outcomes of the outbound handlers *)

Section HandlerOutcomes.

Context {R : Type} `{HttpClient R}.

(** Nothing happened between two worlds but lines written to the log. *)
Definition only_logs (w w' : World R) : Prop :=
  db w' = db w /\ faults w' = faults w /\ remote w' = remote w
  /\ requests w' = requests w /\ acks w' = acks w.

Definition list_not_found (id : Z) : Error :=
  HttpException NOT_FOUND ("TodoList with id " ++ toString id ++ " not found").

Definition todo_not_found (id : Z) : Error :=
  HttpException NOT_FOUND ("Todo with id " ++ toString id ++ " not found").

Lemma absent_list_events (id : Z) (w : World R) :
  lookup_list id (db w) = None ->
  let updated := handleSyncEvent (mkEvent UPDATE_TODO_LIST id) w in
  let deleted := handleSyncEvent (mkEvent DELETE_TODO_LIST id) w in
  fst updated = Throw (list_not_found id) /\ only_logs w (snd updated)
  /\ fst deleted = Return tt /\ only_logs w (snd deleted).
Proof.
  intros Hn; cbv zeta; rewrite !handleSyncEvent_unfold.
  change (dispatch (mkEvent UPDATE_TODO_LIST id))
    with (updateTodoList (R := R) id).
  change (dispatch (mkEvent DELETE_TODO_LIST id))
    with (deleteTodoList (R := R) id).
  unfold try_catch, updateTodoList, deleteTodoList, bind, findOneList, query.
  cbn [db logged]. rewrite Hn. cbn.
  unfold only_logs. cbn. repeat split; reflexivity.
Qed.

Lemma absent_todo_events (id : Z) (w : World R) :
  lookup_todo id (db w) = None ->
  let created := handleSyncEvent (mkEvent CREATE_TODO_ITEM id) w in
  let updated := handleSyncEvent (mkEvent UPDATE_TODO_ITEM id) w in
  let deleted := handleSyncEvent (mkEvent DELETE_TODO_ITEM id) w in
  fst created = Throw (todo_not_found id) /\ only_logs w (snd created)
  /\ fst updated = Throw (todo_not_found id) /\ only_logs w (snd updated)
  /\ fst deleted = Return tt /\ only_logs w (snd deleted).
Proof.
  intros Hn; cbv zeta; rewrite !handleSyncEvent_unfold.
  change (dispatch (mkEvent CREATE_TODO_ITEM id))
    with (createTodoItem (R := R) id).
  change (dispatch (mkEvent UPDATE_TODO_ITEM id))
    with (updateTodoItem (R := R) id).
  change (dispatch (mkEvent DELETE_TODO_ITEM id))
    with (deleteTodoItem (R := R) id).
  unfold try_catch, createTodoItem, updateTodoItem, deleteTodoItem, bind,
    findOneTodoWithList, query.
  cbn [db logged]. rewrite Hn. cbn.
  unfold only_logs. cbn. repeat split; reflexivity.
Qed.

(** X1.  An event that names a row that is not in the store: the update of a
    list and the creation or update of an item fail with NotFound, the
    deletions return normally; in all cases no request is sent and nothing is
    written. *)
Theorem event_of_absent_row (id : Z) (w : World R) :
  (lookup_list id (db w) = None ->
   let updated := handleSyncEvent (mkEvent UPDATE_TODO_LIST id) w in
   let deleted := handleSyncEvent (mkEvent DELETE_TODO_LIST id) w in
   fst updated = Throw (list_not_found id) /\ only_logs w (snd updated)
   /\ fst deleted = Return tt /\ only_logs w (snd deleted))
  /\ (lookup_todo id (db w) = None ->
      let created := handleSyncEvent (mkEvent CREATE_TODO_ITEM id) w in
      let updated := handleSyncEvent (mkEvent UPDATE_TODO_ITEM id) w in
      let deleted := handleSyncEvent (mkEvent DELETE_TODO_ITEM id) w in
      fst created = Throw (todo_not_found id) /\ only_logs w (snd created)
      /\ fst updated = Throw (todo_not_found id) /\ only_logs w (snd updated)
      /\ fst deleted = Return tt /\ only_logs w (snd deleted)).
Proof.
  split; [apply absent_list_events | apply absent_todo_events].
Qed.

(** What the answer to a deletion request makes of the handler: a 404 is
    taken for a deletion already done. *)
Definition deletion_outcome (resp : Response) : Outcome unit :=
  match rejection resp with
  | None => Return tt
  | Some e => if is_404 e then Return tt else Throw e
  end.

Definition call_outcome (resp : Response) : Outcome unit :=
  match rejection resp with
  | None => Return tt
  | Some e => Throw e
  end.

(** X2.  The ListDeleted handler on a list that is still in the store. It
    never writes the store. A list that was never synced is skipped without a
    request; for a synced list exactly one DELETE of the remote list is sent,
    and the handler fails only when the request is rejected with something
    else than a 404. *)
Theorem list_deleted_outcome (id : Z) (w : World R) (l : TodoList) :
  lookup_list id (db w) = Some l ->
  let run := handleSyncEvent (mkEvent DELETE_TODO_LIST id) w in
  let req := mkRequest DELETE ["todolists"; show (list_external_id l)] NoBody in
  db (snd run) = db w /\ faults (snd run) = faults w
  /\ acks (snd run) = acks w
  /\ if truthy (list_external_id l) then
       requests (snd run) = requests w ++ [req]
       /\ remote (snd run) = snd (send req (remote w))
       /\ fst run = deletion_outcome (answer req w)
     else
       fst run = Return tt /\ only_logs w (snd run).
Proof.
  intros Hl. cbv zeta.
  remember (handleSyncEvent (mkEvent DELETE_TODO_LIST id) w) as run eqn:E.
  rewrite handleSyncEvent_unfold in E.
  change (dispatch (mkEvent DELETE_TODO_LIST id))
    with (deleteTodoList (R := R) id) in E.
  set (w0 := logged w [processing (mkEvent DELETE_TODO_LIST id)]) in E.
  unfold deleteTodoList in E.
  unfold try_catch at 1, bind at 1, findOneList, query in E.
  change (db w0) with (db w) in E. rewrite Hl in E.
  destruct (truthy (list_external_id l)) eqn:Ht; cbn [negb] in E.
  - rewrite guarded_call in E. unfold deletion_outcome.
    change (answer _ w0) with
      (answer (mkRequest DELETE ["todolists"; show (list_external_id l)] NoBody) w)
      in E.
    destruct (rejection _) as [e|].
    + destruct (is_404 e); subst run; cbn; repeat split; reflexivity.
    + subst run. cbn. repeat split; reflexivity.
  - subst run. cbn. unfold only_logs. cbn. repeat split; reflexivity.
Qed.

(** X3.  The ItemDeleted handler on an item that is still in the store. It
    never writes the store. An item without external id, or whose list has
    none, is skipped without a request; otherwise exactly one DELETE of the
    remote item is sent, and the handler fails only when the request is
    rejected with something else than a 404. *)
Theorem item_deleted_outcome (id : Z) (w : World R) (todo : Todo) :
  lookup_todo id (db w) = Some todo ->
  let run := handleSyncEvent (mkEvent DELETE_TODO_ITEM id) w in
  let e := match todoList_of todo (db w) with
           | Some l => list_external_id l
           | None => None
           end in
  let req := mkRequest DELETE ["todolists"; show e; "todoitems";
                               show (todo_external_id todo)] NoBody in
  db (snd run) = db w /\ faults (snd run) = faults w
  /\ acks (snd run) = acks w
  /\ if truthy (todo_external_id todo) && truthy e then
       requests (snd run) = requests w ++ [req]
       /\ remote (snd run) = snd (send req (remote w))
       /\ fst run = deletion_outcome (answer req w)
     else
       fst run = Return tt /\ only_logs w (snd run).
Proof.
  intros Ht. cbv zeta.
  remember (handleSyncEvent (mkEvent DELETE_TODO_ITEM id) w) as run eqn:E.
  rewrite handleSyncEvent_unfold in E.
  change (dispatch (mkEvent DELETE_TODO_ITEM id))
    with (deleteTodoItem (R := R) id) in E.
  set (w0 := logged w [processing (mkEvent DELETE_TODO_ITEM id)]) in E.
  unfold deleteTodoItem in E.
  unfold try_catch at 1, bind at 1, findOneTodoWithList, query in E.
  change (db w0) with (db w) in E. rewrite Ht in E.
  cbn [option_map] in E. cbv zeta in E.
  set (e := match todoList_of todo (db w) with
            | Some l => list_external_id l
            | None => None
            end) in *.
  destruct (truthy (todo_external_id todo)) eqn:Htt; cbn [negb andb] in *.
  - destruct (truthy e) eqn:Hlt; cbn [negb] in E.
    + rewrite guarded_call in E. unfold deletion_outcome.
      change (answer _ w0) with
        (answer (mkRequest DELETE ["todolists"; show e; "todoitems";
                                   show (todo_external_id todo)] NoBody) w)
        in E.
      destruct (rejection _) as [err|].
      * destruct (is_404 err); subst run; cbn; repeat split; reflexivity.
      * subst run. cbn. repeat split; reflexivity.
    + subst run. cbn. unfold only_logs. cbn. repeat split; reflexivity.
  - subst run. cbn. unfold only_logs. cbn. repeat split; reflexivity.
Qed.

(** X4.  The ListUpdated handler on a synced list: exactly one PATCH of the
    remote list with the local name is sent, the store is not written, and the
    handler fails exactly when the request is rejected, with the error of the
    rejection. *)
Theorem synced_list_updated_outcome (id : Z) (w : World R) (l : TodoList) :
  lookup_list id (db w) = Some l ->
  truthy (list_external_id l) = true ->
  let run := handleSyncEvent (mkEvent UPDATE_TODO_LIST id) w in
  let req := mkRequest PATCH ["todolists"; show (list_external_id l)]
                       (ListPatchBody (list_name l)) in
  db (snd run) = db w /\ faults (snd run) = faults w
  /\ acks (snd run) = acks w
  /\ requests (snd run) = requests w ++ [req]
  /\ remote (snd run) = snd (send req (remote w))
  /\ fst run = call_outcome (answer req w).
Proof.
  intros Hl Ht. cbv zeta.
  remember (handleSyncEvent (mkEvent UPDATE_TODO_LIST id) w) as run eqn:E.
  rewrite handleSyncEvent_unfold in E.
  change (dispatch (mkEvent UPDATE_TODO_LIST id))
    with (updateTodoList (R := R) id) in E.
  set (w0 := logged w [processing (mkEvent UPDATE_TODO_LIST id)]) in E.
  unfold updateTodoList in E.
  unfold try_catch at 1, bind at 1, findOneList, query in E.
  change (db w0) with (db w) in E. rewrite Hl, Ht in E. cbn [negb] in E.
  rewrite guarded_call in E. unfold call_outcome.
  change (answer _ w0) with
    (answer (mkRequest PATCH ["todolists"; show (list_external_id l)]
                       (ListPatchBody (list_name l))) w) in E.
  destruct (rejection _) as [e|]; subst run; cbn; repeat split; reflexivity.
Qed.

(** X5.  The ItemUpdated handler on a synced item of a synced list: exactly
    one PATCH of the remote item with the local title and completion flag is
    sent, the store is not written, and the handler fails exactly when the
    request is rejected. *)
Theorem synced_item_updated_outcome (id : Z) (w : World R) todo l :
  lookup_todo id (db w) = Some todo ->
  todoList_of todo (db w) = Some l ->
  truthy (todo_external_id todo) = true ->
  truthy (list_external_id l) = true ->
  let run := handleSyncEvent (mkEvent UPDATE_TODO_ITEM id) w in
  let req := mkRequest PATCH ["todolists"; show (list_external_id l);
                              "todoitems"; show (todo_external_id todo)]
                       (ItemPatchBody (title todo) (completed todo)) in
  db (snd run) = db w /\ faults (snd run) = faults w
  /\ acks (snd run) = acks w
  /\ requests (snd run) = requests w ++ [req]
  /\ remote (snd run) = snd (send req (remote w))
  /\ fst run = call_outcome (answer req w).
Proof.
  intros Ht Hl Htt Hlt. cbv zeta.
  remember (handleSyncEvent (mkEvent UPDATE_TODO_ITEM id) w) as run eqn:E.
  rewrite handleSyncEvent_unfold in E.
  change (dispatch (mkEvent UPDATE_TODO_ITEM id))
    with (updateTodoItem (R := R) id) in E.
  set (w0 := logged w [processing (mkEvent UPDATE_TODO_ITEM id)]) in E.
  unfold updateTodoItem in E.
  unfold try_catch at 1, bind at 1, findOneTodoWithList, query in E.
  change (db w0) with (db w) in E. rewrite Ht in E. cbn [option_map] in E.
  rewrite Hl, Htt, Hlt in E. cbn [negb] in E. unfold bind at 1 in E.
  cbn [ret] in E.
  rewrite guarded_call in E. unfold call_outcome.
  change (answer _ w0) with
    (answer (mkRequest PATCH ["todolists"; show (list_external_id l);
                              "todoitems"; show (todo_external_id todo)]
                       (ItemPatchBody (title todo) (completed todo))) w) in E.
  destruct (rejection _) as [e|]; subst run; cbn; repeat split; reflexivity.
Qed.

(** X6.  The ItemCreated handler on an item that has an external id: nothing
    is sent and nothing is written, whatever the state of its list. *)
Theorem synced_item_created_outcome (id : Z) (w : World R) todo l :
  lookup_todo id (db w) = Some todo ->
  todoList_of todo (db w) = Some l ->
  truthy (todo_external_id todo) = true ->
  let run := handleSyncEvent (mkEvent CREATE_TODO_ITEM id) w in
  fst run = Return tt /\ only_logs w (snd run).
Proof.
  intros Ht Hl Htt. cbv zeta. rewrite handleSyncEvent_unfold.
  change (dispatch (mkEvent CREATE_TODO_ITEM id))
    with (createTodoItem (R := R) id).
  unfold createTodoItem, try_catch, bind, findOneTodoWithList, query.
  cbn [db logged]. rewrite Ht. cbn [option_map]. rewrite Hl, Htt.
  cbn. unfold only_logs. cbn. repeat split; reflexivity.
Qed.

End HandlerOutcomes.

(** ** The log is write-only *)

Section LogIndependence.

Context {R : Type} `{HttpClient R}.

(** Two worlds that differ by their logs at most. *)
Definition alike (w w' : World R) : Prop :=
  db w' = db w /\ faults w' = faults w /\ remote w' = remote w
  /\ requests w' = requests w /\ acks w' = acks w.

Lemma alike_refl w : alike w w.
Proof. unfold alike. auto. Qed.

Lemma alike_logged w entries : alike w (logged w entries).
Proof. unfold alike. cbn. auto. Qed.

Lemma alike_trans a b c : alike a b -> alike b c -> alike a c.
Proof. unfold alike. intuition congruence. Qed.

Lemma alike_sym a b : alike a b -> alike b a.
Proof. unfold alike. intuition congruence. Qed.

(** Runs from alike worlds have the same outcome and end in alike worlds. *)
Definition log_blind {A} (c : @M R A) : Prop :=
  forall w w', alike w w' ->
    fst (c w) = fst (c w') /\ alike (snd (c w)) (snd (c w')).

Lemma log_blind_ret A (a : A) : log_blind (ret a).
Proof. intros w w' E. cbn. auto. Qed.

Lemma log_blind_throw A (e : Error) : log_blind (@throw R A e).
Proof. intros w w' E. cbn. auto. Qed.

Lemma log_blind_bind A B (c : @M R A) (k : A -> M B) :
  log_blind c -> (forall a, log_blind (k a)) -> log_blind (bind c k).
Proof.
  intros Hc Hk w w' E. unfold bind. destruct (Hc w w' E) as [Ho Hs].
  destruct (c w) as [[a|e] w1], (c w') as [[a'|e'] w1']; cbn in Ho, Hs;
    try discriminate.
  - inversion Ho; subst a'. now apply Hk.
  - inversion Ho; subst e'. cbn. auto.
Qed.

Lemma log_blind_try_catch A (c : @M R A) (h : Error -> M A) :
  log_blind c -> (forall e, log_blind (h e)) -> log_blind (try_catch c h).
Proof.
  intros Hc Hh w w' E. unfold try_catch. destruct (Hc w w' E) as [Ho Hs].
  destruct (c w) as [[a|e] w1], (c w') as [[a'|e'] w1']; cbn in Ho, Hs;
    try discriminate.
  - cbn. auto.
  - inversion Ho; subst e'. now apply Hh.
Qed.

Lemma log_blind_for_each A (l : list A) (f : A -> M unit) :
  (forall x, log_blind (f x)) -> log_blind (for_each l f).
Proof.
  intros Hf. induction l as [|x r IH]; cbn [for_each].
  - apply log_blind_ret.
  - apply log_blind_bind; [apply Hf | intros _; exact IH].
Qed.

Lemma log_blind_logger lv s : log_blind (logger lv s).
Proof. intros w w' E. cbn. split; [reflexivity | exact E]. Qed.

Lemma log_blind_ack tag : log_blind (channel_ack tag).
Proof.
  intros w w' (Ed & Ef & Er & Eq & Ea). unfold alike. cbn.
  rewrite Ea. repeat split; auto.
Qed.

Lemma log_blind_query A (f : Store -> A) : log_blind (query f).
Proof.
  intros w w' E. unfold query. cbn [fst snd]. split; [|exact E].
  destruct E as (Ed & _). now rewrite Ed.
Qed.

Lemma log_blind_persist A (f : Store -> A * Store) : log_blind (persist f).
Proof.
  intros w w' (Ed & Ef & Er & Eq & Ea).
  unfold persist, alike. rewrite Ef, Ed.
  destruct (faults w) as [[|n]|] eqn:Hf; cbn.
  - repeat split; auto; congruence.
  - destruct (f (db w)); cbn. repeat split; auto.
  - destruct (f (db w)); cbn. repeat split; auto.
Qed.

Lemma log_blind_http m u b : log_blind (http m u b).
Proof.
  intros w w' (Ed & Ef & Er & Eq & Ea).
  unfold http, alike. rewrite Er, Eq.
  destruct (send _ (remote w)) as [[|st d] r']; cbn.
  - repeat split; auto.
  - destruct (_ && _); cbn; repeat split; auto.
Qed.

Ltac blind_with known :=
  repeat first
    [ known
    | apply log_blind_ret
    | apply log_blind_throw
    | apply log_blind_logger
    | apply log_blind_ack
    | apply log_blind_query
    | apply log_blind_persist
    | apply log_blind_http
    | apply log_blind_bind; [ | intros ? ]
    | apply log_blind_try_catch; [ | intros ? ]
    | apply log_blind_for_each; intros ?; cbv beta
    | match goal with
      | |- log_blind (let _ := _ in _) => cbv zeta
      | |- log_blind (match ?x with _ => _ end) => destruct x
      end ].

Lemma log_blind_createTodoList id : log_blind (createTodoList id).
Proof.
  unfold createTodoList, findOneListWithTodos, saveList, saveTodo.
  blind_with fail.
Qed.

Lemma log_blind_createTodoItem id : log_blind (createTodoItem id).
Proof.
  unfold createTodoItem, findOneTodoWithList, findOneTodo.
  blind_with ltac:(apply log_blind_createTodoList).
Qed.

Lemma log_blind_dispatch ev : log_blind (dispatch ev).
Proof.
  unfold dispatch, updateTodoList, deleteTodoList, updateTodoItem,
    deleteTodoItem, findOneList, findOneTodoWithList.
  blind_with ltac:(first [ apply log_blind_createTodoList
                         | apply log_blind_createTodoItem ]).
Qed.

Lemma log_blind_handleSyncEvent ev : log_blind (handleSyncEvent ev).
Proof.
  unfold handleSyncEvent.
  blind_with ltac:(apply log_blind_dispatch).
Qed.

Lemma log_blind_reconcile_items l its :
  forall ts, log_blind (reconcile_items l its ts).
Proof.
  induction its as [|it r IH]; intros ts; cbn [reconcile_items].
  - apply log_blind_ret.
  - apply log_blind_bind; [|intros ts'; apply IH].
    unfold reconcile_item, saveNewTodo, saveTodo. blind_with fail.
Qed.

Lemma log_blind_reconcile_lists els :
  forall mem, log_blind (reconcile_lists els mem).
Proof.
  induction els as [|el r IH]; intros mem; cbn [reconcile_lists].
  - apply log_blind_ret.
  - apply log_blind_bind; [|intros mem'; apply IH].
    unfold reconcile_entry, reconcile_list, report_missing, saveList.
    blind_with ltac:(apply log_blind_reconcile_items).
Qed.

Lemma log_blind_syncFromExternal : log_blind syncFromExternal.
Proof.
  unfold syncFromExternal, expect_lists, merge_snapshot, import_list,
    findLists, saveNewList, saveNewTodos.
  blind_with ltac:(apply log_blind_reconcile_lists).
Qed.

(** X7.  An update event for a list without external id, or for an item
    without external id, is handled as the creation event of the same row: the
    outcome is the same, and so are the store, the remote system, the requests
    sent and the database's failure state. *)
Theorem unsynced_update_is_creation (id : Z) (w : World R) :
  (forall l, lookup_list id (db w) = Some l ->
     truthy (list_external_id l) = false ->
     let updated := handleSyncEvent (mkEvent UPDATE_TODO_LIST id) w in
     let created := handleSyncEvent (mkEvent CREATE_TODO_LIST id) w in
     fst updated = fst created /\ alike (snd created) (snd updated))
  /\ (forall todo l, lookup_todo id (db w) = Some todo ->
        todoList_of todo (db w) = Some l ->
        truthy (todo_external_id todo) = false ->
        let updated := handleSyncEvent (mkEvent UPDATE_TODO_ITEM id) w in
        let created := handleSyncEvent (mkEvent CREATE_TODO_ITEM id) w in
        fst updated = fst created /\ alike (snd created) (snd updated)).
Proof.
  assert (Hwrap : forall ev ev' (c c' : M unit) w1 w1',
            fst (c w1) = fst (c' w1') ->
            alike (snd (c' w1')) (snd (c w1)) ->
            fst (try_catch c (rethrown ev) w1)
            = fst (try_catch c' (rethrown ev') w1')
            /\ alike (snd (try_catch c' (rethrown ev') w1'))
                     (snd (try_catch c (rethrown ev) w1))).
  { intros ev ev' c c' w1 w1' Ho Ha. unfold try_catch.
    destruct (c w1) as [[a|e] w2], (c' w1') as [[a'|e'] w2'];
      cbn [fst snd] in *; try discriminate.
    - auto.
    - inversion Ho; subst e'. cbn. split; [reflexivity|].
      eapply alike_trans; [apply alike_sym, alike_logged|].
      eapply alike_trans; [exact Ha | apply alike_logged]. }
  split.
  - intros l Hl Ht. cbv zeta. rewrite !handleSyncEvent_unfold.
    change (dispatch (mkEvent UPDATE_TODO_LIST id))
      with (updateTodoList (R := R) id).
    change (dispatch (mkEvent CREATE_TODO_LIST id))
      with (createTodoList (R := R) id).
    apply Hwrap.
    + unfold updateTodoList. unfold bind at 1. unfold findOneList, query.
      cbn [db logged]. rewrite Hl, Ht. cbn [negb].
      unfold bind at 1. unfold logger at 1.
      apply log_blind_createTodoList. unfold alike. cbn. repeat split; auto.
    + unfold updateTodoList. unfold bind at 1. unfold findOneList, query.
      cbn [db logged]. rewrite Hl, Ht. cbn [negb].
      unfold bind at 1. unfold logger at 1.
      apply log_blind_createTodoList. unfold alike. cbn. repeat split; auto.
  - intros todo l Htd Hl Ht. cbv zeta. rewrite !handleSyncEvent_unfold.
    change (dispatch (mkEvent UPDATE_TODO_ITEM id))
      with (updateTodoItem (R := R) id).
    change (dispatch (mkEvent CREATE_TODO_ITEM id))
      with (createTodoItem (R := R) id).
    apply Hwrap.
    + rewrite (@updateTodoItem_unsynced R _ id _ todo l); auto.
      apply log_blind_createTodoItem. unfold alike. cbn. repeat split; auto.
    + rewrite (@updateTodoItem_unsynced R _ id _ todo l); auto.
      apply log_blind_createTodoItem. unfold alike. cbn. repeat split; auto.
Qed.

(** X8.  The scheduled run never fails: it returns normally whatever the pass
    does, and leaves the store, the remote system, the requests and the
    database's failure state as the pass leaves them. *)
Theorem scheduled_pass_never_fails (w : World R) :
  fst (handleSyncFromExternal w) = Return tt
  /\ alike (snd (syncFromExternal w)) (snd (handleSyncFromExternal w)).
Proof.
  unfold handleSyncFromExternal. unfold bind at 1 2. unfold logger at 1 3.
  set (w0 := mkWorld _ _ _ _ _ _).
  assert (Ha : alike w w0) by (unfold alike, w0; cbn; auto 6).
  destruct (log_blind_syncFromExternal Ha) as [Ho Hs].
  unfold try_catch.
  destruct (syncFromExternal w0) as [[[]|e] w1]; cbn [fst snd] in *.
  - auto.
  - split; [reflexivity|].
    eapply alike_trans; [exact Hs|]. unfold alike. cbn. repeat split; auto.
Qed.

End LogIndependence.

(** ** Requests of the reconciliation pass *)

Section PassRequests.

Context {R : Type} `{HttpClient R}.

Definition fetch : Request := mkRequest GET ["todolists"] NoBody.

(** The deletion of a remote list. *)
Definition deletion (el : ExternalList) : Request :=
  mkRequest DELETE ["todolists"; ext_id el] NoBody.

(** A remote list whose source identifier names no list of the store: the
    identifier does not read as a number, or no list has that id. *)
Definition orphan (s : Store) (el : ExternalList) : bool :=
  truthy (source_id el)
  && match localId_of el with
     | Some k =>
         match lookup_list k s with
         | Some _ => false
         | None => true
         end
     | None => true
     end.

(** The same, on the list objects held in memory. *)
Definition orphan_in (mem : Mem) (el : ExternalList) : bool :=
  match map_get (localId_of el) mem with
  | Some _ => false
  | None => true
  end.

Definition mem_keys (mem : Mem) : list Z := map (fun p => list_id (fst p)) mem.

Lemma last_match_is_none A (p : A -> bool) (l : list A) :
  (forall x, In x l -> p x = false) -> last_match p l = None.
Proof.
  induction l as [|y r IH]; cbn; [reflexivity|].
  intros Hp. rewrite IH by (intros x Hx; apply Hp; now right).
  now rewrite (Hp y) by now left.
Qed.

Lemma orphan_in_keys mem el :
  orphan_in mem el
  = match localId_of el with
    | Some k => negb (existsb (Z.eqb k) (mem_keys mem))
    | None => true
    end.
Proof.
  unfold orphan_in, map_get. destruct (localId_of el) as [k|]; [|reflexivity].
  destruct (last_match _ mem) as [[i [l ts]]|] eqn:E.
  - apply last_match_some in E. destruct E as [Hin Hk]. cbn in Hk.
    apply Z.eqb_eq in Hk. symmetry. apply negb_false_iff, existsb_exists.
    exists (list_id l). split; [|now apply Z.eqb_eq].
    unfold mem_keys. now apply (in_map (fun p => list_id (fst p)) mem (l, ts)).
  - symmetry. apply negb_true_iff.
    destruct (existsb _ _) eqn:Ex; [|reflexivity].
    apply existsb_exists in Ex. destruct Ex as (k' & Hin & Hk).
    apply Z.eqb_eq in Hk. subst k'.
    unfold mem_keys in Hin. apply in_map_iff in Hin.
    destruct Hin as ([l ts] & Hk & Hin).
    pose proof (last_match_none _ _ E _ Hin) as Hf. cbn in Hf, Hk.
    rewrite Hk, Z.eqb_refl in Hf. discriminate.
Qed.

(** The value a computation returns, when it returns, satisfies [Q]. *)
Definition yields {A} (Q : A -> Prop) (c : @M R A) : Prop :=
  forall w, match fst (c w) with
            | Return a => Q a
            | Throw _ => True
            end.

Lemma yields_ret A (Q : A -> Prop) (a : A) : Q a -> yields Q (ret a).
Proof. intros Ha w. exact Ha. Qed.

Lemma yields_bind A B (Q : B -> Prop) (c : @M R A) (k : A -> M B) :
  (forall a, yields Q (k a)) -> yields Q (bind c k).
Proof.
  intros Hk w. unfold bind. destruct (c w) as [[a|e] w1]; [apply Hk | exact I].
Qed.

Lemma reconcile_list_keeps_id el l ts :
  yields (fun r => list_id (fst r) = list_id l) (reconcile_list el l ts).
Proof.
  unfold reconcile_list. cbv zeta.
  repeat (apply yields_bind; intros ?).
  apply yields_ret. cbn [fst].
  repeat match goal with
         | |- context [if ?b then _ else _] => destruct b
         end; reflexivity.
Qed.

Ltac silent_with known :=
  repeat first
    [ known
    | apply same_requests_logger
    | apply same_requests_persist
    | frame_step (@same_requests_refl R) (@same_requests_trans R) ].

Lemma reconcile_items_silent l its :
  forall ts, guarantees (R := R) same_requests (reconcile_items l its ts).
Proof.
  induction its as [|it r IH]; intros ts; cbn [reconcile_items].
  - silent_with fail.
  - unfold reconcile_item, saveNewTodo, saveTodo.
    silent_with ltac:(apply IH).
Qed.

Lemma reconcile_list_silent el l ts :
  guarantees (R := R) same_requests (reconcile_list el l ts).
Proof.
  unfold reconcile_list, report_missing, saveList.
  silent_with ltac:(apply reconcile_items_silent).
Qed.

Lemma import_list_silent el : guarantees (R := R) same_requests (import_list el).
Proof.
  unfold import_list, saveNewList, saveNewTodos. silent_with fail.
Qed.

(** One remote list with a source identifier: a request is sent exactly
    when the list is an orphan, and it is its deletion; the failure of that
    request does not stop the pass. *)
Lemma reconcile_entry_trace mem el (w : World R) :
  requests (snd (reconcile_entry mem el w))
  = requests w ++ (if orphan_in mem el then [deletion el] else [])
  /\ forall mem', fst (reconcile_entry mem el w) = Return mem' ->
                  mem_keys mem' = mem_keys mem.
Proof.
  unfold orphan_in.
  remember (reconcile_entry mem el w) as run eqn:E.
  unfold reconcile_entry in E. cbv zeta in E.
  destruct (map_get (localId_of el) mem) as [[i [l ts]]|] eqn:Hm.
  - pose proof (reconcile_list_silent el l ts w) as Hq.
    pose proof (reconcile_list_keeps_id el l ts w) as Hy.
    unfold bind in E. destruct (reconcile_list el l ts w) as [[r|e] w1];
      cbn [fst snd ret] in *; subst run; cbn [fst snd].
    + split; [rewrite app_nil_r; exact Hq|].
      intros mem' [= <-]. unfold mem_keys.
      apply map_replace_nth with (x := (l, ts)); [|exact Hy].
      unfold map_get in Hm. destruct (localId_of el); [|discriminate].
      now apply last_match_nth in Hm.
    + split; [rewrite app_nil_r; exact Hq | discriminate].
  - unfold bind at 1 in E. unfold logger at 1 in E. unfold bind at 1 in E.
    rewrite guarded_call in E. fold (deletion el) in E.
    destruct (rejection _); subst run; cbn; split; try reflexivity;
      now intros mem' [= <-].
Qed.

Lemma filter_same A (p q : A -> bool) (l : list A) :
  (forall x, In x l -> p x = q x) -> filter p l = filter q l.
Proof.
  induction l as [|x r IH]; cbn; [reflexivity|].
  intros Hpq. rewrite (Hpq x) by now left.
  rewrite IH by (intros y Hy; apply Hpq; now right). reflexivity.
Qed.

Lemma reconcile_lists_trace els :
  forall mem (w : World R),
    fst (reconcile_lists els mem w) = Return tt ->
    requests (snd (reconcile_lists els mem w))
    = requests w ++ map deletion (filter (orphan_in mem) els).
Proof.
  induction els as [|el r IH]; intros mem w; cbn [reconcile_lists filter].
  - intros _. cbn. now rewrite app_nil_r.
  - unfold bind. destruct (reconcile_entry_trace mem el w) as [Hq Hk].
    destruct (reconcile_entry mem el w) as [[mem'|e] w1]; cbn [fst snd] in *;
      [|discriminate].
    intros Hr. rewrite (IH mem' w1 Hr), Hq.
    specialize (Hk mem' eq_refl).
    rewrite (filter_same (orphan_in mem') (orphan_in mem)).
    2:{ intros x _. rewrite !orphan_in_keys, Hk. reflexivity. }
    destruct (orphan_in mem el); cbn [map]; rewrite <- app_assoc; reflexivity.
Qed.

Lemma orphan_loaded s el :
  truthy (source_id el) = true ->
  orphan_in (map (fun l => (l, todos_of (list_id l) s)) (lists s)) el
  = orphan s el.
Proof.
  intros Ht. rewrite orphan_in_keys. unfold orphan. rewrite Ht. cbn [andb].
  destruct (localId_of el) as [k|]; [|reflexivity].
  unfold mem_keys. rewrite map_map. cbn [fst].
  rewrite lookup_list_by_key.
  destruct (by_key list_id k (lists s)) as [l|] eqn:E.
  - apply by_key_in_keys in E. apply negb_false_iff, existsb_exists.
    exists k. split; [exact E | apply Z.eqb_refl].
  - apply by_key_none in E. apply negb_true_iff.
    destruct (existsb _ _) eqn:Ex; [|reflexivity].
    apply existsb_exists in Ex. destruct Ex as (k' & Hin & Hk).
    apply Z.eqb_eq in Hk. subst k'. contradiction.
Qed.

Lemma filter_orphans s ls :
  filter (orphan_in (map (fun l => (l, todos_of (list_id l) s)) (lists s)))
         (filter (fun l => truthy (source_id l)) ls)
  = filter (orphan s) ls.
Proof.
  induction ls as [|el r IH]; cbn [filter]; [reflexivity|].
  destruct (truthy (source_id el)) eqn:Ht; cbn [filter].
  - rewrite (orphan_loaded s el Ht), IH. reflexivity.
  - rewrite IH. unfold orphan at 2. rewrite Ht. reflexivity.
Qed.

Lemma for_each_silent A (l : list A) (f : A -> @M R unit) :
  (forall x, guarantees (R := R) same_requests (f x)) ->
  guarantees (R := R) same_requests (for_each l f).
Proof. intros Hf. silent_with ltac:(apply Hf). Qed.

Lemma merge_snapshot_trace ls (w : World R) :
  fst (merge_snapshot ls w) = Return tt ->
  requests (snd (merge_snapshot ls w))
  = requests w ++ map deletion (filter (orphan (db w)) ls).
Proof.
  remember (merge_snapshot ls w) as run eqn:E.
  unfold merge_snapshot in E. cbv zeta in E.
  unfold bind at 1 in E. unfold logger at 1 in E.
  unfold bind at 1 in E. unfold findLists, query in E. cbn [db] in E.
  unfold bind at 1 in E. unfold logger at 1 in E.
  cbn [db faults remote requests log acks] in E.
  set (w1 := mkWorld _ _ _ _ _ _) in E.
  assert (Hq1 : requests w1 = requests w) by reflexivity.
  clearbody w1.
  unfold bind at 1 in E.
  pose proof (for_each_silent
                (filter (fun l => negb (truthy (source_id l))) ls)
                import_list import_list_silent w1) as Hq2.
  destruct (for_each _ import_list w1) as [[[]|e] w2]; cbn [fst snd] in *;
    [|subst run; discriminate].
  unfold bind at 1 in E.
  pose proof (reconcile_lists_trace
                (filter (fun l => truthy (source_id l)) ls)
                (map (fun l => (l, todos_of (list_id l) (db w))) (lists (db w)))
                w2) as Ht.
  destruct (reconcile_lists _ _ w2) as [[[]|e] w3]; cbn [fst snd] in *;
    [|subst run; discriminate].
  subst run. intros _. cbn [logger snd requests].
  rewrite (Ht eq_refl), filter_orphans. unfold same_requests in Hq2.
  now rewrite Hq2, Hq1.
Qed.

(** A request of the pass: the fetch of all lists, or the deletion of a
    remote list. *)
Definition pull_request (req : Request) : Prop :=
  req = fetch \/ exists e, req = mkRequest DELETE ["todolists"; e] NoBody.

Ltac pulls_with known :=
  repeat first
    [ known
    | apply issues_only_logger
    | apply issues_only_persist
    | apply issues_only_http; unfold pull_request, fetch; now eauto
    | frame_step (@issues_only_refl R pull_request)
                 (@issues_only_trans R pull_request) ].

Lemma reconcile_items_pulls l its :
  forall ts, guarantees (R := R) (issues_only pull_request) (reconcile_items l its ts).
Proof.
  induction its as [|it r IH]; intros ts; cbn [reconcile_items].
  - pulls_with fail.
  - unfold reconcile_item, saveNewTodo, saveTodo.
    pulls_with ltac:(apply IH).
Qed.

Lemma reconcile_lists_pulls els :
  forall mem, guarantees (R := R) (issues_only pull_request) (reconcile_lists els mem).
Proof.
  induction els as [|el r IH]; intros mem; cbn [reconcile_lists].
  - pulls_with fail.
  - unfold reconcile_entry, reconcile_list, report_missing, saveList.
    pulls_with ltac:(first [ apply reconcile_items_pulls | apply IH ]).
Qed.

Lemma syncFromExternal_pulls :
  guarantees (R := R) (issues_only pull_request) syncFromExternal.
Proof.
  unfold syncFromExternal, expect_lists, merge_snapshot, import_list,
    findLists, saveNewList, saveNewTodos.
  pulls_with ltac:(apply reconcile_lists_pulls).
Qed.

Lemma syncFromExternal_trace (w : World R) :
  fst (syncFromExternal w) = Return tt ->
  requests (snd (syncFromExternal w))
  = requests w ++ fetch :: map deletion (filter (orphan (db w)) (fetched w)).
Proof.
  remember (syncFromExternal w) as run eqn:Hrun.
  unfold syncFromExternal in Hrun. unfold bind at 1 in Hrun.
  unfold logger at 1 in Hrun. rewrite try_catch_bind in Hrun.
  unfold fetched. unfold http in Hrun.
  cbn [remote db faults requests log acks] in Hrun.
  fold fetch in Hrun |- *.
  destruct (send fetch (remote w)) as [resp r'] eqn:Hs.
  cbn [fst].
  destruct resp as [|st d]; [subst run; discriminate|].
  destruct ((200 <=? st)%nat && (st <? 300)%nat);
    [|subst run; discriminate].
  rewrite try_catch_bind in Hrun.
  destruct d as [|l|ls]; cbn [expect_lists ret throw] in Hrun;
    try (subst run; discriminate).
  match type of Hrun with
  | context [try_catch (merge_snapshot ls) ?h ?w1] =>
      pose proof (merge_snapshot_trace ls w1) as Hm;
      unfold try_catch in Hrun;
      destruct (merge_snapshot ls w1) as [[[]|e] w2]
  end.
  - subst run. cbn [fst snd] in *. intros _.
    rewrite (Hm eq_refl). cbn [requests db]. now rewrite <- app_assoc.
  - subst run. cbn. discriminate.
Qed.

(** X9.  The requests of a reconciliation pass. Whatever happens, the pass
    sends nothing but the fetch of the remote lists and deletions of remote
    lists: it never creates or patches a remote record. When it returns
    normally it has sent the fetch and then, in the order of the snapshot, the
    deletion of every remote list whose source identifier names no local list
    of the store it started from. *)
Theorem pass_requests (w : World R) :
  issues_only pull_request w (snd (syncFromExternal w))
  /\ (fst (syncFromExternal w) = Return tt ->
      requests (snd (syncFromExternal w))
      = requests w ++ fetch :: map deletion (filter (orphan (db w)) (fetched w))).
Proof.
  split; [apply syncFromExternal_pulls | apply syncFromExternal_trace].
Qed.

(** X10.  When the remote lists cannot be fetched, the pass fails with the
    error of the request, after that one request, and leaves the store and the
    database alone. *)
Theorem pass_without_snapshot (w : World R) (e : Error) :
  rejection (answer fetch w) = Some e ->
  fst (syncFromExternal w) = Throw e
  /\ db (snd (syncFromExternal w)) = db w
  /\ faults (snd (syncFromExternal w)) = faults w
  /\ requests (snd (syncFromExternal w)) = requests w ++ [fetch]
  /\ acks (snd (syncFromExternal w)) = acks w.
Proof.
  intros Hr.
  remember (syncFromExternal w) as run eqn:E.
  unfold syncFromExternal in E. unfold bind at 1 in E.
  unfold logger at 1 in E. rewrite try_catch_bind in E.
  set (w0 := mkWorld _ _ _ _ _ _) in E.
  assert (Hr0 : rejection (answer fetch w0) = Some e) by exact Hr.
  unfold fetch in Hr0. rewrite (http_rejected _ _ _ _ Hr0) in E.
  subst run. cbn. repeat split; reflexivity.
Qed.

End PassRequests.

(** ** A pass over a snapshot that the store already mirrors *)

Section SteadyState.

Context {R : Type} `{HttpClient R}.

(** The local list named by the source identifier of the remote list [el]
    has its name and its id, and every item of [el] that has an id is held
    by a todo of that list, all the todos that hold it having its
    description and its completion flag. *)
Definition mirrors (s : Store) (el : ExternalList) : Prop :=
  truthy (source_id el) = true
  /\ exists k l,
       localId_of el = Some k
       /\ lookup_list k s = Some l
       /\ list_name l = ext_name el
       /\ list_external_id l = Some (ext_id el)
       /\ forall it, In it (items el) -> item_id it <> "" ->
            (exists t, In t (todos_of k s)
                       /\ todo_external_id t = Some (item_id it))
            /\ forall t, In t (todos_of k s) ->
                 todo_external_id t = Some (item_id it) ->
                 title t = description it
                 /\ completed t = item_completed it.

(** A computation that returns after writing lines to the log, and does
    nothing else. *)
Definition only_logging (c : @M R unit) : Prop :=
  forall w, exists entries, c w = (Return tt, logged w entries).

Lemma logged_nil (w : World R) : logged w [] = w.
Proof. destruct w. unfold logged. cbn. now rewrite app_nil_r. Qed.

Lemma logged_logged (w : World R) a b :
  logged (logged w a) b = logged w (a ++ b).
Proof. unfold logged. cbn. now rewrite app_assoc. Qed.

Lemma only_logging_ret : only_logging (ret tt).
Proof. intros w. exists []. now rewrite logged_nil. Qed.

Lemma only_logging_logger lv s : only_logging (logger lv s).
Proof. intros w. exists [mkLog lv s]. reflexivity. Qed.

Lemma only_logging_seq (c k : @M R unit) :
  only_logging c -> only_logging k -> only_logging (c ;;; k).
Proof.
  intros Hc Hk w. unfold bind. destruct (Hc w) as [a ->].
  destruct (Hk (logged w a)) as [b ->]. exists (a ++ b).
  now rewrite logged_logged.
Qed.

Lemma only_logging_for_each A (l : list A) (f : A -> @M R unit) :
  (forall x, only_logging (f x)) -> only_logging (for_each l f).
Proof.
  intros Hf. induction l as [|x r IH]; cbn [for_each].
  - apply only_logging_ret.
  - now apply only_logging_seq.
Qed.

Lemma report_missing_only_logs l its ts :
  only_logging (report_missing l its ts).
Proof.
  unfold report_missing. apply only_logging_for_each. intros t.
  destruct (negb _); [apply only_logging_ret|].
  destruct (existsb _ _); [apply only_logging_ret | apply only_logging_logger].
Qed.

Lemma truthy_nonempty (s : string) : s <> "" -> truthy (Some s) = true.
Proof. destruct s; [congruence | reflexivity]. Qed.

(** An item that the loaded todos mirror is passed over. *)
Lemma reconcile_item_quiet l ts it (w : World R) :
  (item_id it <> "" ->
   (exists t, In t ts /\ todo_external_id t = Some (item_id it))
   /\ forall t, In t ts -> todo_external_id t = Some (item_id it) ->
                title t = description it /\ completed t = item_completed it) ->
  reconcile_item l ts it w = (Return ts, w).
Proof.
  intros Hm. unfold reconcile_item.
  destruct (truthy (Some (item_id it))) eqn:Ht; cbn [negb]; [|reflexivity].
  assert (Hne : item_id it <> "") by (intros E; rewrite E in Ht; discriminate).
  destruct (Hm Hne) as [(t & Hin & He) Hall].
  destruct (last_match (has_external_id (item_id it)) ts) as [[j t']|] eqn:E.
  - apply last_match_some in E. destruct E as [Hin' Hp].
    apply has_external_id_spec in Hp.
    destruct (Hall t' Hin' Hp) as [-> ->].
    cbv zeta. rewrite String.eqb_refl, Bool.eqb_reflx. reflexivity.
  - pose proof (last_match_none _ _ E t Hin) as Hf.
    unfold has_external_id in Hf. rewrite He, Ht, String.eqb_refl in Hf.
    discriminate.
Qed.

Lemma reconcile_items_quiet l ts its :
  forall w : World R,
  (forall it, In it its -> item_id it <> "" ->
     (exists t, In t ts /\ todo_external_id t = Some (item_id it))
     /\ forall t, In t ts -> todo_external_id t = Some (item_id it) ->
                  title t = description it /\ completed t = item_completed it) ->
  reconcile_items l its ts w = (Return ts, w).
Proof.
  induction its as [|it r IH]; intros w Hm; cbn [reconcile_items];
    [reflexivity|].
  unfold bind. rewrite reconcile_item_quiet by (apply Hm; now left).
  apply IH. intros it' Hin. apply Hm. now right.
Qed.

Lemma replace_nth_same A (l : list A) i x :
  nth_error l i = Some x -> replace_nth i x l = l.
Proof.
  revert i. induction l as [|y r IH]; intros i; destruct i as [|m]; cbn;
    try discriminate.
  - now intros [= ->].
  - intros Hn. f_equal. now apply IH.
Qed.

Lemma map_get_loaded s k l :
  NoDup (map list_id (lists s)) ->
  lookup_list k s = Some l ->
  exists i,
    map_get (Some k) (map (fun l => (l, todos_of (list_id l) s)) (lists s))
    = Some (i, (l, todos_of k s)).
Proof.
  intros Hnd Hl. rewrite lookup_list_by_key in Hl.
  pose proof (by_key_key _ _ _ Hl) as [Hk Hin]. subst k.
  unfold map_get.
  destruct (last_match _ _) as [[i [l' ts']]|] eqn:E.
  - exists i. pose proof (last_match_some _ _ E) as [Hin' Hp]. cbn in Hp.
    apply Z.eqb_eq in Hp. apply in_map_iff in Hin'.
    destruct Hin' as (l0 & [= <- <-] & Hin0).
    assert (l0 = l) by (apply (nodup_map_inj list_id (lists s)); auto).
    now subst l0.
  - exfalso.
    pose proof (last_match_none _ _ E (l, todos_of (list_id l) s)) as Hf.
    cbn in Hf. rewrite Z.eqb_refl in Hf.
    assert (true = false); [|discriminate]. apply Hf.
    now apply (in_map (fun l => (l, todos_of (list_id l) s))).
Qed.

Lemma reconcile_entry_quiet s el (w : World R) :
  NoDup (map list_id (lists s)) ->
  mirrors s el ->
  let mem := map (fun l => (l, todos_of (list_id l) s)) (lists s) in
  exists entries, reconcile_entry mem el w = (Return mem, logged w entries).
Proof.
  intros Hnd (Hsrc & k & l & Hk & Hl & Hname & Hid & Hit) mem.
  destruct (@map_get_loaded s k l Hnd Hl) as [i Hm]. fold mem in Hm.
  unfold reconcile_entry. cbv zeta. rewrite Hk, Hm.
  unfold bind at 1. unfold reconcile_list. cbv zeta.
  rewrite Hname, String.eqb_refl. cbn [negb orb].
  unfold differs. rewrite Hid, String.eqb_refl. cbn [negb].
  unfold bind at 1. cbn [ret]. unfold bind at 1. cbn [ret].
  unfold bind at 1. rewrite reconcile_items_quiet by exact Hit.
  unfold bind at 1.
  destruct (report_missing_only_logs l (items el) (todos_of k s) w)
    as [a ->].
  unfold bind at 1. unfold logger at 1. cbn [ret].
  unfold map_get in Hm. apply last_match_nth in Hm.
  rewrite (@replace_nth_same _ _ _ _ Hm).
  eexists. unfold logged. cbn [db faults remote requests log acks].
  rewrite <- app_assoc. reflexivity.
Qed.

Lemma reconcile_lists_quiet s els :
  NoDup (map list_id (lists s)) ->
  (forall el, In el els -> mirrors s el) ->
  forall w : World R,
  exists entries,
    reconcile_lists els (map (fun l => (l, todos_of (list_id l) s)) (lists s)) w
    = (Return tt, logged w entries).
Proof.
  intros Hnd. induction els as [|el r IH]; intros Hm w; cbn [reconcile_lists].
  - exists []. now rewrite logged_nil.
  - unfold bind.
    destruct (@reconcile_entry_quiet s el w Hnd (Hm el (or_introl eq_refl)))
      as [a ->].
    destruct (IH (fun x Hx => Hm x (or_intror Hx)) (logged w a)) as [b ->].
    exists (a ++ b). now rewrite logged_logged.
Qed.

Lemma filter_all A (p : A -> bool) (l : list A) :
  (forall x, In x l -> p x = true) -> filter p l = l.
Proof.
  induction l as [|x r IH]; cbn; [reflexivity|].
  intros Hp. rewrite (Hp x) by now left.
  rewrite IH by (intros y Hy; apply Hp; now right). reflexivity.
Qed.

Lemma filter_none A (p : A -> bool) (l : list A) :
  (forall x, In x l -> p x = false) -> filter p l = [].
Proof.
  induction l as [|x r IH]; cbn; [reflexivity|].
  intros Hp. rewrite (Hp x) by now left.
  apply IH. intros y Hy. apply Hp. now right.
Qed.

(** X11.  The steady state. When every list of the fetched snapshot is
    mirrored by the store, the pass returns normally after its single request,
    the fetch, and attempts no write: the store is unchanged, and so is the
    number of writes the database still accepts. *)
Theorem mirrored_pass_writes_nothing (w : World R) st ls r' :
  NoDup (map list_id (lists (db w))) ->
  send fetch (remote w) = (Reply st (ListsData ls), r') ->
  (200 <=? st)%nat && (st <? 300)%nat = true ->
  (forall el, In el ls -> mirrors (db w) el) ->
  fst (syncFromExternal w) = Return tt
  /\ db (snd (syncFromExternal w)) = db w
  /\ faults (snd (syncFromExternal w)) = faults w
  /\ remote (snd (syncFromExternal w)) = r'
  /\ requests (snd (syncFromExternal w)) = requests w ++ [fetch]
  /\ acks (snd (syncFromExternal w)) = acks w.
Proof.
  intros Hnd Hs Hst Hm.
  remember (syncFromExternal w) as run eqn:E.
  unfold syncFromExternal in E. unfold bind at 1 in E.
  unfold logger at 1 in E. rewrite try_catch_bind in E.
  unfold http in E. cbn [remote db faults requests log acks] in E.
  fold fetch in E. rewrite Hs, Hst in E.
  rewrite try_catch_bind in E. cbn [expect_lists ret] in E.
  unfold merge_snapshot in E. cbv zeta in E.
  rewrite (filter_none (fun l => negb (truthy (source_id l))) ls) in E
    by (intros el Hin; destruct (Hm el Hin) as [-> _]; reflexivity).
  rewrite (filter_all (fun l => truthy (source_id l)) ls) in E
    by (intros el Hin; now destruct (Hm el Hin) as [-> _]).
  unfold try_catch in E.
  unfold bind at 1 in E. unfold logger at 1 in E.
  unfold bind at 1 in E. unfold findLists, query in E.
  cbn [db faults remote requests log acks] in E.
  unfold bind at 1 in E. unfold logger at 1 in E.
  cbn [db faults remote requests log acks] in E.
  unfold bind at 1 in E. cbn [for_each ret] in E.
  unfold bind at 1 in E.
  match type of E with
  | context [reconcile_lists ls _ ?w1] =>
      destruct (@reconcile_lists_quiet (db w) ls Hnd Hm w1) as [entries Hq]
  end.
  rewrite Hq in E. subst run. cbn. repeat split; reflexivity.
Qed.

End SteadyState.

(** ** Source identifiers: from local ids to strings and back *)

Lemma read_digits_acc (d : Decimal.uint) :
  forall acc : positive,
    read_digits (NilEmpty.string_of_uint d) (Some (Z.pos acc))
    = Some (Z.pos (Pos.of_uint_acc d acc)).
Proof.
  induction d; intros acc; cbn [NilEmpty.string_of_uint Pos.of_uint_acc];
    [reflexivity|..];
    (unfold read_digits; fold read_digits;
     match goal with
     | |- context [digit_of ?c] =>
         let v := eval vm_compute in (digit_of c) in
         change (digit_of c) with v
     end;
     cbv iota beta;
     match goal with
     | |- read_digits _ (Some ?z) = _ =>
         match goal with
         | |- _ = Some (Z.pos (Pos.of_uint_acc _ ?p)) =>
             replace z with (Z.pos p) by lia
         end
     end;
     apply IHd).
Qed.

Lemma read_digits_zero (d : Decimal.uint) :
  read_digits (NilEmpty.string_of_uint d) (Some 0%Z)
  = Some (Z.of_N (Pos.of_uint d)).
Proof.
  induction d; cbn [NilEmpty.string_of_uint Pos.of_uint];
    [reflexivity|..];
    (unfold read_digits; fold read_digits;
     match goal with
     | |- context [digit_of ?c] =>
         let v := eval vm_compute in (digit_of c) in
         change (digit_of c) with v
     end;
     cbv iota beta;
     first [ exact IHd
           | match goal with
             | |- read_digits _ (Some ?z) = Some (Z.of_N (N.pos (Pos.of_uint_acc _ ?p))) =>
                 replace z with (Z.pos p) by lia
             end;
             apply read_digits_acc ]).
Qed.

Lemma read_digits_start (d : Decimal.uint) :
  d <> Decimal.Nil ->
  read_digits (NilEmpty.string_of_uint d) None
  = Some (Z.of_N (Pos.of_uint d)).
Proof.
  intros Hd. rewrite <- read_digits_zero.
  destruct d; [congruence|..]; reflexivity.
Qed.

Lemma parseInt_digits (d : Decimal.uint) :
  d <> Decimal.Nil ->
  parseInt (NilEmpty.string_of_uint d) = Some (Z.of_N (Pos.of_uint d)).
Proof.
  intros Hd. rewrite <- (read_digits_start Hd).
  destruct d; [congruence|..]; reflexivity.
Qed.

(** [parseInt(n.toString(), 10)] is [n], for every integer. *)
Lemma parseInt_toString (n : Z) : parseInt (toString n) = Some n.
Proof.
  unfold toString. destruct n as [|p|p]; cbn [Z.to_int NilEmpty.string_of_int].
  - reflexivity.
  - rewrite parseInt_digits by apply DecimalPos.Unsigned.to_uint_nonnil.
    now rewrite DecimalPos.Unsigned.of_to.
  - unfold parseInt.
    change (skip_spaces (String "-" ?s)) with (String "-" s).
    cbv iota beta.
    rewrite read_digits_start by apply DecimalPos.Unsigned.to_uint_nonnil.
    now rewrite DecimalPos.Unsigned.of_to.
Qed.

Section Identifiers.

Context {R : Type} `{HttpClient R}.

(** X12.  The identifier spaces are mapped faithfully. The source identifier
    that the creation request gives a list reads back, in the pass, as the id
    of that list, which is then found among the loaded lists; and a response
    item that echoes the source identifier of a todo of the request is matched
    to that todo and to no other. *)
Theorem source_id_round_trip (l : TodoList) (s : Store) :
  NoDup (map list_id (lists s)) ->
  NoDup (map todo_id (todos s)) ->
  In l (lists s) ->
  (exists name its,
     body (creation_request l s) = CreateListBody (toString (list_id l)) name its
     /\ map ib_source_id its
        = map (fun t => toString (todo_id t)) (todos_of (list_id l) s))
  /\ (forall el, source_id el = Some (toString (list_id l)) ->
        localId_of el = Some (list_id l)
        /\ orphan s el = false
        /\ exists i,
             map_get (localId_of el)
               (map (fun l => (l, todos_of (list_id l) s)) (lists s))
             = Some (i, (l, todos_of (list_id l) s)))
  /\ (forall t it, In t (todos_of (list_id l) s) ->
        item_source_id it = Some (toString (todo_id t)) ->
        find (fun t => source_matches t it) (todos_of (list_id l) s) = Some t).
Proof.
  intros Hnl Hnt Hin.
  assert (Hl : lookup_list (list_id l) s = Some l).
  { rewrite lookup_list_by_key. now apply by_key_unique. }
  split; [|split].
  - unfold creation_request. cbn [body]. do 2 eexists. split; [reflexivity|].
    rewrite map_map. reflexivity.
  - intros el Hsrc.
    assert (Hloc : localId_of el = Some (list_id l)).
    { unfold localId_of. rewrite Hsrc. apply parseInt_toString. }
    split; [exact Hloc|]. split.
    + unfold orphan. rewrite Hloc, Hl. apply andb_false_r.
    + rewrite Hloc. now apply map_get_loaded.
  - intros t it Ht Hsrc.
    destruct (find (fun t0 => source_matches t0 it) (todos_of (list_id l) s))
      as [t'|] eqn:E.
    + apply find_some in E. destruct E as [Hin' Hm].
      apply source_matches_spec in Hm. rewrite Hsrc in Hm.
      injection Hm as Hm. apply toString_inj in Hm. f_equal.
      unfold todos_of in Ht, Hin'. apply filter_In in Ht, Hin'.
      apply (nodup_map_inj todo_id (todos s)); [exact Hnt | tauto | tauto | congruence].
    + exfalso. pose proof (find_none _ _ E t Ht) as Hf.
      apply source_matches_spec in Hsrc. congruence.
Qed.

End Identifiers.

(** ** The mutation sites of the items *)

(** [todoRepository.delete(id)] *)
Definition store_delete_todo (id : Z) (s : Store) : unit * Store :=
  (tt, mkStore (lists s)
               (filter (fun t => negb (todo_id t =? id)%Z) (todos s))
               (next_list_id s) (next_todo_id s)).

Section Mutations.

Context {R : Type} `{HttpClient R}.

(** [TodosService.delete]: the todo is read with its list, the row is
    deleted and the deletion event is emitted on the queue; as for
    [TodosService_create], the event is the result of the computation.  A
    todo without list makes the read of [todo.todoList.id] fail. *)
Definition TodosService_delete (id : Z) : @M R SyncEvent :=
  todo <- findOneTodoWithList id ;;
  match todo with
  | None =>
      throw (HttpException NOT_FOUND
               ("Todo with id " ++ toString id ++ " not found"))
  | Some (_, None) => throw TypeError
  | Some (_, Some _) =>
      persist (store_delete_todo id) ;;;
      ret (mkEvent DELETE_TODO_ITEM id)
  end.

Lemma lookup_after_delete id j s :
  lookup_todo j (snd (store_delete_todo id s))
  = if (j =? id)%Z then None else lookup_todo j s.
Proof.
  unfold lookup_todo, store_delete_todo. cbn [snd todos].
  induction (todos s) as [|t r IH]; cbn [filter find].
  - now destruct (j =? id)%Z.
  - destruct (todo_id t =? id)%Z eqn:E; cbn [negb find].
    + rewrite IH. apply Z.eqb_eq in E. rewrite E.
      destruct (j =? id)%Z eqn:E1; [reflexivity|].
      rewrite Z.eqb_sym, E1. reflexivity.
    + destruct (todo_id t =? j)%Z eqn:E1; [|exact IH].
      apply Z.eqb_eq in E1. subst j. now rewrite E.
Qed.

(** X13.  The deletion of an item is not propagated by its event. When
    [TodosService.delete] returns, the row is gone, the other rows are as they
    were, and the handling of the emitted event finds no row: it returns
    normally without sending any request, so the remote item, if there is one,
    stays. *)
Theorem deleted_item_is_not_propagated (id : Z) (w : World R) (ev : SyncEvent) :
  fst (TodosService_delete id w) = Return ev ->
  let w1 := snd (TodosService_delete id w) in
  let handled := handleSyncEvent ev w1 in
  ev = mkEvent DELETE_TODO_ITEM id
  /\ lookup_todo id (db w1) = None
  /\ (forall j, j <> id -> lookup_todo j (db w1) = lookup_todo j (db w))
  /\ lists (db w1) = lists (db w)
  /\ requests w1 = requests w /\ remote w1 = remote w
  /\ fst handled = Return tt
  /\ only_logs w1 (snd handled).
Proof.
  intros Hr. cbv zeta.
  remember (TodosService_delete id w) as run eqn:E.
  unfold TodosService_delete in E. unfold bind at 1 in E.
  unfold findOneTodoWithList, query in E.
  destruct (lookup_todo id (db w)) as [t|]; cbn [option_map] in E;
    [|subst run; discriminate].
  destruct (todoList_of t (db w)) as [l|];
    [|subst run; discriminate].
  unfold bind in E. unfold persist in E.
  assert (Hgone : forall w1 : World R,
            db w1 = snd (store_delete_todo id (db w)) ->
            lookup_todo id (db w1) = None
            /\ (forall j, j <> id -> lookup_todo j (db w1) = lookup_todo j (db w))
            /\ lists (db w1) = lists (db w)
            /\ fst (handleSyncEvent (mkEvent DELETE_TODO_ITEM id) w1) = Return tt
            /\ only_logs w1 (snd (handleSyncEvent (mkEvent DELETE_TODO_ITEM id) w1))).
  { intros w1 Hd.
    assert (Hn : lookup_todo id (db w1) = None)
      by (rewrite Hd, lookup_after_delete, Z.eqb_refl; reflexivity).
    split; [exact Hn|]. split; [|split].
    - intros j Hj. rewrite Hd, lookup_after_delete.
      destruct (Z.eqb_spec j id); [contradiction | reflexivity].
    - now rewrite Hd.
    - destruct (absent_todo_events id w1 Hn)
        as (_ & _ & _ & _ & Ho & Hq).
      split; [exact Ho | exact Hq]. }
  destruct (faults w) as [[|n]|]; cbn [store_delete_todo] in E.
  - subst run. discriminate.
  - subst run. cbn [fst snd ret] in *. injection Hr as <-.
    match goal with
    | |- context [lookup_todo id (db ?w1) = None] =>
        destruct (Hgone w1 eq_refl) as (A1 & A2 & A3 & A4 & A5)
    end.
    repeat split; auto; apply A5.
  - subst run. cbn [fst snd ret] in *. injection Hr as <-.
    match goal with
    | |- context [lookup_todo id (db ?w1) = None] =>
        destruct (Hgone w1 eq_refl) as (A1 & A2 & A3 & A4 & A5)
    end.
    repeat split; auto; apply A5.
Qed.

Lemma wf_insert_any_todo ttl c e lid s :
  wf_store s -> wf_store (snd (store_insert_todo ttl c e lid s)).
Proof.
  intros (NL & NT & BL & BT). unfold wf_store, store_insert_todo.
  cbn [snd lists todos next_list_id next_todo_id].
  repeat split; auto.
  - rewrite map_app. apply nodup_append; auto.
    + cbn. constructor; [intros [] | constructor].
    + intros x Hx [<-|[]]. apply in_map_iff in Hx.
      destruct Hx as (t & Ht & Hin). specialize (BT _ Hin). cbn in Ht. lia.
  - intros t Hin. apply in_app_iff in Hin. destruct Hin as [Hin|[<-|[]]].
    + specialize (BT _ Hin). lia.
    + cbn. lia.
Qed.

(** X14.  [TodosService.create]. Without the list it fails with NotFound and
    nothing is written. With it, the database accepting the write, the new row
    takes the next id of the sequence, which no row had, has no external id
    and is not completed; the other rows are as they were, and the event
    emitted is the creation of that row. *)
Theorem item_creation_site (ttl : string) (lid : Z) (w : World R) :
  wf_store (db w) ->
  let run := TodosService_create ttl lid w in
  let id := next_todo_id (db w) in
  match lookup_list lid (db w) with
  | None =>
      run = (Throw (HttpException NOT_FOUND
                      ("TodoList with id " ++ toString lid ++ " not found")), w)
  | Some _ =>
      faults w <> Some 0%nat ->
      fst run = Return (mkEvent CREATE_TODO_ITEM id)
      /\ lookup_todo id (db w) = None
      /\ lookup_todo id (db (snd run)) = Some (mkTodo id None ttl false (Some lid))
      /\ (forall j, j <> id ->
            lookup_todo j (db (snd run)) = lookup_todo j (db w))
      /\ lists (db (snd run)) = lists (db w)
      /\ wf_store (db (snd run))
      /\ requests (snd run) = requests w /\ remote (snd run) = remote w
  end.
Proof.
  intros Hwf. cbv zeta.
  remember (TodosService_create ttl lid w) as run eqn:E.
  unfold TodosService_create in E. unfold bind at 1, query in E.
  destruct (lookup_list lid (db w)) as [l|] eqn:Hl; [|exact E].
  intros Hfa.
  pose proof (by_key_key _ _ _ Hl) as [Hid _].
  assert (Hnew : lookup_todo (next_todo_id (db w)) (db w) = None).
  { rewrite lookup_todo_by_key. apply by_key_none. intros Hin.
    apply in_map_iff in Hin. destruct Hin as (t & Ht & Hin).
    destruct Hwf as (_ & _ & _ & Hlt). specialize (Hlt t Hin). lia. }
  assert (Hstore : forall w1 : World R,
            db w1 = snd (store_insert_todo ttl false None lid (db w)) ->
            lookup_todo (next_todo_id (db w)) (db w1)
            = Some (mkTodo (next_todo_id (db w)) None ttl false (Some lid))
            /\ (forall j, j <> next_todo_id (db w) ->
                  lookup_todo j (db w1) = lookup_todo j (db w))
            /\ lists (db w1) = lists (db w)
            /\ wf_store (db w1)).
  { intros w1 Hd. rewrite Hd. unfold store_insert_todo. cbn [snd].
    refine (conj _ (conj _ (conj eq_refl _))).
    - rewrite lookup_todo_by_key. cbn [todos]. rewrite by_key_app.
      rewrite <- lookup_todo_by_key, Hnew. cbn. now rewrite Z.eqb_refl.
    - intros j Hj. rewrite !lookup_todo_by_key. cbn [todos].
      rewrite by_key_app. destruct (by_key todo_id j (todos (db w))); [reflexivity|].
      cbn. destruct (Z.eqb_spec (next_todo_id (db w)) j); [congruence | reflexivity].
    - apply (wf_insert_any_todo ttl false None lid Hwf). }
  unfold bind, saveNewTodo, persist in E. rewrite Hid in E.
  destruct (faults w) as [[|n]|]; [congruence| |];
    cbn [store_insert_todo] in E; subst run; cbn [fst snd ret todo_id];
    (split; [reflexivity|]); (split; [exact Hnew|]);
    match goal with
    | |- context [lists (db ?w1) = _] =>
        destruct (Hstore w1 eq_refl) as (B1 & B2 & B3 & B4)
    end; repeat split; auto; apply B4.
Qed.

(** X16.  The list-creation flow when it fails. If the creation request is
    rejected the handler fails with the error of the rejection and the store
    is untouched. If the request is accepted and the database then rejects the
    first write, the handler fails with the database error and the store is
    untouched as well, although the remote system has served the request: the
    list stays without external id. *)
Theorem list_creation_failure (id : Z) (w : World R) (l : TodoList) :
  lookup_list id (db w) = Some l ->
  truthy (list_external_id l) = false ->
  let run := handleSyncEvent (mkEvent CREATE_TODO_LIST id) w in
  let req := creation_request l (db w) in
  (forall e, rejection (answer req w) = Some e ->
     fst run = Throw e /\ db (snd run) = db w /\ faults (snd run) = faults w
     /\ requests (snd run) = requests w ++ [req])
  /\ (forall st el, answer req w = Reply st (ListData el) ->
        rejection (answer req w) = None ->
        faults w = Some 0%nat ->
        fst run = Throw QueryFailedError
        /\ db (snd run) = db w
        /\ remote (snd run) = snd (send req (remote w))
        /\ requests (snd run) = requests w ++ [req]).
Proof.
  intros Hl Ht. cbv zeta.
  remember (handleSyncEvent (mkEvent CREATE_TODO_LIST id) w) as run eqn:E.
  rewrite handleSyncEvent_unfold in E.
  change (dispatch (mkEvent CREATE_TODO_LIST id))
    with (createTodoList (R := R) id) in E.
  set (w0 := logged w [processing (mkEvent CREATE_TODO_LIST id)]) in E.
  unfold createTodoList in E.
  unfold try_catch at 1, bind at 1, findOneListWithTodos, query in E.
  change (db w0) with (db w) in E. rewrite Hl in E. cbn [option_map] in E.
  rewrite Ht in E. cbv zeta in E. rewrite try_catch_bind in E.
  pose proof (by_key_key _ _ _ Hl) as [Hid _].
  fold (creation_request l (db w)) in E.
  change (answer (creation_request l (db w)) w)
    with (answer (creation_request l (db w)) w0).
  unfold creation_request in *.
  split.
  - intros e Hr. rewrite (http_rejected _ _ _ _ Hr) in E.
    subst run. cbn. repeat split; reflexivity.
  - intros st el Ha Hr Hfa.
    destruct (http_accepted _ _ _ _ Hr) as [d Hd].
    assert (d = ListData el).
    { unfold http in Hd. unfold answer in Ha.
      destruct (send _ _) as [resp r']. cbn [fst] in Ha. subst resp.
      destruct (_ && _); now inversion Hd. }
    subst d. rewrite Hd in E. rewrite try_catch_bind in E.
    unfold saveList, persist in E. unfold w0 in E.
    cbn [faults sent logged] in E. rewrite Hfa in E. subst run. cbn. repeat split; reflexivity.
Qed.

End Mutations.

(** ** The import of the remote lists that have no source identifier *)

(** The rows that the import loop makes of one remote list: the list, and
    one todo per item when it has items. *)
Definition import_effect (el : ExternalList) (s : Store) : Store :=
  let s1 := snd (store_insert_list (ext_name el) (Some (ext_id el)) s) in
  match items el with
  | [] => s1
  | _ :: _ => snd (store_insert_items (items el) (next_list_id s) s1)
  end.

Definition imported (els : list ExternalList) (s : Store) : Store :=
  fold_left (fun st el => import_effect el st) els s.

(** The list rows made of the remote lists [els], from the id [n] on. *)
Fixpoint import_rows (n : Z) (els : list ExternalList) : list TodoList :=
  match els with
  | [] => []
  | el :: r => mkTodoList n (Some (ext_id el)) (ext_name el) :: import_rows (n + 1) r
  end.

Lemma import_effect_spec el s :
  lists (import_effect el s)
  = lists s ++ [mkTodoList (next_list_id s) (Some (ext_id el)) (ext_name el)]
  /\ next_list_id (import_effect el s) = (next_list_id s + 1)%Z
  /\ todos (import_effect el s)
     = todos s ++ new_rows (next_todo_id s) (items el) (next_list_id s)
  /\ next_todo_id (import_effect el s)
     = (next_todo_id s + Z.of_nat (List.length (items el)))%Z.
Proof.
  unfold import_effect. cbv zeta. destruct (items el) as [|it r] eqn:E.
  - cbn. rewrite app_nil_r, Z.add_0_r. auto.
  - rewrite store_insert_items_spec. cbn. auto.
Qed.

Lemma new_rows_item n its lid it :
  In it its ->
  exists t, In t (new_rows n its lid)
    /\ todoListId t = Some lid
    /\ todo_external_id t = Some (item_id it)
    /\ title t = description it
    /\ completed t = item_completed it.
Proof.
  revert n. induction its as [|x r IH]; intros n Hit; [destruct Hit|].
  destruct Hit as [->|Hit].
  - eexists. split; [now left|]. cbn. auto.
  - destruct (IH (n + 1)%Z Hit) as (t & Ht & Hp).
    exists t. split; [now right | exact Hp].
Qed.

Lemma imported_spec els : forall s,
  lists (imported els s) = lists s ++ import_rows (next_list_id s) els
  /\ exists extra,
       todos (imported els s) = todos s ++ extra
       /\ (forall t, In t extra -> (next_todo_id s <= todo_id t)%Z)
       /\ forall i el, nth_error els i = Some el ->
            forall it, In it (items el) ->
              exists t, In t extra
                /\ todoListId t = Some (next_list_id s + Z.of_nat i)%Z
                /\ todo_external_id t = Some (item_id it)
                /\ title t = description it
                /\ completed t = item_completed it.
Proof.
  unfold imported.
  induction els as [|el r IH]; intros s; cbn [fold_left import_rows].
  - rewrite app_nil_r. split; [reflexivity|]. exists []. rewrite app_nil_r.
    split; [reflexivity|]. split; [intros t []|].
    intros i el Hn. destruct i; discriminate.
  - destruct (import_effect_spec el s) as (L1 & N1 & T1 & M1).
    destruct (IH (import_effect el s)) as (L2 & extra & T2 & B2 & I2).
    split.
    + rewrite L2, L1, N1, <- app_assoc. reflexivity.
    + exists (new_rows (next_todo_id s) (items el) (next_list_id s) ++ extra).
      split; [rewrite T2, T1, <- app_assoc; reflexivity|]. split.
      * intros t Ht. apply in_app_iff in Ht. destruct Ht as [Ht|Ht].
        -- apply new_rows_ids in Ht. lia.
        -- specialize (B2 t Ht). lia.
      * intros i el' Hn it Hit. destruct i as [|i]; cbn [nth_error] in Hn.
        -- injection Hn as <-.
           destruct (@new_rows_item (next_todo_id s) (items el) (next_list_id s) it Hit)
             as (t & Ht & Hl & Hp).
           exists t. split; [apply in_app_iff; now left|].
           split; [rewrite Hl; f_equal; cbn; lia | exact Hp].
        -- destruct (I2 i el' Hn it Hit) as (t & Ht & Hl & Hp).
           exists t. split; [apply in_app_iff; now right|].
           split; [rewrite Hl, N1; f_equal; lia | exact Hp].
Qed.

Lemma import_rows_keys n els :
  map list_id (import_rows n els)
  = map (fun i => (n + Z.of_nat i)%Z) (seq 0 (List.length els)).
Proof.
  revert n. induction els as [|el r IH]; intros n; cbn [import_rows map List.length seq].
  - reflexivity.
  - f_equal; [cbn; lia|]. rewrite IH, <- seq_shift, map_map.
    apply map_ext. intros i. lia.
Qed.

Lemma import_rows_nth n els i el :
  nth_error els i = Some el ->
  In (mkTodoList (n + Z.of_nat i) (Some (ext_id el)) (ext_name el))
     (import_rows n els).
Proof.
  revert n i. induction els as [|x r IH]; intros n i; destruct i as [|i];
    cbn [nth_error import_rows]; try discriminate.
  - intros [= ->]. left. f_equal. lia.
  - intros Hn. right. replace (n + Z.of_nat (S i))%Z with (n + 1 + Z.of_nat i)%Z by lia.
    now apply IH.
Qed.

Section Imports.

Context {R : Type} `{HttpClient R}.

Lemma import_list_effect el s0 :
  striple (R := R) (eq s0) (import_list el)
    (fun _ s => s = import_effect el s0) (fun _ => True).
Proof.
  unfold import_list.
  eapply striple_bind with (Q := fun _ => eq s0); [apply st_logger; auto|].
  intros _.
  eapply striple_bind
    with (Q := fun l s =>
                 s = snd (store_insert_list (ext_name el) (Some (ext_id el)) s0)
                 /\ list_id l = next_list_id s0).
  { unfold saveNewList. apply st_persist; [auto|]. intros s <-. auto. }
  intros l. unfold import_effect. cbv zeta.
  eapply striple_bind
    with (Q := fun _ s => s = match items el with
                              | [] => snd (store_insert_list (ext_name el)
                                             (Some (ext_id el)) s0)
                              | _ :: _ =>
                                  snd (store_insert_items (items el)
                                         (next_list_id s0)
                                         (snd (store_insert_list (ext_name el)
                                                 (Some (ext_id el)) s0)))
                              end).
  2:{ intros _. apply st_logger. auto. }
  destruct (items el) as [|it r].
  - apply striple_ret. intros s [-> _]. reflexivity.
  - eapply striple_bind with (Q := fun _ s => s = _).
    2:{ intros _. apply st_logger. intros s Hs. exact Hs. }
    unfold saveNewTodos. apply st_persist; [auto|].
    intros s [-> ->]. reflexivity.
Qed.

Lemma import_loop_effect els : forall s0,
  striple (R := R) (eq s0) (for_each els import_list)
    (fun _ s => s = imported els s0) (fun _ => True).
Proof.
  induction els as [|el r IH]; intros s0; cbn [for_each].
  - apply striple_ret. intros s <-. reflexivity.
  - eapply striple_bind; [apply import_list_effect|].
    intros []. apply st_pre. intros s1 ->. apply IH.
Qed.

(** *** What the second loop of the pass leaves alone *)

Variable ids0 : list Z.
Variable tids0 : list Z.

(** The list ids are kept when the ids [ids0] are among them, and the rows
    with other ids than [ids0], [tids0] stay in their tables, as to the
    todos those that are in none of the lists [ids0]. *)
Definition elsewhere (t : Todo) : Prop :=
  forall j, todoListId t = Some j -> ~ In j ids0.

Definition spares (w w' : World R) : Prop :=
  (incl ids0 (map list_id (lists (db w))) ->
   map list_id (lists (db w')) = map list_id (lists (db w)))
  /\ (forall l, In l (lists (db w)) -> ~ In (list_id l) ids0 ->
        In l (lists (db w')))
  /\ (forall t, In t (todos (db w)) -> ~ In (todo_id t) tids0 ->
        elsewhere t -> In t (todos (db w'))).

Lemma spares_refl w : spares w w.
Proof. unfold spares. auto. Qed.

Lemma spares_trans a b c : spares a b -> spares b c -> spares a c.
Proof.
  intros (K1 & L1 & T1) (K2 & L2 & T2). refine (conj _ (conj _ _)).
  - intros Hi. rewrite K2, K1; auto. now rewrite K1.
  - intros l Hl Hn. apply L2; auto.
  - intros t Ht Hn He. apply T2; auto.
Qed.

Lemma spares_same_db (w w' : World R) : db w' = db w -> spares w w'.
Proof. intros E. unfold spares. rewrite E. auto. Qed.

Lemma spares_logger lv s : guarantees spares (logger lv s).
Proof. intros w. now apply spares_same_db. Qed.

Lemma spares_http m u b : guarantees spares (http m u b).
Proof. intros w. apply spares_same_db. apply reads_only_http. Qed.

Lemma spares_persist A (f : Store -> A * Store) :
  (forall s,
     (incl ids0 (map list_id (lists s)) ->
      map list_id (lists (snd (f s))) = map list_id (lists s))
     /\ (forall l, In l (lists s) -> ~ In (list_id l) ids0 ->
           In l (lists (snd (f s))))
     /\ (forall t, In t (todos s) -> ~ In (todo_id t) tids0 ->
           elsewhere t -> In t (todos (snd (f s))))) ->
  guarantees spares (persist f).
Proof.
  intros Hf w. unfold persist.
  destruct (faults w) as [[|n]|]; [apply spares_refl| |];
    specialize (Hf (db w)); destruct (f (db w)); exact Hf.
Qed.

Lemma spares_saveTodo t :
  In (todo_id t) tids0 -> guarantees spares (saveTodo t).
Proof.
  intros Hin. unfold saveTodo. apply spares_persist. intros s.
  cbn [snd store_save_todo lists todos]. refine (conj _ (conj _ _)); auto.
  intros t' Ht' Hn _. apply in_upsert_other; [exact Ht' | congruence].
Qed.

Lemma spares_saveNewTodo ttl c e lid :
  guarantees spares (saveNewTodo ttl c e lid).
Proof.
  unfold saveNewTodo. apply spares_persist. intros s.
  cbn [snd store_insert_todo lists todos]. refine (conj _ (conj _ _)); auto.
  intros t Ht _ _. apply in_app_iff. now left.
Qed.

Lemma spares_saveList l ts :
  In (list_id l) ids0 -> guarantees spares (saveList l ts).
Proof.
  intros Hin. unfold saveList. apply spares_persist. intros s.
  cbn [snd store_save_list_with lists todos]. refine (conj _ (conj _ _)).
  - intros Hi. apply keys_upsert. now apply Hi.
  - intros l' Hl' Hn. apply in_upsert_other; [exact Hl' | congruence].
  - intros t Ht _ He. rewrite <- (@detach_kept l ts t).
    + now apply in_map.
    + intros Hk. exfalso. exact (He _ Hk Hin).
Qed.

Lemma yields_bind_dep A B (Q1 : A -> Prop) (Q : B -> Prop)
  (c : @M R A) (k : A -> M B) :
  yields Q1 c -> (forall a, Q1 a -> yields Q (k a)) -> yields Q (bind c k).
Proof.
  intros Hc Hk w. unfold bind. specialize (Hc w).
  destruct (c w) as [[a|e] w1]; [apply Hk; exact Hc | exact I].
Qed.

Lemma guarantees_bind_yields A B (Q : A -> Prop) (c : @M R A) (k : A -> M B) :
  guarantees spares c -> yields Q c ->
  (forall a, Q a -> guarantees spares (k a)) ->
  guarantees spares (bind c k).
Proof.
  intros Hc Hy Hk w. unfold bind. specialize (Hc w). specialize (Hy w).
  destruct (c w) as [[a|e] w1]; cbn [fst snd] in *; [|exact Hc].
  eapply spares_trans; [exact Hc | now apply Hk].
Qed.

Ltac spares_with known :=
  repeat first
    [ known
    | apply spares_logger
    | apply spares_http
    | apply spares_saveNewTodo
    | frame_step spares_refl spares_trans ].

Lemma reconcile_item_spares l ts it :
  incl (map todo_id ts) tids0 ->
  guarantees spares (reconcile_item l ts it)
  /\ yields (R := R) (fun ts' => map todo_id ts' = map todo_id ts)
            (reconcile_item l ts it).
Proof.
  intros Hi. unfold reconcile_item.
  destruct (negb (truthy (Some (item_id it)))).
  { split; [spares_with fail | now apply yields_ret]. }
  destruct (last_match _ ts) as [[j t]|] eqn:E.
  - pose proof (last_match_some _ _ E) as [Hin _].
    pose proof (last_match_nth _ _ E) as Hn.
    cbv zeta.
    set (t1 := if negb (title t =? description it)%string
               then set_title t (description it) else t).
    set (t2 := if negb (Bool.eqb (completed t) (item_completed it))
               then set_completed t1 (item_completed it) else t1).
    assert (Hid : todo_id t2 = todo_id t).
    { unfold t2, t1.
      destruct (negb (title t =? description it)%string),
               (negb (Bool.eqb (completed t) (item_completed it)));
        reflexivity. }
    destruct (_ || _).
    + split.
      * spares_with ltac:(apply spares_saveTodo; rewrite Hid; apply Hi;
                          now apply in_map).
      * repeat (apply yields_bind; intros ?). apply yields_ret.
        now apply map_replace_nth with (x := t).
    + split; [spares_with fail | now apply yields_ret].
  - split; [spares_with fail|].
    repeat (apply yields_bind; intros ?). now apply yields_ret.
Qed.

Lemma reconcile_items_spares l its : forall ts,
  incl (map todo_id ts) tids0 ->
  guarantees spares (reconcile_items l its ts)
  /\ yields (R := R) (fun ts' => map todo_id ts' = map todo_id ts)
            (reconcile_items l its ts).
Proof.
  induction its as [|it r IH]; intros ts Hi; cbn [reconcile_items].
  - split; [spares_with fail | now apply yields_ret].
  - destruct (reconcile_item_spares l ts it Hi) as [G1 Y1]. split.
    + eapply guarantees_bind_yields; [exact G1 | exact Y1|].
      intros ts' E. apply IH. now rewrite E.
    + eapply yields_bind_dep; [exact Y1|].
      intros ts' E. cbv beta. rewrite <- E. apply IH. now rewrite E.
Qed.

Lemma report_missing_spares l its ts :
  guarantees spares (report_missing l its ts).
Proof. unfold report_missing. spares_with fail. Qed.

Lemma reconcile_list_spares el l ts :
  In (list_id l) ids0 -> incl (map todo_id ts) tids0 ->
  guarantees spares (reconcile_list el l ts)
  /\ yields (R := R) (fun r => list_id (fst r) = list_id l
                      /\ map todo_id (snd r) = map todo_id ts)
            (reconcile_list el l ts).
Proof.
  intros Hl Hi. unfold reconcile_list. cbv zeta.
  set (l1 := if negb (list_name l =? ext_name el)%string
             then set_list_name l (ext_name el) else l).
  set (l2 := if differs (list_external_id l1) (ext_id el)
             then set_list_external_id l1 (Some (ext_id el)) else l1).
  assert (Hid : list_id l2 = list_id l).
  { unfold l2, l1.
    destruct (negb (list_name l =? ext_name el)%string),
             (differs _ (ext_id el)); reflexivity. }
  destruct (reconcile_items_spares l2 (items el) ts Hi) as [G1 Y1].
  split.
  - apply (guarantees_bind spares_trans).
    { destruct (negb _); spares_with fail. }
    intros _. apply (guarantees_bind spares_trans).
    { destruct (differs _ _); spares_with fail. }
    intros _. apply (guarantees_bind spares_trans); [exact G1|].
    intros ts'.
    spares_with ltac:(first [ apply report_missing_spares
                            | apply spares_saveList; rewrite Hid; exact Hl ]).
  - apply yields_bind. intros _. apply yields_bind. intros _.
    eapply yields_bind_dep; [exact Y1|]. intros ts' E. cbv beta.
    repeat (apply yields_bind; intros ?). apply yields_ret. cbn [fst snd].
    split; [exact Hid | exact E].
Qed.

(** The objects in memory are lists and todos of the start. *)
Definition mem_within (mem : Mem) : Prop :=
  forall l ts, In (l, ts) mem ->
    In (list_id l) ids0 /\ incl (map todo_id ts) tids0.

Lemma reconcile_entry_spares mem el :
  mem_within mem ->
  guarantees spares (reconcile_entry mem el)
  /\ yields (R := R) mem_within (reconcile_entry mem el).
Proof.
  intros Hm. unfold reconcile_entry. cbv zeta.
  destruct (map_get (localId_of el) mem) as [[i [l ts]]|] eqn:E.
  - destruct (map_get_some _ _ E) as [Hin _].
    destruct (Hm l ts Hin) as [Hl Hi].
    destruct (reconcile_list_spares el l ts Hl Hi) as [G Y]. split.
    + spares_with ltac:(exact G).
    + eapply yields_bind_dep; [exact Y|]. intros [l' ts'] [El Et].
      apply yields_ret. intros l0 ts0 Hin0.
      apply in_replace_nth in Hin0. destruct Hin0 as [[= -> ->]|Hin0].
      * cbn [fst snd] in *. rewrite El, Et. auto.
      * now apply Hm.
  - split; [spares_with fail|].
    repeat (apply yields_bind; intros ?). now apply yields_ret.
Qed.

Lemma reconcile_lists_spares els : forall mem,
  mem_within mem -> guarantees spares (reconcile_lists els mem).
Proof.
  induction els as [|el r IH]; intros mem Hm; cbn [reconcile_lists].
  - spares_with fail.
  - destruct (@reconcile_entry_spares mem el Hm) as [G Y].
    eapply guarantees_bind_yields; [exact G | exact Y|].
    intros mem' Hm'. now apply IH.
Qed.

End Imports.

Lemma wf_import_effect el s : wf_store s -> wf_store (import_effect el s).
Proof.
  intros Hwf. unfold import_effect. cbv zeta.
  pose proof (wf_insert_list (ext_name el) (Some (ext_id el)) Hwf) as H1.
  destruct (items el); [exact H1|]. now apply wf_insert_items.
Qed.

Lemma wf_imported els : forall s, wf_store s -> wf_store (imported els s).
Proof.
  unfold imported. induction els as [|el r IH]; intros s Hwf; cbn [fold_left];
    [exact Hwf|]. apply IH. now apply wf_import_effect.
Qed.

Section ImportedLists.

Context {R : Type} `{HttpClient R}.

(** The rows that a pass makes of the remote lists [news], which have no
    source identifier, in the store [s'] it leaves when started from [s]:
    after the list ids of [s] come the next ids of the sequence, one per
    remote list; the row of each holds the name and the id of the remote
    list; and every item of the remote list has a todo under that row with
    its id, description and completion flag. *)
Definition imports (news : list ExternalList) (s s' : Store) : Prop :=
  let n := next_list_id s in
  map list_id (lists s')
  = map list_id (lists s)
    ++ map (fun i => (n + Z.of_nat i)%Z) (seq 0 (List.length news))
  /\ forall i el, nth_error news i = Some el ->
       lookup_list (n + Z.of_nat i) s'
       = Some (mkTodoList (n + Z.of_nat i) (Some (ext_id el)) (ext_name el))
       /\ forall it, In it (items el) ->
            exists t, In t (todos s')
              /\ todoListId t = Some (n + Z.of_nat i)%Z
              /\ todo_external_id t = Some (item_id it)
              /\ title t = description it
              /\ completed t = item_completed it.

Lemma merge_snapshot_imports ls (w : World R) :
  wf_store (db w) ->
  fst (merge_snapshot ls w) = Return tt ->
  imports (filter (fun l => negb (truthy (source_id l))) ls)
          (db w) (db (snd (merge_snapshot ls w))).
Proof.
  intros Hwf.
  remember (merge_snapshot ls w) as run eqn:E.
  unfold merge_snapshot in E. cbv zeta in E.
  unfold bind at 1 in E. unfold logger at 1 in E.
  unfold bind at 1 in E. unfold findLists, query in E. cbn [db] in E.
  unfold bind at 1 in E. unfold logger at 1 in E.
  cbn [db faults remote requests log acks] in E.
  set (w1 := mkWorld _ _ _ _ _ _) in E.
  assert (Hd1 : db w = db w1) by reflexivity.
  clearbody w1.
  set (news := filter (fun l => negb (truthy (source_id l))) ls) in *.
  set (mem := map (fun l => (l, todos_of (list_id l) (db w))) (lists (db w))) in E.
  unfold bind at 1 in E.
  pose proof (@import_loop_effect R news (db w) w1 Hd1) as Hs.
  destruct (for_each news import_list w1) as [[[]|e] w2]; cbn [fst snd] in *;
    [|subst run; discriminate].
  unfold bind at 1 in E.
  assert (Hmem : mem_within (map list_id (lists (db w)))
                            (map todo_id (todos (db w))) mem).
  { intros l ts Hin. unfold mem in Hin. apply in_map_iff in Hin.
    destruct Hin as (l0 & [= <- <-] & Hin). split; [now apply in_map|].
    intros j Hj. apply in_map_iff in Hj. destruct Hj as (t & <- & Ht).
    unfold todos_of in Ht. apply filter_In in Ht. apply in_map. tauto. }
  pose proof (@reconcile_lists_spares R _ _ _
                (filter (fun l => truthy (source_id l)) ls) mem Hmem w2) as Hsp.
  destruct (reconcile_lists _ mem w2) as [[[]|e] w3]; cbn [fst snd] in *;
    [|subst run; discriminate].
  subst run. intros _. cbn [logger snd db].
  destruct Hsp as (K & L & T).
  destruct (imported_spec news (db w)) as (Hl & extra & Ht & Hlow & Hitems).
  rewrite <- Hs in Hl, Ht.
  pose proof (wf_imported news Hwf) as Hwf2. rewrite <- Hs in Hwf2.
  destruct Hwf as (_ & _ & BL & BT).
  assert (Hkeys : map list_id (lists (db w3)) = map list_id (lists (db w2))).
  { apply K. rewrite Hl, map_app. intros k Hk. apply in_app_iff. now left. }
  unfold imports. cbv zeta. split.
  - rewrite Hkeys, Hl, map_app, import_rows_keys. reflexivity.
  - intros i el Hn. split.
    + assert (Hin : In (mkTodoList (next_list_id (db w) + Z.of_nat i)
                          (Some (ext_id el)) (ext_name el)) (lists (db w3))).
      { apply L.
        - rewrite Hl. apply in_app_iff. right. now apply import_rows_nth.
        - cbn [list_id]. intros Hk. apply in_map_iff in Hk.
          destruct Hk as (l & Hk & Hk'). specialize (BL l Hk'). lia. }
      rewrite lookup_list_by_key.
      change (next_list_id (db w) + Z.of_nat i)%Z
        with (list_id (mkTodoList (next_list_id (db w) + Z.of_nat i)
                         (Some (ext_id el)) (ext_name el))) at 1.
      apply by_key_unique; [|exact Hin].
      rewrite Hkeys. now destruct Hwf2.
    + intros it Hit. destruct (Hitems i el Hn it Hit) as (t & Hin & Hp).
      exists t. split; [|exact Hp]. apply T.
      * rewrite Ht. apply in_app_iff. now right.
      * intros Hk. apply in_map_iff in Hk. destruct Hk as (t' & Hk & Hk').
        specialize (BT t' Hk'). specialize (Hlow t Hin). lia.
      * intros j Hj Hk. destruct Hp as (Hfk & _).
        assert (j = (next_list_id (db w) + Z.of_nat i)%Z) by congruence.
        subst j. apply in_map_iff in Hk. destruct Hk as (l' & Hk & Hk').
        specialize (BL l' Hk'). lia.
Qed.

(** X17.  The import of the remote lists that carry no source identifier. A
    pass that returns normally, from a store with unique primary keys, has
    made one new list row for each such list of the snapshot, in its order,
    with the next ids of the sequence, whether or not a row with that external
    id existed already; the row holds the name and the id of the remote list,
    and every item of the remote list has a todo under it. The ids of the
    other list rows are as before. *)
Theorem pass_imports_remote_lists (w : World R) :
  wf_store (db w) ->
  fst (syncFromExternal w) = Return tt ->
  imports (filter (fun l => negb (truthy (source_id l))) (fetched w))
          (db w) (db (snd (syncFromExternal w))).
Proof.
  intros Hwf.
  remember (syncFromExternal w) as run eqn:Hrun.
  unfold syncFromExternal in Hrun. unfold bind at 1 in Hrun.
  unfold logger at 1 in Hrun. rewrite try_catch_bind in Hrun.
  unfold fetched. unfold http in Hrun.
  cbn [remote db faults requests log acks] in Hrun.
  destruct (send (mkRequest GET ["todolists"] NoBody) (remote w))
    as [resp r'] eqn:Hs.
  cbn [fst].
  destruct resp as [|st d]; [subst run; discriminate|].
  destruct ((200 <=? st)%nat && (st <? 300)%nat);
    [|subst run; discriminate].
  rewrite try_catch_bind in Hrun.
  destruct d as [|l|ls]; cbn [expect_lists ret throw] in Hrun;
    try (subst run; discriminate).
  match type of Hrun with
  | context [try_catch (merge_snapshot ls) ?h ?w1] =>
      pose proof (@merge_snapshot_imports ls w1 Hwf) as Hm;
      unfold try_catch in Hrun;
      destruct (merge_snapshot ls w1) as [[[]|e] w2]
  end.
  - subst run. cbn [fst snd] in *. intros _. now apply Hm.
  - subst run. cbn. discriminate.
Qed.

End ImportedLists.

(** ** The name and the external id of a list are pulled *)

Lemma last_match_replace_other A (p : A -> bool) (l : list A) i x y :
  nth_error l i = Some y -> p x = false -> p y = false ->
  last_match p (replace_nth i x l) = last_match p l.
Proof.
  revert i. induction l as [|z r IH]; intros i; destruct i as [|m];
    cbn [nth_error replace_nth last_match]; try discriminate.
  - intros [= ->] Hx Hy. now rewrite Hx, Hy.
  - intros Hn Hx Hy. now rewrite (IH m Hn Hx Hy).
Qed.

Lemma last_match_replace_same A (p : A -> bool) (l : list A) i x y :
  last_match p l = Some (i, y) -> p x = true ->
  last_match p (replace_nth i x l) = Some (i, x).
Proof.
  revert i. induction l as [|z r IH]; intros i; cbn [last_match];
    [discriminate|].
  destruct (last_match p r) as [[j u]|] eqn:E.
  - intros [= <- <-] Hx. cbn [replace_nth last_match].
    now rewrite (IH j eq_refl Hx).
  - destruct (p z); [|discriminate]. intros [= <- <-] Hx.
    cbn [replace_nth last_match]. now rewrite E, Hx.
Qed.

Section ListPull.

Context {R : Type} `{HttpClient R}.

Variable k : Z.

(** The row that the pass makes of the list [k] for the remote list [el]. *)
Definition pulled (el : ExternalList) : TodoList :=
  mkTodoList k (Some (ext_id el)) (ext_name el).

(** The object of the list [k] in memory is its row. *)
Definition held (mem : Mem) (s : Store) : Prop :=
  exists i l ts, map_get (Some k) mem = Some (i, (l, ts))
                 /\ lookup_list k s = Some l.

Definition same_lists (w w' : World R) : Prop := lists (db w') = lists (db w).

Lemma same_lists_refl w : same_lists w w.
Proof. reflexivity. Qed.

Lemma same_lists_trans a b c : same_lists a b -> same_lists b c -> same_lists a c.
Proof. unfold same_lists. congruence. Qed.

Lemma same_lists_persist A (f : Store -> A * Store) :
  (forall s, lists (snd (f s)) = lists s) ->
  guarantees same_lists (persist f).
Proof.
  intros Hf w. unfold persist, same_lists.
  destruct (faults w) as [[|n]|]; [reflexivity| |];
    specialize (Hf (db w)); destruct (f (db w)); exact Hf.
Qed.

Lemma same_lists_logger lv s : guarantees same_lists (logger lv s).
Proof. intros w. reflexivity. Qed.

Lemma same_lists_http m u b : guarantees same_lists (http m u b).
Proof. intros w. unfold same_lists. now rewrite reads_only_http. Qed.

Ltac lists_with known :=
  repeat first
    [ known
    | apply same_lists_logger
    | apply same_lists_http
    | apply same_lists_persist; intros ?; reflexivity
    | frame_step same_lists_refl same_lists_trans ].

Lemma reconcile_items_same_lists l its : forall ts,
  guarantees same_lists (reconcile_items l its ts).
Proof.
  induction its as [|it r IH]; intros ts; cbn [reconcile_items].
  - lists_with fail.
  - unfold reconcile_item, saveNewTodo, saveTodo.
    lists_with ltac:(apply IH).
Qed.

Lemma report_missing_same_lists l its ts :
  guarantees same_lists (report_missing l its ts).
Proof. unfold report_missing. lists_with fail. Qed.

(** A computation that leaves the list rows alone keeps what holds of
    them. *)
Lemma st_same_lists A (c : @M R A) (P : list TodoList -> Prop)
  (Q : A -> Store -> Prop) :
  guarantees same_lists c ->
  (forall a s, P (lists s) -> Q a s) ->
  striple (fun s => P (lists s)) c Q (fun _ => True).
Proof.
  intros Hc HQ w Hw. specialize (Hc w). unfold same_lists in Hc.
  destruct (c w) as [[a|e] w1]; cbn [snd] in *; [|exact I].
  apply HQ. now rewrite Hc.
Qed.

Lemma lookup_list_lists j s s' :
  lists s' = lists s -> lookup_list j s' = lookup_list j s.
Proof. unfold lookup_list. now intros ->. Qed.

(** One remote list, reconciled with the object [l] of the list [k]: when
    the loop body returns, the row of [k] and the object returned are the
    pulled row. *)
Lemma reconcile_list_pull el l ts :
  list_id l = k ->
  striple (R := R) (fun s => lookup_list k s = Some l)
    (reconcile_list el l ts)
    (fun r s => fst r = pulled el /\ lookup_list k s = Some (pulled el))
    (fun _ => True).
Proof.
  intros Hk. unfold reconcile_list. cbv zeta.
  set (nameDiffers := negb (list_name l =? ext_name el)%string).
  set (l1 := if nameDiffers then set_list_name l (ext_name el) else l).
  set (idDiffers := differs (list_external_id l1) (ext_id el)).
  set (l2 := if idDiffers then set_list_external_id l1 (Some (ext_id el)) else l1).
  assert (F : l2 = pulled el).
  { assert (F1 : list_id l2 = k)
      by (unfold l2, l1; destruct idDiffers, nameDiffers; exact Hk).
    assert (F2 : list_name l2 = ext_name el).
    { unfold l2, l1, nameDiffers.
      destruct (list_name l =? ext_name el)%string eqn:E;
        destruct idDiffers; cbn; try reflexivity;
        now apply String.eqb_eq in E. }
    assert (F3 : list_external_id l2 = Some (ext_id el)).
    { unfold l2. destruct idDiffers eqn:Hd; [reflexivity|].
      now apply differs_false. }
    destruct l2. unfold pulled. cbn in F1, F2, F3. congruence. }
  assert (F0 : nameDiffers || idDiffers = false -> l = pulled el).
  { intros Hn. rewrite <- F. unfold l2, l1.
    destruct nameDiffers, idDiffers; cbn in Hn; congruence. }
  pose (P := fun ls : list TodoList => by_key list_id k ls = Some l).
  eapply striple_bind with (Q := fun _ s => lookup_list k s = Some l).
  { destruct nameDiffers; [apply st_logger | apply striple_ret]; auto. }
  intros _.
  eapply striple_bind with (Q := fun _ s => lookup_list k s = Some l).
  { destruct idDiffers; [apply st_logger | apply striple_ret]; auto. }
  intros _.
  eapply striple_bind with (Q := fun _ s => lookup_list k s = Some l).
  { eapply striple_conseq;
      [apply (@st_same_lists _ (reconcile_items l2 (items el) ts) P
                (fun _ s => P (lists s)));
       [apply reconcile_items_same_lists | auto]
      | intros s Hs; exact Hs
      | intros a s Hs; exact Hs
      | auto]. }
  intros ts'.
  eapply striple_bind with (Q := fun _ s => lookup_list k s = Some l).
  { eapply striple_conseq;
      [apply (@st_same_lists _ (report_missing l2 (items el) ts') P
                (fun _ s => P (lists s)));
       [apply report_missing_same_lists | auto]
      | intros s Hs; exact Hs
      | intros a s Hs; exact Hs
      | auto]. }
  intros _.
  eapply striple_bind with (Q := fun _ s => lookup_list k s = Some (pulled el)).
  2:{ intros _. apply striple_ret. intros s Hs. cbn [fst]. split; [exact F | exact Hs]. }
  destruct (nameDiffers || idDiffers) eqn:Hneed.
  - eapply striple_bind with (Q := fun _ s => lookup_list k s = Some (pulled el)).
    2:{ intros _. apply st_logger. auto. }
    unfold saveList. apply st_persist; [auto|].
    intros s _. cbn [fst snd]. rewrite F.
    rewrite lookup_list_save_list_with. cbn [pulled list_id].
    now rewrite Z.eqb_refl.
  - apply st_logger. intros s Hs. now rewrite <- (F0 eq_refl).
Qed.

(** The row of [k] is kept by what is done for another list. *)
Definition keeps_row (w w' : World R) : Prop :=
  lookup_list k (db w') = lookup_list k (db w).

Lemma keeps_row_refl w : keeps_row w w.
Proof. reflexivity. Qed.

Lemma keeps_row_trans a b c : keeps_row a b -> keeps_row b c -> keeps_row a c.
Proof. unfold keeps_row. congruence. Qed.

Lemma keeps_row_same_lists A (c : @M R A) :
  guarantees same_lists c -> guarantees keeps_row c.
Proof. intros Hc w. apply lookup_list_lists. apply Hc. Qed.

Lemma keeps_row_saveList l ts :
  list_id l <> k -> guarantees keeps_row (saveList l ts).
Proof.
  intros Hl w. unfold saveList, persist, keeps_row.
  assert (E : lookup_list k (store_save_list_with l ts (db w))
              = lookup_list k (db w)).
  { rewrite lookup_list_save_list_with.
    destruct (Z.eqb_spec (list_id l) k); [contradiction | reflexivity]. }
  destruct (faults w) as [[|n]|]; cbn [snd db]; [reflexivity | exact E | exact E].
Qed.

Lemma reconcile_list_keeps_row el l ts :
  list_id l <> k -> guarantees keeps_row (reconcile_list el l ts).
Proof.
  intros Hl. unfold reconcile_list. cbv zeta.
  repeat first
    [ apply keeps_row_same_lists;
      first [ apply reconcile_items_same_lists
            | apply report_missing_same_lists
            | apply same_lists_logger ]
    | apply keeps_row_saveList;
      repeat match goal with
             | |- context [if ?b then _ else _] => destruct b
             end; exact Hl
    | frame_step keeps_row_refl keeps_row_trans ].
Qed.

Lemma reconcile_entry_keeps_row mem el :
  localId_of el <> Some k ->
  guarantees keeps_row (reconcile_entry mem el)
  /\ yields (R := R)
       (fun mem' => map_get (Some k) mem' = map_get (Some k) mem)
       (reconcile_entry mem el).
Proof.
  intros Hk. unfold reconcile_entry. cbv zeta.
  destruct (map_get (localId_of el) mem) as [[i [l ts]]|] eqn:E.
  - destruct (map_get_some _ _ E) as [Hin Hloc].
    assert (Hl : list_id l <> k) by congruence.
    split.
    + apply (guarantees_bind keeps_row_trans).
      * now apply reconcile_list_keeps_row.
      * intros r w. apply keeps_row_refl.
    + eapply yields_bind_dep; [apply reconcile_list_keeps_id|].
      intros r Hr. apply yields_ret. unfold map_get.
      unfold map_get in E. destruct (localId_of el) as [k'|]; [|discriminate].
      apply last_match_nth in E.
      apply last_match_replace_other with (y := (l, ts)); [exact E| |];
        cbn [fst]; apply Z.eqb_neq; congruence.
  - split.
    + apply (guarantees_bind keeps_row_trans).
      { intros w. reflexivity. }
      intros _. apply (guarantees_bind keeps_row_trans).
      2:{ intros _ w. apply keeps_row_refl. }
      apply keeps_row_same_lists. lists_with fail.
    + repeat (apply yields_bind; intros ?). now apply yields_ret.
Qed.

Lemma reconcile_entry_pull mem el :
  localId_of el = Some k ->
  striple (R := R) (held mem) (reconcile_entry mem el)
    (fun mem' s => held mem' s /\ lookup_list k s = Some (pulled el))
    (fun _ => True).
Proof.
  intros Hk. apply st_pre. intros s0 (i & l & ts & Hm & Hl).
  unfold reconcile_entry. cbv zeta. rewrite Hk, Hm.
  destruct (map_get_some _ _ Hm) as [_ Hid]. injection Hid as Hid.
  eapply striple_bind.
  { eapply striple_conseq;
      [apply (@reconcile_list_pull el l ts (eq_sym Hid))
      | intros s <-; exact Hl
      | intros r s Hq; exact Hq
      | auto]. }
  intros [l' ts']. apply striple_ret. intros s [Hr Hs]. cbn [fst] in Hr.
  subst l'. split; [|exact Hs].
  exists i, (pulled el), ts'. split; [|exact Hs].
  unfold map_get in *. eapply last_match_replace_same; [exact Hm|].
  cbn [fst pulled list_id]. apply Z.eqb_refl.
Qed.

Lemma reconcile_entry_other mem el v :
  localId_of el <> Some k ->
  striple (R := R) (fun s => held mem s /\ lookup_list k s = v)
    (reconcile_entry mem el)
    (fun mem' s => held mem' s /\ lookup_list k s = v)
    (fun _ => True).
Proof.
  intros Hk w [(i & l & ts & Hm & Hl) Hv].
  destruct (reconcile_entry_keeps_row mem el Hk) as [G Y].
  specialize (G w). specialize (Y w). unfold keeps_row in G.
  destruct (reconcile_entry mem el w) as [[mem'|e] w1]; cbn [fst snd] in *;
    [|exact I].
  split; [|congruence].
  exists i, l, ts. split; congruence.
Qed.

Variable el : ExternalList.
Hypothesis el_names_k : localId_of el = Some k.

Lemma reconcile_lists_pull els : forall mem,
  (forall el', In el' els -> localId_of el' = Some k -> el' = el) ->
  striple (R := R)
    (fun s => held mem s /\ (In el els \/ lookup_list k s = Some (pulled el)))
    (reconcile_lists els mem)
    (fun _ s => lookup_list k s = Some (pulled el))
    (fun _ => True).
Proof.
  induction els as [|el' r IH]; intros mem Hu; cbn [reconcile_lists].
  - apply striple_ret. intros s [_ [[]|Hs]]. exact Hs.
  - assert (Hu' : forall x, In x r -> localId_of x = Some k -> x = el)
      by (intros x Hx; apply Hu; now right).
    assert (Hdec : localId_of el' = Some k \/ localId_of el' <> Some k).
    { destruct (localId_of el') as [k'|]; [|right; discriminate].
      destruct (Z.eq_dec k' k); [left | right]; congruence. }
    destruct Hdec as [Hk|Hk].
    + assert (el' = el) by (apply Hu; [now left | exact Hk]). subst el'.
      eapply striple_bind.
      { eapply striple_conseq;
          [apply (@reconcile_entry_pull mem el Hk)
          | intros s [Hh _]; exact Hh
          | intros a s Hq; exact Hq
          | auto]. }
      intros mem'. eapply striple_conseq; [apply (IH mem' Hu') | | auto | auto].
      intros s [Hh Hs]. auto.
    + eapply striple_bind
        with (Q := fun mem' s =>
                     held mem' s
                     /\ (In el r \/ lookup_list k s = Some (pulled el))).
      2:{ intros mem'. apply (IH mem' Hu'). }
      intros w [Hh Hd].
      pose proof (@reconcile_entry_other mem el' (lookup_list k (db w)) Hk w
                    (conj Hh eq_refl)) as Ho.
      destruct (reconcile_entry mem el' w) as [[mem'|e] w1]; [|exact I].
      destruct Ho as [Hh' Hv]. split; [exact Hh'|].
      destruct Hd as [[->|Hin]|Hs].
      * contradiction.
      * now left.
      * right. congruence.
Qed.

End ListPull.

Section PulledLists.

Context {R : Type} `{HttpClient R}.

Lemma merge_snapshot_pull ls (w : World R) k l el :
  NoDup (map list_id (lists (db w))) ->
  lookup_list k (db w) = Some l ->
  In el ls ->
  localId_of el = Some k ->
  (forall el', In el' ls -> localId_of el' = Some k -> el' = el) ->
  fst (merge_snapshot ls w) = Return tt ->
  lookup_list k (db (snd (merge_snapshot ls w))) = Some (pulled k el).
Proof.
  intros Hnd Hl Hin Hk Hu.
  remember (merge_snapshot ls w) as run eqn:E.
  unfold merge_snapshot in E. cbv zeta in E.
  unfold bind at 1 in E. unfold logger at 1 in E.
  unfold bind at 1 in E. unfold findLists, query in E. cbn [db] in E.
  unfold bind at 1 in E. unfold logger at 1 in E.
  cbn [db faults remote requests log acks] in E.
  set (w1 := mkWorld _ _ _ _ _ _) in E.
  assert (Hd1 : db w = db w1) by reflexivity.
  clearbody w1.
  set (news := filter (fun l => negb (truthy (source_id l))) ls) in *.
  set (mem := map (fun l => (l, todos_of (list_id l) (db w))) (lists (db w))) in E.
  unfold bind at 1 in E.
  pose proof (@import_loop_effect R news (db w) w1 Hd1) as Hs.
  destruct (for_each news import_list w1) as [[[]|e] w2]; cbn [fst snd] in *;
    [|subst run; discriminate].
  unfold bind at 1 in E.
  assert (Hl2 : lookup_list k (db w2) = Some l).
  { rewrite Hs, lookup_list_by_key.
    rewrite (proj1 (imported_spec news (db w))), by_key_app.
    rewrite <- lookup_list_by_key, Hl. reflexivity. }
  assert (Hheld : held k mem (db w2)).
  { destruct (@map_get_loaded (db w) k l Hnd Hl) as [i Hm].
    exists i, l, (todos_of k (db w)). split; [exact Hm | exact Hl2]. }
  assert (Hin' : In el (filter (fun l => truthy (source_id l)) ls)).
  { apply filter_In. split; [exact Hin | now apply (localId_truthy el Hk)]. }
  assert (Hu' : forall el', In el' (filter (fun l => truthy (source_id l)) ls) ->
                            localId_of el' = Some k -> el' = el).
  { intros el' Hf. apply filter_In in Hf. apply Hu. tauto. }
  pose proof (@reconcile_lists_pull R _ k el Hk _ mem Hu' w2
                (conj Hheld (or_introl Hin'))) as Hp.
  destruct (reconcile_lists _ mem w2) as [[[]|e] w3]; cbn [fst snd] in *;
    [|subst run; discriminate].
  subst run. intros _. exact Hp.
Qed.

(** X18.  The name and the external id of a list are pulled. After a pass that
    returns normally, a local list that exactly one remote list of the
    snapshot names by its source identifier has the name and the id of that
    remote list, whatever they were before. *)
Theorem pass_pulls_list_fields (w : World R) (k : Z) (l : TodoList)
  (el : ExternalList) :
  NoDup (map list_id (lists (db w))) ->
  fst (syncFromExternal w) = Return tt ->
  lookup_list k (db w) = Some l ->
  In el (fetched w) ->
  localId_of el = Some k ->
  (forall el', In el' (fetched w) -> localId_of el' = Some k -> el' = el) ->
  lookup_list k (db (snd (syncFromExternal w)))
  = Some (mkTodoList k (Some (ext_id el)) (ext_name el)).
Proof.
  intros Hnd.
  remember (syncFromExternal w) as run eqn:Hrun.
  unfold syncFromExternal in Hrun. unfold bind at 1 in Hrun.
  unfold logger at 1 in Hrun. rewrite try_catch_bind in Hrun.
  unfold fetched. unfold http in Hrun.
  cbn [remote db faults requests log acks] in Hrun.
  destruct (send (mkRequest GET ["todolists"] NoBody) (remote w))
    as [resp r'] eqn:Hs.
  cbn [fst].
  destruct resp as [|st d]; [subst run; discriminate|].
  destruct ((200 <=? st)%nat && (st <? 300)%nat);
    [|subst run; discriminate].
  rewrite try_catch_bind in Hrun.
  destruct d as [|l0|ls]; cbn [expect_lists ret throw] in Hrun;
    try (subst run; discriminate).
  match type of Hrun with
  | context [try_catch (merge_snapshot ls) ?h ?w1] =>
      pose proof (@merge_snapshot_pull ls w1 k l el Hnd) as Hm;
      unfold try_catch in Hrun;
      destruct (merge_snapshot ls w1) as [[[]|e] w2]
  end.
  - subst run. cbn [fst snd db] in *. intros _ Hl Hin Hk Hu.
    now apply Hm.
  - subst run. cbn. discriminate.
Qed.

(** *** Orphans *)

Lemma reconcile_entry_orphan mem el (w : World R) :
  orphan_in mem el = true ->
  fst (reconcile_entry mem el w) = Return mem
  /\ db (snd (reconcile_entry mem el w)) = db w
  /\ faults (snd (reconcile_entry mem el w)) = faults w.
Proof.
  unfold orphan_in. intros Ho.
  remember (reconcile_entry mem el w) as run eqn:E.
  unfold reconcile_entry in E. cbv zeta in E.
  destruct (map_get (localId_of el) mem); [discriminate|].
  unfold bind at 1 in E. unfold logger at 1 in E. unfold bind at 1 in E.
  rewrite guarded_call in E.
  destruct (rejection _); subst run; cbn; auto.
Qed.

Lemma reconcile_lists_orphans els : forall mem (w : World R),
  (forall el, In el els -> orphan_in mem el = true) ->
  fst (reconcile_lists els mem w) = Return tt
  /\ db (snd (reconcile_lists els mem w)) = db w
  /\ faults (snd (reconcile_lists els mem w)) = faults w.
Proof.
  induction els as [|el r IH]; intros mem w Ho; cbn [reconcile_lists].
  - cbn. auto.
  - unfold bind.
    destruct (@reconcile_entry_orphan mem el w (Ho el (or_introl eq_refl)))
      as (E1 & E2 & E3).
    destruct (reconcile_entry mem el w) as [[mem'|e] w1]; cbn [fst snd] in *;
      [|discriminate].
    injection E1 as ->.
    destruct (IH mem w1 (fun x Hx => Ho x (or_intror Hx))) as (F1 & F2 & F3).
    repeat split; congruence.
Qed.

(** X19.  A snapshot of orphans only. When every remote list carries a source
    identifier that names no local list, the pass returns normally whatever
    the remote system answers to the deletions: a rejected deletion does not
    stop the pass. The store is not written. *)
Theorem orphans_are_deleted_remotely (w : World R) st ls r' :
  send fetch (remote w) = (Reply st (ListsData ls), r') ->
  (200 <=? st)%nat && (st <? 300)%nat = true ->
  (forall el, In el ls -> orphan (db w) el = true) ->
  fst (syncFromExternal w) = Return tt
  /\ db (snd (syncFromExternal w)) = db w
  /\ faults (snd (syncFromExternal w)) = faults w
  /\ requests (snd (syncFromExternal w))
     = requests w ++ fetch :: map deletion ls.
Proof.
  intros Hs Hst Ho.
  assert (Hsrc : forall el, In el ls -> truthy (source_id el) = true).
  { intros el Hin. specialize (Ho el Hin). unfold orphan in Ho.
    now apply andb_true_iff in Ho. }
  assert (Hret : fst (syncFromExternal w) = Return tt
                 /\ db (snd (syncFromExternal w)) = db w
                 /\ faults (snd (syncFromExternal w)) = faults w).
  { remember (syncFromExternal w) as run eqn:E.
    unfold syncFromExternal in E. unfold bind at 1 in E.
    unfold logger at 1 in E. rewrite try_catch_bind in E.
    unfold http in E. cbn [remote db faults requests log acks] in E.
    fold fetch in E. rewrite Hs, Hst in E.
    rewrite try_catch_bind in E. cbn [expect_lists ret] in E.
    unfold merge_snapshot in E. cbv zeta in E.
    rewrite (filter_none (fun l => negb (truthy (source_id l))) ls) in E
      by (intros el Hin; rewrite (Hsrc el Hin); reflexivity).
    rewrite (filter_all (fun l => truthy (source_id l)) ls) in E
      by exact Hsrc.
    unfold try_catch in E.
    unfold bind at 1 in E. unfold logger at 1 in E.
    unfold bind at 1 in E. unfold findLists, query in E.
    cbn [db faults remote requests log acks] in E.
    unfold bind at 1 in E. unfold logger at 1 in E.
    cbn [db faults remote requests log acks] in E.
    unfold bind at 1 in E. cbn [for_each ret] in E.
    unfold bind at 1 in E.
    match type of E with
    | context [reconcile_lists ls ?mem ?w1] =>
        destruct (@reconcile_lists_orphans ls mem w1) as (F1 & F2 & F3);
        [ intros el Hin; rewrite (orphan_loaded (db w) el (Hsrc el Hin));
          now apply Ho
        | destruct (reconcile_lists ls mem w1) as [[[]|e] w2];
          cbn [fst snd] in *; [|discriminate] ]
    end.
    subst run. cbn. cbn in F2, F3. auto. }
  destruct Hret as (E1 & E2 & E3). repeat split; auto.
  rewrite (syncFromExternal_trace w E1). f_equal. f_equal. f_equal.
  unfold fetched. fold fetch. rewrite Hs. cbn [fst]. rewrite Hst.
  now apply filter_all.
Qed.

End PulledLists.

(** ** An item that is synced under a list that is not *)

Section LateList.

Context {R : Type} `{HttpClient R}.

(** X20.  The ItemUpdated handler on an item that has an external id while its
    list has none. The list is created remotely first, with its items; the
    item is then read again, and patched in the remote list just created,
    under the external id it has after that creation, with its title and
    completion flag. When the creation leaves the item with an empty external
    id the handler fails instead, after the creation request. *)
Theorem synced_item_of_unsynced_list_updated (id : Z) (w : World R)
  todo l st el r' :
  faults w = None ->
  NoDup (map todo_id (todos (db w))) ->
  lookup_todo id (db w) = Some todo ->
  todoList_of todo (db w) = Some l ->
  truthy (todo_external_id todo) = true ->
  truthy (list_external_id l) = false ->
  send (creation_request l (db w)) (remote w) = (Reply st (ListData el), r') ->
  (200 <=? st)%nat && (st <? 300)%nat = true ->
  let run := handleSyncEvent (mkEvent UPDATE_TODO_ITEM id) w in
  let t1 := after_echo (list_id l) el todo in
  let patch := mkRequest PATCH ["todolists"; ext_id el; "todoitems";
                                show (todo_external_id t1)]
                         (ItemPatchBody (title todo) (completed todo)) in
  lookup_todo id (db (snd run)) = Some t1
  /\ lookup_list (list_id l) (db (snd run))
     = Some (set_list_external_id l (Some (ext_id el)))
  /\ if truthy (todo_external_id t1) then
       requests (snd run) = requests w ++ [creation_request l (db w); patch]
       /\ fst run = call_outcome (fst (send patch r'))
     else
       requests (snd run) = requests w ++ [creation_request l (db w)]
       /\ fst run = Throw (HttpException INTERNAL_SERVER_ERROR
                             ("Failed to sync Todo " ++ toString id)).
Proof.
  intros Hfa Hnd Ht Hl Htt Hlf Hs Hst. cbv zeta.
  destruct (@todoList_of_row _ _ _ Hl) as (Hfk & Hlrow & _).
  remember (handleSyncEvent (mkEvent UPDATE_TODO_ITEM id) w) as run eqn:E.
  rewrite handleSyncEvent_unfold in E.
  change (dispatch (mkEvent UPDATE_TODO_ITEM id))
    with (updateTodoItem (R := R) id) in E.
  set (w0 := logged w [processing (mkEvent UPDATE_TODO_ITEM id)]) in E.
  unfold updateTodoItem in E.
  unfold try_catch at 1, bind at 1, findOneTodoWithList, query in E.
  change (db w0) with (db w) in E. rewrite Ht in E. cbn [option_map] in E.
  rewrite Hl, Htt, Hlf in E. cbn [negb] in E.
  unfold bind at 1 in E. unfold bind at 1 in E. unfold logger at 1 in E.
  unfold bind at 1 in E.
  set (w1 := mkWorld _ _ _ _ _ _) in E.
  assert (Hl1 : lookup_list (list_id l) (db w1) = Some l) by exact Hlrow.
  rewrite (@createTodoList_run R _ (list_id l) w1 l st el r' Hfa Hl1 Hlf Hs Hst)
    in E.
  set (s2 := fold_left (echo (todos_of (list_id l) (db w1))) (items el)
               (store_save_list (set_list_external_id l (Some (ext_id el)))
                  (db w1))) in E.
  assert (Ht2 : lookup_todo id s2 = Some (after_echo (list_id l) el todo)).
  { unfold s2. change (db w1) with (db w).
    rewrite (@echo_lookup (db w) (list_id l) (items el) _ id todo Hnd Ht).
    unfold after_echo.
    destruct (if belongs_to (list_id l) todo
              then echoed todo (items el) else None);
      [reflexivity | exact Ht]. }
  assert (Hl2 : lookup_list (list_id l) s2
                = Some (set_list_external_id l (Some (ext_id el)))).
  { unfold s2, lookup_list. rewrite echo_lists.
    unfold store_save_list. cbn [lists].
    change (find (fun l0 => (list_id l0 =? list_id l)%Z))
      with (by_key list_id (list_id l)).
    rewrite by_key_upsert. cbn [list_id set_list_external_id].
    now rewrite Z.eqb_refl. }
  destruct (after_echo_keeps (list_id l) el todo) as (Hk & _ & _).
  unfold bind at 1 in E. unfold query in E. cbn [db] in E.
  rewrite Ht2 in E. cbn [option_map] in E.
  unfold todoList_of in E. rewrite Hk, Hfk, Hl2 in E.
  destruct (truthy (todo_external_id (after_echo (list_id l) el todo))) eqn:Ht1;
    cbn [negb] in E.
  - cbn [ret list_external_id set_list_external_id] in E.
    rewrite guarded_call in E. unfold call_outcome.
    cbn [show] in E.
    set (patch := mkRequest PATCH _ _) in *.
    assert (Ha : forall lg, answer patch
                   (mkWorld s2 None r' (requests w1 ++ [creation_request l (db w1)])
                            lg (acks w1))
                 = fst (send patch r')) by reflexivity.
    rewrite Ha in E.
    destruct (rejection (fst (send patch r'))) as [e|];
      subst run; cbn [fst snd db requests sent logged bind logger throw];
      (split; [exact Ht2|]); (split; [exact Hl2|]);
      (split; [|reflexivity]);
      unfold w1, w0; cbn [requests logged]; now rewrite <- app_assoc.
  - subst run. cbn [fst snd db requests throw bind logger].
    split; [exact Ht2|]. split; [exact Hl2|]. split; reflexivity.
Qed.

End LateList.

(** ** Primary keys *)

Lemma wf_outbound s s' : wf_store s -> outbound s s' -> wf_store s'.
Proof.
  intros (NL & NT & BL & BT) (KL & KT & EL & ET & _ & _).
  unfold wf_store. rewrite KL, KT, EL, ET. repeat split; auto.
  - intros l Hin. apply (in_map list_id) in Hin. rewrite KL in Hin.
    apply in_map_iff in Hin. destruct Hin as (l0 & <- & Hin0). now apply BL.
  - intros t Hin. apply (in_map todo_id) in Hin. rewrite KT in Hin.
    apply in_map_iff in Hin. destruct Hin as (t0 & <- & Hin0). now apply BT.
Qed.

Lemma wf_delete_todo id s : wf_store s -> wf_store (snd (store_delete_todo id s)).
Proof.
  intros (NL & NT & BL & BT). unfold wf_store, store_delete_todo.
  cbn [snd lists todos next_list_id next_todo_id]. repeat split; auto.
  - clear BT. induction (todos s) as [|t r IH]; cbn [filter map]; [constructor|].
    inversion NT as [|? ? Hn Hr]; subst.
    destruct (negb _); cbn [map]; [|now apply IH].
    constructor; [|now apply IH].
    intros Hin. apply Hn. apply in_map_iff in Hin.
    destruct Hin as (t' & E & Hin). apply filter_In in Hin.
    rewrite <- E. apply in_map. tauto.
  - intros t Hin. apply filter_In in Hin. apply BT. tauto.
Qed.

Section PrimaryKeys.

Context {R : Type} `{HttpClient R}.

(** X21.  Unique primary keys, drawn from the sequences, are kept by every
    operation: by the handling of any event, whatever its outcome, by a pass
    that returns, and by the creation and the deletion of an item at the
    mutation sites, whatever their outcome. *)
Theorem primary_keys_are_kept (w : World R) :
  wf_store (db w) ->
  (forall ev, wf_store (db (snd (handleSyncEvent ev w))))
  /\ (fst (syncFromExternal w) = Return tt ->
      wf_store (db (snd (syncFromExternal w))))
  /\ (forall ttl lid, wf_store (db (snd (TodosService_create ttl lid w))))
  /\ (forall id, wf_store (db (snd (TodosService_delete id w)))).
Proof.
  intros Hwf. split; [|split; [|split]].
  - intros ev. apply (wf_outbound Hwf). apply handleSyncEvent_step.
    now destruct Hwf as (_ & NT & _).
  - intros Hr. now apply (proj2 (syncFromExternal_pass w Hwf)).
  - intros ttl lid. unfold TodosService_create, bind, query.
    destruct (lookup_list lid (db w)); [|exact Hwf].
    unfold saveNewTodo, persist.
    destruct (faults w) as [[|n]|]; [exact Hwf| |];
      cbn [snd db store_insert_todo];
      apply (wf_insert_any_todo ttl false None _ Hwf).
  - intros id. unfold TodosService_delete, bind, findOneTodoWithList, query.
    destruct (lookup_todo id (db w)) as [t|]; cbn [option_map]; [|exact Hwf].
    destruct (todoList_of t (db w)); [|exact Hwf].
    unfold persist.
    destruct (faults w) as [[|n]|]; [exact Hwf| |];
      cbn [snd db]; apply (wf_delete_todo id Hwf).
Qed.

End PrimaryKeys.

(** ** Items that were never synced *)

Section LocalOnly.

Context {R : Type} `{HttpClient R}.

Variable j : Z.
Variable home : option Z.

(** The row of the todo [j], when there is one and its list is [home],
    stays as it is. *)
Definition keeps_todo (w w' : World R) : Prop :=
  forall t, lookup_todo j (db w) = Some t -> todoListId t = home ->
            lookup_todo j (db w') = Some t.

Lemma keeps_todo_refl w : keeps_todo w w.
Proof. intros t Ht _. exact Ht. Qed.

Lemma keeps_todo_trans a b c : keeps_todo a b -> keeps_todo b c -> keeps_todo a c.
Proof. intros H1 H2 t Ht Hh. apply H2; [apply H1|]; assumption. Qed.

Lemma keeps_todo_same_db (w w' : World R) : db w' = db w -> keeps_todo w w'.
Proof. intros E t Ht _. now rewrite E. Qed.

Lemma keeps_todo_logger lv s : guarantees keeps_todo (logger lv s).
Proof. intros w. now apply keeps_todo_same_db. Qed.

Lemma keeps_todo_http m u b : guarantees keeps_todo (http m u b).
Proof. intros w. apply keeps_todo_same_db. apply reads_only_http. Qed.

Lemma keeps_todo_persist A (f : Store -> A * Store) :
  (forall s t, lookup_todo j s = Some t -> todoListId t = home ->
               lookup_todo j (snd (f s)) = Some t) ->
  guarantees keeps_todo (persist f).
Proof.
  intros Hf w. unfold persist.
  destruct (faults w) as [[|n]|]; [apply keeps_todo_refl| |];
    specialize (Hf (db w)); destruct (f (db w)); exact Hf.
Qed.

Lemma keeps_todo_saveTodo t :
  todo_id t <> j -> guarantees keeps_todo (saveTodo t).
Proof.
  intros Hn. unfold saveTodo. apply keeps_todo_persist. intros s t0 Ht0 _.
  cbn [snd]. rewrite lookup_todo_by_key in *. unfold store_save_todo.
  cbn [todos]. rewrite by_key_upsert.
  destruct (Z.eqb_spec (todo_id t) j); [contradiction | exact Ht0].
Qed.

Lemma keeps_todo_saveNewTodo ttl c e lid :
  guarantees keeps_todo (saveNewTodo ttl c e lid).
Proof.
  unfold saveNewTodo. apply keeps_todo_persist. intros s t0 Ht0 _.
  rewrite lookup_todo_by_key in *. unfold store_insert_todo. cbn [snd todos].
  now rewrite by_key_app, Ht0.
Qed.

Lemma keeps_todo_saveNewTodos its lid :
  guarantees keeps_todo (saveNewTodos its lid).
Proof.
  unfold saveNewTodos. apply keeps_todo_persist. intros s t0 Ht0 _.
  rewrite store_insert_items_spec. rewrite lookup_todo_by_key in *.
  cbn [todos]. now rewrite by_key_app, Ht0.
Qed.

(** The save of a list object keeps the row when the todo [j] is among the
    todo objects the list object carries, if [home] is that list. *)
Lemma keeps_todo_saveList l ts :
  (home = Some (list_id l) -> In j (map todo_id ts)) ->
  guarantees keeps_todo (saveList l ts).
Proof.
  intros Hin. unfold saveList. apply keeps_todo_persist. intros s t0 Ht0 Hh.
  cbn [snd]. rewrite lookup_todo_save_list_with, Ht0. cbn [option_map].
  f_equal. apply detach_kept. intros Hk.
  pose proof (by_key_key _ _ _ Ht0) as [Hid _]. rewrite Hid.
  apply Hin. congruence.
Qed.

Lemma keeps_todo_saveNewList name e : guarantees keeps_todo (saveNewList name e).
Proof.
  unfold saveNewList. apply keeps_todo_persist. intros s t0 Ht0 _. exact Ht0.
Qed.

Ltac keeps_with known :=
  repeat first
    [ known
    | apply keeps_todo_logger
    | apply keeps_todo_http
    | apply keeps_todo_saveNewTodo
    | apply keeps_todo_saveNewTodos
    | apply keeps_todo_saveNewList
    | frame_step keeps_todo_refl keeps_todo_trans ].

(** The objects of the todo [j], in an array of loaded todos, have no
    external id. *)
Definition unsynced_in (ts : list Todo) : Prop :=
  forall t, In t ts -> todo_id t = j -> truthy (todo_external_id t) = false.

(** An array of todo objects that stands for the array [ts] read at the
    start: the same ids, and no external id on the objects of [j]. *)
Definition stands_for (ts ts' : list Todo) : Prop :=
  unsynced_in ts' /\ map todo_id ts' = map todo_id ts.

Lemma keeps_bind_yields A B (Q : A -> Prop) (c : @M R A) (k : A -> M B) :
  guarantees keeps_todo c -> yields Q c ->
  (forall a, Q a -> guarantees keeps_todo (k a)) ->
  guarantees keeps_todo (bind c k).
Proof.
  intros Hc Hy Hk w. unfold bind. specialize (Hc w). specialize (Hy w).
  destruct (c w) as [[a|e] w1]; cbn [fst snd] in *; [|exact Hc].
  eapply keeps_todo_trans; [exact Hc | now apply Hk].
Qed.

Lemma reconcile_item_keeps l ts it :
  unsynced_in ts ->
  guarantees keeps_todo (reconcile_item l ts it)
  /\ yields (R := R) (stands_for ts) (reconcile_item l ts it).
Proof.
  intros Hu. unfold reconcile_item.
  assert (Hsame : stands_for ts ts) by (split; [exact Hu | reflexivity]).
  destruct (negb (truthy (Some (item_id it)))).
  { split; [keeps_with fail | now apply yields_ret]. }
  destruct (last_match _ ts) as [[i t]|] eqn:E.
  - pose proof (last_match_some _ _ E) as [Hin Hp].
    pose proof (last_match_nth _ _ E) as Hnth.
    assert (Htr : truthy (todo_external_id t) = true).
    { unfold has_external_id in Hp. now apply andb_true_iff in Hp. }
    assert (Hn : todo_id t <> j).
    { intros Hj. rewrite (Hu t Hin Hj) in Htr. discriminate. }
    cbv zeta.
    set (t1 := if negb (title t =? description it)%string
               then set_title t (description it) else t).
    set (t2 := if negb (Bool.eqb (completed t) (item_completed it))
               then set_completed t1 (item_completed it) else t1).
    assert (Hid : todo_id t2 = todo_id t).
    { unfold t2, t1.
      destruct (negb (title t =? description it)%string),
               (negb (Bool.eqb (completed t) (item_completed it)));
        reflexivity. }
    destruct (_ || _).
    + split.
      * keeps_with ltac:(apply keeps_todo_saveTodo; congruence).
      * repeat (apply yields_bind; intros ?). apply yields_ret. split.
        -- intros t' Hin' Hj. apply in_replace_nth in Hin'.
           destruct Hin' as [->|Hin']; [congruence | now apply Hu].
        -- apply (@map_replace_nth _ _ todo_id _ _ _ _ Hnth Hid).
    + split; [keeps_with fail | now apply yields_ret].
  - split; [keeps_with fail|].
    repeat (apply yields_bind; intros ?). now apply yields_ret.
Qed.

Lemma reconcile_items_keeps l its : forall ts,
  unsynced_in ts ->
  guarantees keeps_todo (reconcile_items l its ts)
  /\ yields (R := R) (stands_for ts) (reconcile_items l its ts).
Proof.
  induction its as [|it r IH]; intros ts Hu; cbn [reconcile_items].
  - split; [keeps_with fail|]. apply yields_ret. split; [exact Hu | reflexivity].
  - destruct (@reconcile_item_keeps l ts it Hu) as [G1 Y1]. split.
    + eapply keeps_bind_yields; [exact G1 | exact Y1|].
      intros ts' [Hu' _]. now apply IH.
    + eapply yields_bind_dep; [exact Y1|].
      intros ts' [Hu' E']. destruct (IH ts' Hu') as [_ Y2].
      intros w. specialize (Y2 w).
      destruct (reconcile_items l r ts' w) as [[ts2|e] w2]; cbn [fst] in *;
        [|exact I].
      destruct Y2 as [Hu2 E2]. split; [exact Hu2 | congruence].
Qed.

Lemma report_missing_keeps l its ts :
  guarantees keeps_todo (report_missing l its ts).
Proof. unfold report_missing. keeps_with fail. Qed.

(** A list object with its todo objects that keeps the row of [j]. *)
Definition housed (l : TodoList) (ts : list Todo) : Prop :=
  unsynced_in ts /\ (home = Some (list_id l) -> In j (map todo_id ts)).

Lemma reconcile_list_keeps el l ts :
  housed l ts ->
  guarantees keeps_todo (reconcile_list el l ts)
  /\ yields (R := R) (fun r => housed (fst r) (snd r)) (reconcile_list el l ts).
Proof.
  intros [Hu Hc]. unfold reconcile_list. cbv zeta.
  set (l1 := if negb (list_name l =? ext_name el)%string
             then set_list_name l (ext_name el) else l).
  set (l2 := if differs (list_external_id l1) (ext_id el)
             then set_list_external_id l1 (Some (ext_id el)) else l1).
  assert (Hid : list_id l2 = list_id l).
  { unfold l2, l1.
    destruct (negb (list_name l =? ext_name el)%string),
             (differs _ (ext_id el)); reflexivity. }
  destruct (@reconcile_items_keeps l2 (items el) ts Hu) as [G1 Y1].
  assert (Hh : forall ts', stands_for ts ts' -> housed l2 ts').
  { intros ts' [Hu' E']. split; [exact Hu'|]. rewrite Hid, E'. exact Hc. }
  split.
  - apply (guarantees_bind keeps_todo_trans).
    { destruct (negb _); keeps_with fail. }
    intros _. apply (guarantees_bind keeps_todo_trans).
    { destruct (differs _ _); keeps_with fail. }
    intros _. eapply keeps_bind_yields; [exact G1 | exact Y1|].
    intros ts' Hs. destruct (Hh ts' Hs) as [_ Hc'].
    keeps_with ltac:(first [ apply report_missing_keeps
                           | apply keeps_todo_saveList; exact Hc' ]).
  - apply yields_bind. intros _. apply yields_bind. intros _.
    eapply yields_bind_dep; [exact Y1|]. intros ts' Hs. cbv beta.
    repeat (apply yields_bind; intros ?). apply yields_ret. cbn [fst snd].
    now apply Hh.
Qed.

Definition unsynced_mem (mem : Mem) : Prop :=
  forall l ts, In (l, ts) mem -> housed l ts.

Lemma reconcile_entry_keeps mem el :
  unsynced_mem mem ->
  guarantees keeps_todo (reconcile_entry mem el)
  /\ yields (R := R) unsynced_mem (reconcile_entry mem el).
Proof.
  intros Hm. unfold reconcile_entry. cbv zeta.
  destruct (map_get (localId_of el) mem) as [[i [l ts]]|] eqn:E.
  - destruct (map_get_some _ _ E) as [Hin _].
    destruct (@reconcile_list_keeps el l ts (Hm l ts Hin)) as [G Y]. split.
    + keeps_with ltac:(exact G).
    + eapply yields_bind_dep; [exact Y|]. intros [l' ts'] Hu.
      apply yields_ret. intros l0 ts0 Hin0.
      apply in_replace_nth in Hin0. destruct Hin0 as [[= -> ->]|Hin0].
      * exact Hu.
      * now apply (Hm l0 ts0).
  - split; [keeps_with fail|].
    repeat (apply yields_bind; intros ?). now apply yields_ret.
Qed.

Lemma reconcile_lists_keeps els : forall mem,
  unsynced_mem mem -> guarantees keeps_todo (reconcile_lists els mem).
Proof.
  induction els as [|el r IH]; intros mem Hm; cbn [reconcile_lists].
  - keeps_with fail.
  - destruct (@reconcile_entry_keeps mem el Hm) as [G Y].
    eapply keeps_bind_yields; [exact G | exact Y|].
    intros mem' Hm'. now apply IH.
Qed.

Lemma import_list_keeps el : guarantees keeps_todo (import_list el).
Proof. unfold import_list. keeps_with fail. Qed.

End LocalOnly.

Section LocalOnlyItems.

Context {R : Type} `{HttpClient R}.

Lemma merge_snapshot_keeps ls (w : World R) j t :
  NoDup (map todo_id (todos (db w))) ->
  lookup_todo j (db w) = Some t ->
  truthy (todo_external_id t) = false ->
  lookup_todo j (db (snd (merge_snapshot ls w))) = Some t.
Proof.
  intros Hnd Ht Hf.
  remember (merge_snapshot ls w) as run eqn:E.
  unfold merge_snapshot in E. cbv zeta in E.
  unfold bind at 1 in E. unfold logger at 1 in E.
  unfold bind at 1 in E. unfold findLists, query in E. cbn [db] in E.
  unfold bind at 1 in E. unfold logger at 1 in E.
  cbn [db faults remote requests log acks] in E.
  set (w1 := mkWorld _ _ _ _ _ _) in E.
  assert (Ht1 : lookup_todo j (db w1) = Some t) by exact Ht.
  clearbody w1.
  set (mem := map (fun l => (l, todos_of (list_id l) (db w))) (lists (db w))) in E.
  assert (Hmem : unsynced_mem j (todoListId t) mem).
  { intros l ts Hin. unfold mem in Hin. apply in_map_iff in Hin.
    destruct Hin as (l0 & [= <- <-] & _).
    pose proof Ht as Ht0. rewrite lookup_todo_by_key in Ht0.
    apply by_key_key in Ht0. destruct Ht0 as [Hk Hin0]. split.
    - intros t' Hin' Hj.
      unfold todos_of in Hin'. apply filter_In in Hin'. destruct Hin' as [Hin' _].
      assert (t' = t)
        by (apply (nodup_map_inj todo_id (todos (db w))); auto; congruence).
      now subst t'.
    - intros Hh. rewrite <- Hk. apply in_map. now apply todos_of_intro. }
  unfold bind at 1 in E.
  pose proof (guarantees_for_each (@keeps_todo_refl R j (todoListId t))
                (@keeps_todo_trans R j (todoListId t))
                (filter (fun l => negb (truthy (source_id l))) ls)
                import_list
                (fun x _ => @import_list_keeps R j (todoListId t) x) w1) as G1.
  destruct (for_each _ import_list w1) as [[[]|e] w2]; cbn [fst snd] in *;
    [|subst run; cbn [snd]; now apply G1].
  unfold bind at 1 in E.
  pose proof (@reconcile_lists_keeps R _ j (todoListId t)
                (filter (fun l => truthy (source_id l)) ls) mem Hmem w2) as G2.
  destruct (reconcile_lists _ mem w2) as [[[]|e] w3]; cbn [fst snd] in *;
    subst run; cbn [snd logger db]; (apply G2; [apply G1|]);
    solve [exact Ht1 | reflexivity].
Qed.

(** X22.  A pass leaves alone the items that were never synced. Whatever the
    snapshot and whatever the outcome of the pass, a todo without external id
    keeps its row as it is: the pass does not delete it, does not change its
    title or completion flag, and gives it no external id. *)
Theorem pass_spares_unsynced_items (w : World R) (j : Z) (t : Todo) :
  NoDup (map todo_id (todos (db w))) ->
  lookup_todo j (db w) = Some t ->
  truthy (todo_external_id t) = false ->
  lookup_todo j (db (snd (syncFromExternal w))) = Some t.
Proof.
  intros Hnd Ht Hf.
  remember (syncFromExternal w) as run eqn:Hrun.
  unfold syncFromExternal in Hrun. unfold bind at 1 in Hrun.
  unfold logger at 1 in Hrun. rewrite try_catch_bind in Hrun.
  unfold http in Hrun.
  cbn [remote db faults requests log acks] in Hrun.
  destruct (send (mkRequest GET ["todolists"] NoBody) (remote w))
    as [resp r'] eqn:Hs.
  destruct resp as [|st d]; [subst run; exact Ht|].
  destruct ((200 <=? st)%nat && (st <? 300)%nat);
    [|subst run; exact Ht].
  rewrite try_catch_bind in Hrun.
  destruct d as [|l|ls]; cbn [expect_lists ret throw] in Hrun;
    try (subst run; exact Ht).
  match type of Hrun with
  | context [try_catch (merge_snapshot ls) ?h ?w1] =>
      pose proof (@merge_snapshot_keeps ls w1 j t Hnd Ht Hf) as Hm;
      unfold try_catch in Hrun;
      destruct (merge_snapshot ls w1) as [[[]|e] w2]
  end; subst run; exact Hm.
Qed.

End LocalOnlyItems.

(** ** Runs of these properties *)

(** A remote system that cannot be reached. *)
Module Offline.

#[global] Instance client : HttpClient unit :=
  {| send := fun _ r => (NetworkError, r) |}.

Definition world (s : Store) : World unit := mkWorld s None tt [] [] [].

End Offline.

Module Runs.

(** The synced list of the scenarios with its synced item only, against a
    remote system that holds the same. *)
Definition settled : World Remote.State :=
  Remote.world
    (mkStore [mkTodoList 1 (Some "ext-1") "Groceries"]
             [mkTodo 1 (Some "ext-2") "milk" false (Some 1%Z)] 2 2)
    Scenario.syncedRemote.

(** A remote list pushed from a local list that is gone. *)
Definition orphaned : World Remote.State :=
  Remote.world Scenario.emptyStore
    (Remote.mkState [mkExternalList "ext-1" (Some "5") "Gone" []] 2).

End Runs.

Lemma absent_row_run :
  lookup_list 7 (db Scenario.emptyList) = None
  /\ lookup_todo 7 (db Scenario.emptyList) = None
  /\ fst (handleSyncEvent (mkEvent UPDATE_TODO_LIST 7) Scenario.emptyList)
     = Throw (list_not_found 7)
  /\ fst (handleSyncEvent (mkEvent DELETE_TODO_ITEM 7) Scenario.emptyList)
     = Return tt.
Proof.
  split; [reflexivity|]. split; [reflexivity|]. split.
  - exact (proj1 (proj1 (event_of_absent_row 7 Scenario.emptyList) eq_refl)).
  - apply (proj2 (event_of_absent_row 7 Scenario.emptyList) eq_refl).
Defined.

Lemma list_deleted_run :
  lookup_list 1 (db Scenario.itemAdded)
  = Some (mkTodoList 1 (Some "ext-1") "Groceries")
  /\ db (snd (handleSyncEvent (mkEvent DELETE_TODO_LIST 1) Scenario.itemAdded))
     = db Scenario.itemAdded.
Proof.
  split; [reflexivity|].
  exact (proj1 (@list_deleted_outcome _ _ 1 Scenario.itemAdded
                  (mkTodoList 1 (Some "ext-1") "Groceries") eq_refl)).
Defined.

Lemma item_deleted_run :
  lookup_todo 1 (db Scenario.itemAdded)
  = Some (mkTodo 1 (Some "ext-2") "milk" false (Some 1%Z))
  /\ db (snd (handleSyncEvent (mkEvent DELETE_TODO_ITEM 1) Scenario.itemAdded))
     = db Scenario.itemAdded.
Proof.
  split; [reflexivity|].
  exact (proj1 (@item_deleted_outcome _ _ 1 Scenario.itemAdded
                  (mkTodo 1 (Some "ext-2") "milk" false (Some 1%Z)) eq_refl)).
Defined.

Lemma synced_list_updated_run :
  lookup_list 1 (db Scenario.itemAdded)
  = Some (mkTodoList 1 (Some "ext-1") "Groceries")
  /\ truthy (Some "ext-1") = true
  /\ db (snd (handleSyncEvent (mkEvent UPDATE_TODO_LIST 1) Scenario.itemAdded))
     = db Scenario.itemAdded.
Proof.
  split; [reflexivity|]. split; [reflexivity|].
  exact (proj1 (@synced_list_updated_outcome _ _ 1 Scenario.itemAdded
                  (mkTodoList 1 (Some "ext-1") "Groceries") eq_refl eq_refl)).
Defined.

Lemma synced_item_updated_run :
  lookup_todo 1 (db Scenario.itemAdded)
  = Some (mkTodo 1 (Some "ext-2") "milk" false (Some 1%Z))
  /\ lookup_list 1 (db Scenario.itemAdded)
     = Some (mkTodoList 1 (Some "ext-1") "Groceries")
  /\ db (snd (handleSyncEvent (mkEvent UPDATE_TODO_ITEM 1) Scenario.itemAdded))
     = db Scenario.itemAdded.
Proof.
  split; [reflexivity|]. split; [reflexivity|].
  exact (proj1 (@synced_item_updated_outcome _ _ 1 Scenario.itemAdded
                  (mkTodo 1 (Some "ext-2") "milk" false (Some 1%Z))
                  (mkTodoList 1 (Some "ext-1") "Groceries")
                  eq_refl eq_refl eq_refl eq_refl)).
Defined.

Lemma synced_item_created_run :
  lookup_todo 1 (db Scenario.itemAdded)
  = Some (mkTodo 1 (Some "ext-2") "milk" false (Some 1%Z))
  /\ lookup_list 1 (db Scenario.itemAdded)
     = Some (mkTodoList 1 (Some "ext-1") "Groceries")
  /\ fst (handleSyncEvent (mkEvent CREATE_TODO_ITEM 1) Scenario.itemAdded)
     = Return tt.
Proof.
  split; [reflexivity|]. split; [reflexivity|].
  exact (proj1 (@synced_item_created_outcome _ _ 1 Scenario.itemAdded
                  (mkTodo 1 (Some "ext-2") "milk" false (Some 1%Z))
                  (mkTodoList 1 (Some "ext-1") "Groceries")
                  eq_refl eq_refl eq_refl)).
Defined.

Lemma unsynced_update_run :
  lookup_list 1 (db Scenario.dependent) = Some (mkTodoList 1 None "Groceries")
  /\ lookup_todo 10 (db Scenario.dependent)
     = Some (mkTodo 10 None "milk" false (Some 1%Z))
  /\ fst (handleSyncEvent (mkEvent UPDATE_TODO_LIST 1) Scenario.dependent)
     = fst (handleSyncEvent (mkEvent CREATE_TODO_LIST 1) Scenario.dependent)
  /\ fst (handleSyncEvent (mkEvent UPDATE_TODO_ITEM 10) Scenario.dependent)
     = fst (handleSyncEvent (mkEvent CREATE_TODO_ITEM 10) Scenario.dependent).
Proof.
  split; [reflexivity|]. split; [reflexivity|]. split.
  - exact (proj1 (proj1 (unsynced_update_is_creation 1 Scenario.dependent)
                    (mkTodoList 1 None "Groceries") eq_refl eq_refl)).
  - exact (proj1 (proj2 (unsynced_update_is_creation 10 Scenario.dependent)
                    (mkTodo 10 None "milk" false (Some 1%Z))
                    (mkTodoList 1 None "Groceries") eq_refl eq_refl eq_refl)).
Defined.

Lemma late_list_run :
  faults Scenario.recovered = None
  /\ lookup_todo 1 (db Scenario.recovered)
     = Some (mkTodo 1 (Some "ext-2") "milk" false (Some 1%Z))
  /\ lookup_list 1 (db Scenario.recovered)
     = Some (mkTodoList 1 None "Groceries")
  /\ lookup_list 1
       (db (snd (handleSyncEvent (mkEvent UPDATE_TODO_ITEM 1) Scenario.recovered)))
     = Some (mkTodoList 1 (Some "ext-3") "Groceries").
Proof.
  assert (Hnd : NoDup (map todo_id (todos (db Scenario.recovered)))).
  { change (map todo_id (todos (db Scenario.recovered))) with [1%Z].
    constructor; [intros [] | constructor]. }
  split; [reflexivity|]. split; [reflexivity|]. split; [reflexivity|].
  exact (proj1 (proj2
    (@synced_item_of_unsynced_list_updated _ _ 1 Scenario.recovered
       (mkTodo 1 (Some "ext-2") "milk" false (Some 1%Z))
       (mkTodoList 1 None "Groceries")
       201
       (pushed (mkTodoList 1 None "Groceries") (db Scenario.recovered)
               (remote Scenario.recovered))
       (after_push (mkTodoList 1 None "Groceries") (db Scenario.recovered)
                   (remote Scenario.recovered))
       eq_refl Hnd eq_refl eq_refl eq_refl eq_refl eq_refl eq_refl))).
Defined.

Lemma list_creation_failure_run :
  lookup_list 1 (db Scenario.emptyList) = Some (mkTodoList 1 None "Groceries")
  /\ truthy None = false
  /\ fst (handleSyncEvent (mkEvent CREATE_TODO_LIST 1)
            (mkWorld (db Scenario.emptyList) (Some 0%nat)
                     (remote Scenario.emptyList) [] [] []))
     = Throw QueryFailedError.
Proof.
  split; [reflexivity|]. split; [reflexivity|].
  exact (proj1 (proj2
    (@list_creation_failure _ _ 1
       (mkWorld (db Scenario.emptyList) (Some 0%nat)
                (remote Scenario.emptyList) [] [] [])
       (mkTodoList 1 None "Groceries") eq_refl eq_refl)
    201
    (pushed (mkTodoList 1 None "Groceries") (db Scenario.emptyList)
            (remote Scenario.emptyList))
    eq_refl eq_refl eq_refl)).
Defined.

Lemma source_id_run :
  In (mkTodoList 1 None "Groceries") (lists (db Scenario.dependent))
  /\ localId_of (mkExternalList "ext-1" (Some (toString 1)) "Groceries" [])
     = Some 1%Z.
Proof.
  assert (Hl : NoDup (map list_id (lists (db Scenario.dependent)))).
  { change (map list_id (lists (db Scenario.dependent))) with [1%Z].
    constructor; [intros [] | constructor]. }
  assert (Ht : NoDup (map todo_id (todos (db Scenario.dependent)))).
  { change (map todo_id (todos (db Scenario.dependent))) with [10%Z].
    constructor; [intros [] | constructor]. }
  assert (Hin : In (mkTodoList 1 None "Groceries") (lists (db Scenario.dependent)))
    by (left; reflexivity).
  split; [exact Hin|].
  exact (proj1 (proj1 (proj2
    (@source_id_round_trip (mkTodoList 1 None "Groceries")
       (db Scenario.dependent) Hl Ht Hin))
    (mkExternalList "ext-1" (Some (toString 1)) "Groceries" []) eq_refl)).
Defined.

Lemma pass_without_snapshot_run :
  rejection (answer fetch (Offline.world Scenario.emptyStore))
  = Some (AxiosError None)
  /\ fst (syncFromExternal (Offline.world Scenario.emptyStore))
     = Throw (AxiosError None).
Proof.
  split; [reflexivity|].
  exact (proj1 (@pass_without_snapshot _ _ (Offline.world Scenario.emptyStore)
                  (AxiosError None) eq_refl)).
Defined.

Lemma pass_requests_run :
  fst (syncFromExternal Runs.orphaned) = Return tt
  /\ requests (snd (syncFromExternal Runs.orphaned))
     = requests Runs.orphaned
       ++ fetch :: map deletion
                     (filter (orphan (db Runs.orphaned)) (fetched Runs.orphaned)).
Proof.
  assert (Hr : fst (syncFromExternal Runs.orphaned) = Return tt)
    by (vm_compute; reflexivity).
  split; [exact Hr|].
  exact (proj2 (pass_requests Runs.orphaned) Hr).
Defined.

Lemma orphans_run :
  (forall el, In el [mkExternalList "ext-1" (Some "5") "Gone" []] ->
              orphan (db Runs.orphaned) el = true)
  /\ requests (snd (syncFromExternal Runs.orphaned))
     = requests Runs.orphaned
       ++ fetch :: map deletion [mkExternalList "ext-1" (Some "5") "Gone" []].
Proof.
  assert (Ho : forall el, In el [mkExternalList "ext-1" (Some "5") "Gone" []] ->
                          orphan (db Runs.orphaned) el = true).
  { intros el [<-|[]]. vm_compute. reflexivity. }
  assert (Hs : send fetch (remote Runs.orphaned)
               = (Reply 200 (ListsData [mkExternalList "ext-1" (Some "5") "Gone" []]),
                  remote Runs.orphaned)) by reflexivity.
  split; [exact Ho|].
  apply (@orphans_are_deleted_remotely _ _ Runs.orphaned 200
           [mkExternalList "ext-1" (Some "5") "Gone" []]
           (remote Runs.orphaned) Hs eq_refl Ho).
Defined.

Lemma mirrored_pass_run :
  (forall el, In el (Remote.rlists Scenario.syncedRemote) ->
              mirrors (db Runs.settled) el)
  /\ db (snd (syncFromExternal Runs.settled)) = db Runs.settled.
Proof.
  assert (Hnd : NoDup (map list_id (lists (db Runs.settled)))).
  { change (map list_id (lists (db Runs.settled))) with [1%Z].
    constructor; [intros [] | constructor]. }
  assert (Hm : forall el, In el (Remote.rlists Scenario.syncedRemote) ->
                          mirrors (db Runs.settled) el).
  { intros el [<-|[]]. split; [reflexivity|].
    exists 1%Z, (mkTodoList 1 (Some "ext-1") "Groceries").
    repeat split; try reflexivity.
    - destruct H as [<-|[]].
      exists (mkTodo 1 (Some "ext-2") "milk" false (Some 1%Z)).
      split; [left; reflexivity | reflexivity].
    - destruct H as [<-|[]]. destruct H1 as [<-|[]]. reflexivity.
    - destruct H as [<-|[]]. destruct H1 as [<-|[]]. reflexivity. }
  assert (Hs : send fetch (remote Runs.settled)
               = (Reply 200 (ListsData (Remote.rlists Scenario.syncedRemote)),
                  Scenario.syncedRemote)) by reflexivity.
  split; [exact Hm|].
  apply (@mirrored_pass_writes_nothing _ _ Runs.settled 200
           (Remote.rlists Scenario.syncedRemote) Scenario.syncedRemote
           Hnd Hs eq_refl Hm).
Defined.

Lemma imported_list_run :
  wf_store (db Scenario.remoteOnly)
  /\ fst (syncFromExternal Scenario.remoteOnly) = Return tt
  /\ map list_id (lists (db (snd (syncFromExternal Scenario.remoteOnly))))
     = map list_id (lists (db Scenario.remoteOnly))
       ++ map (fun i => (next_list_id (db Scenario.remoteOnly) + Z.of_nat i)%Z)
              (seq 0 (List.length
                        (filter (fun l => negb (truthy (source_id l)))
                                (fetched Scenario.remoteOnly)))).
Proof.
  assert (Hw : wf_store (db Scenario.remoteOnly))
    by (apply wf_storeb_sound; vm_compute; reflexivity).
  assert (Hr : fst (syncFromExternal Scenario.remoteOnly) = Return tt)
    by (vm_compute; reflexivity).
  split; [exact Hw|]. split; [exact Hr|].
  exact (proj1 (@pass_imports_remote_lists _ _ Scenario.remoteOnly Hw Hr)).
Defined.

Lemma pulled_list_run :
  fst (syncFromExternal Scenario.recovered) = Return tt
  /\ lookup_list 1 (db Scenario.recovered) = Some (mkTodoList 1 None "Groceries")
  /\ lookup_list 1 (db (snd (syncFromExternal Scenario.recovered)))
     = Some (mkTodoList 1 (Some "ext-1") "Groceries").
Proof.
  assert (Hnd : NoDup (map list_id (lists (db Scenario.recovered)))).
  { change (map list_id (lists (db Scenario.recovered))) with [1%Z].
    constructor; [intros [] | constructor]. }
  assert (Hr : fst (syncFromExternal Scenario.recovered) = Return tt)
    by (vm_compute; reflexivity).
  assert (Hf : fetched Scenario.recovered
               = [mkExternalList "ext-1" (Some "1") "Groceries"
                    [mkExternalItem "ext-2" None "milk" false]])
    by (vm_compute; reflexivity).
  split; [exact Hr|]. split; [reflexivity|].
  refine (@pass_pulls_list_fields _ _ Scenario.recovered 1
            (mkTodoList 1 None "Groceries")
            (mkExternalList "ext-1" (Some "1") "Groceries"
               [mkExternalItem "ext-2" None "milk" false])
            Hnd Hr eq_refl _ eq_refl _).
  - rewrite Hf. left. reflexivity.
  - rewrite Hf. intros el' [<-|[]] _. reflexivity.
Defined.

Lemma item_creation_run :
  wf_store (db Scenario.itemAdded)
  /\ fst (TodosService_create "bread" 1 Scenario.itemAdded)
     = Return (mkEvent CREATE_TODO_ITEM 3).
Proof.
  assert (Hw : wf_store (db Scenario.itemAdded))
    by (apply wf_storeb_sound; vm_compute; reflexivity).
  split; [exact Hw|].
  refine (proj1 (@item_creation_site _ "bread" 1 Scenario.itemAdded Hw _)).
  discriminate.
Defined.

Lemma deleted_item_run :
  fst (TodosService_delete 1 Scenario.itemAdded)
  = Return (mkEvent DELETE_TODO_ITEM 1)
  /\ lookup_todo 1 (db (snd (TodosService_delete 1 Scenario.itemAdded))) = None.
Proof.
  assert (Hr : fst (TodosService_delete 1 Scenario.itemAdded)
               = Return (mkEvent DELETE_TODO_ITEM 1)) by reflexivity.
  split; [exact Hr|].
  exact (proj1 (proj2 (@deleted_item_is_not_propagated _ _ 1 Scenario.itemAdded
                         (mkEvent DELETE_TODO_ITEM 1) Hr))).
Defined.

Lemma primary_keys_run :
  wf_store (db Scenario.itemAdded)
  /\ wf_store (db (snd (TodosService_delete 1 Scenario.itemAdded))).
Proof.
  assert (Hw : wf_store (db Scenario.itemAdded))
    by (apply wf_storeb_sound; vm_compute; reflexivity).
  split; [exact Hw|].
  apply (proj2 (proj2 (proj2 (@primary_keys_are_kept _ _ Scenario.itemAdded Hw)))).
Defined.

Lemma unsynced_item_run :
  lookup_todo 2 (db Scenario.itemAdded) = Some (mkTodo 2 None "eggs" false (Some 1%Z))
  /\ lookup_todo 2 (db (snd (syncFromExternal Scenario.itemAdded)))
     = Some (mkTodo 2 None "eggs" false (Some 1%Z)).
Proof.
  assert (Hnd : NoDup (map todo_id (todos (db Scenario.itemAdded)))).
  { change (map todo_id (todos (db Scenario.itemAdded))) with [1%Z; 2%Z].
    constructor; [intros [E|[]]; discriminate|].
    constructor; [intros [] | constructor]. }
  split; [reflexivity|].
  exact (@pass_spares_unsynced_items _ _ Scenario.itemAdded 2
           (mkTodo 2 None "eggs" false (Some 1%Z)) Hnd eq_refl eq_refl).
Defined.
